(** * Motion extraction: a shallow embedding of motion_extraction.cpp

    The program reads a video frame by frame, pairs every frame with the
    frame [frameDelay] steps earlier (or with the first frame when the delay
    is 0), blends the current frame with the negative of the reference
    ([compareFrames]), post-processes the blend (gamma table or overlay) and
    writes the result.

    Layers of the development:
    - channel values, [saturate_cast], [cvRound] and the arithmetic of
      [double];
    - the OpenCV primitives the source calls, as functions on images
      (suffix [_img]), following the library's documented pixel semantics;
    - a store of pixel buffers: a [cv::Mat] is a handle on a buffer, and
      the primitives read and write buffers through handles ([cv_...]);
    - the source functions [createGammaLUT], [compareFrames],
      [applyGammaCorrection], [extractMotion], [parseArgs] and [main];
    - the properties. *)

From Stdlib Require Import Reals Qreals.
From Stdlib Require Lra.
From Stdlib Require Import ZArith QArith Qpower Qround Qabs Lia Lqa String List.
From Stdlib.Strings Require Import Byte Ascii.
From Stdlib Require DecimalString.
From stdpp Require Import base list.

Local Open Scope Z_scope.

(* ===================================================================== *)
(** * Channel values *)
(* ===================================================================== *)

(** [unsigned char]: one 8-bit channel of a pixel. *)
Definition uchar := byte.

Definition uchar_val (v : uchar) : Z := Z.of_N (Byte.to_N v).

(** The conversion [(uchar)z] of an integer already in [0, 255]. *)
Definition uchar_of (z : Z) : uchar :=
  match Byte.of_N (Z.to_N z) with
  | Some b => b
  | None => x00
  end.

(** [cv::saturate_cast<uchar>(int v)]:
    [(uchar)((unsigned)v <= UCHAR_MAX ? v : v > 0 ? UCHAR_MAX : 0)]. *)
Definition saturate_cast_uchar (v : Z) : uchar :=
  uchar_of (if (0 <=? v) && (v <=? 255) then v
            else if 0 <? v then 255 else 0).

(** [cvRound]: OpenCV rounds to the nearest integer, ties to the even
    neighbour (it compiles to [lrint] / [cvtsd2si]).  Real values are held
    as rationals: every [float] and [double] is one. *)
Definition cvRound (x : Q) : Z :=
  let f := Qfloor x in
  match Qcompare (x - inject_Z f) (1 # 2) with
  | Lt => f
  | Gt => f + 1
  | Eq => if Z.even f then f else f + 1
  end.

(** [double] is IEEE 754 binary64.  A finite [double] is a rational, and
    an arithmetic operation returns the exact result rounded to the
    nearest [double], ties to the even significand.  [ilog2 q] is the
    binary exponent of [q], the [e] with [2^e <= |q| < 2^(e+1)]; a
    significand has 53 bits, and below [2^-1022] the spacing stays
    [2^-1074] (subnormal numbers).  Results beyond the largest [double]
    are infinite in C++; they are not modelled, and neither is NaN: the
    source converts every [double] it computes to an integer type, which
    is undefined for such values. *)
Definition pow2 (k : Z) : Q := (2 ^ k)%Q.

Definition ilog2 (q : Q) : Z :=
  let k := Z.log2 (Z.abs (Qnum q)) - Z.log2 (Z.pos (Qden q)) in
  if Qle_bool (pow2 k) (Qabs q) then k else k - 1.

Definition round_double (q : Q) : Q :=
  if Qeq_bool q 0 then 0%Q
  else
    let s := Z.max (ilog2 q - 52) (-1074) in
    (inject_Z (cvRound (q / pow2 s)) * pow2 s)%Q.

(** [a * b] and [a / b] on [double]s. *)
Definition double_mul (a b : Q) : Q := round_double (a * b).
Definition double_div (a b : Q) : Q := round_double (a / b).

(* ===================================================================== *)
(** * Images and the OpenCV primitives on them *)
(* ===================================================================== *)

(** The contents of a matrix of depth [CV_8U]: its size, its channel count
    and its pixels in row-major order, one list of channel values per
    pixel. *)
Record Image := mkImage {
  rows : Z;
  cols : Z;
  channels : Z;
  data : list (list uchar)
}.

(** A default-constructed [cv::Mat]: no pixels, type [CV_8UC1]. *)
Definition emptyImage : Image := mkImage 0 0 1 [].

(** [Mat::empty()]. *)
Definition empty_img (img : Image) : bool := rows img * cols img =? 0.

(** The test OpenCV makes before a binary array operation: same size,
    same type. *)
Definition sameSizeType (a b : Image) : bool :=
  (rows a =? rows b) && (cols a =? cols b) && (channels a =? channels b).

Definition map_channels (f : uchar -> uchar) (src : Image) : Image :=
  mkImage (rows src) (cols src) (channels src) (map (map f) (data src)).

(** A binary per-channel operation; [None] is the [cv::Exception] raised
    on operands of different size or type. *)
Definition zip_channels (f : uchar -> uchar -> uchar) (a b : Image)
  : option Image :=
  if sameSizeType a b
  then Some (mkImage (rows a) (cols a) (channels a)
               (zip_with (zip_with f) (data a) (data b)))
  else None.

(** [cv::Mat(size, type)]: a new matrix.  Its contents are indeterminate
    in C++; the model fills it with zeros (the source overwrites every
    pixel before it reads one). *)
Definition blank (r c cn : Z) : Image :=
  mkImage r c cn (repeat (repeat x00 (Z.to_nat cn)) (Z.to_nat (r * c))).

(** [~v] on 8 bits. *)
Definition not8u (v : uchar) : uchar := uchar_of (Z.lxor (uchar_val v) 255).

(** [cv::bitwise_not(src, dst)]. *)
Definition bitwise_not_img (src : Image) : Image := map_channels not8u src.

(** One channel of [cv::addWeighted]:
    [saturate_cast<uchar>(a*alpha + b*beta + gamma)].  OpenCV evaluates the
    sum in [float]; for the weights the source passes (0.5, 0.5, 0) every
    intermediate value is a multiple of 1/2 below 256, which [float]
    represents exactly, so the rational sum is the computed one. *)
Definition addWeighted8u (alpha beta gamma : Q) (a b : uchar) : uchar :=
  saturate_cast_uchar
    (cvRound (inject_Z (uchar_val a) * alpha
              + inject_Z (uchar_val b) * beta + gamma)%Q).

(** [cv::addWeighted(src1, alpha, src2, beta, gamma, dst)]. *)
Definition addWeighted_img (src1 : Image) (alpha : Q) (src2 : Image)
  (beta gamma : Q) : option Image :=
  zip_channels (addWeighted8u alpha beta gamma) src1 src2.

Definition or8u (a b : uchar) : uchar :=
  uchar_of (Z.lor (uchar_val a) (uchar_val b)).

(** [cv::bitwise_or(src1, src2, dst)]. *)
Definition bitwise_or_img (src1 src2 : Image) : option Image :=
  zip_channels or8u src1 src2.

(** One channel of [cv::threshold(..., cv::THRESH_BINARY)]:
    [src > thresh ? maxval : 0]. *)
Definition threshBinary8u (thresh maxval : Z) (v : uchar) : uchar :=
  if uchar_val v >? thresh then saturate_cast_uchar maxval else x00.

Definition threshold_img (src : Image) (thresh maxval : Z) : Image :=
  map_channels (threshBinary8u thresh maxval) src.

(** The luminance of a BGR pixel as [cv::cvtColor] computes it for 8-bit
    images: BT.601 weights in 15-bit fixed point,
    [CV_DESCALE(b*BY15 + g*GY15 + r*RY15, 15)]. *)
Definition BY15 : Z := 3735.
Definition GY15 : Z := 19235.
Definition RY15 : Z := 9798.

Definition luminance (b g r : uchar) : uchar :=
  uchar_of (Z.shiftr (uchar_val b * BY15 + uchar_val g * GY15
                      + uchar_val r * RY15 + Z.shiftl 1 14) 15).

Definition chan (px : list uchar) (k : nat) : uchar := nth k px x00.

(** [cv::cvtColor(src, dst, cv::COLOR_BGR2GRAY)]: raises on an empty source
    and on a source that has neither 3 nor 4 channels. *)
Definition cvtColor_BGR2GRAY_img (src : Image) : option Image :=
  if empty_img src then None
  else if (channels src =? 3) || (channels src =? 4)
  then Some (mkImage (rows src) (cols src) 1
               (map (fun px => [luminance (chan px 0) (chan px 1) (chan px 2)])
                    (data src)))
  else None.

(** [cv::cvtColor(src, dst, cv::COLOR_GRAY2BGR)]: the gray value replicated
    over the three channels. *)
Definition cvtColor_GRAY2BGR_img (src : Image) : option Image :=
  if empty_img src then None
  else if channels src =? 1
  then Some (mkImage (rows src) (cols src) 3
               (map (fun px => [chan px 0; chan px 0; chan px 0]) (data src)))
  else None.

(** [cv::borderInterpolate(p, len, cv::BORDER_REFLECT_101)] for the
    coordinates a 3x3 kernel reaches ([-1 <= p <= len]). *)
Definition borderInterpolate (p len : Z) : Z :=
  if len =? 1 then 0
  else if p <? 0 then - p - 1 + 1
  else if len <=? p then len - 1 - (p - len) - 1
  else p.

Definition at_ (src : Image) (r c : Z) (k : nat) : Z :=
  uchar_val (chan (nth (Z.to_nat (r * cols src + c)) (data src) []) k).

(** One channel of one pixel of [cv::blur(src, dst, cv::Size(3,3))]: the
    mean of the 3x3 neighbourhood, the border reflected, rounded by
    [saturate_cast<uchar>]. *)
Definition blur3x3_at (src : Image) (r c : Z) (k : nat) : uchar :=
  let nb dr dc :=
    at_ src (borderInterpolate (r + dr) (rows src))
            (borderInterpolate (c + dc) (cols src)) k in
  let sum :=
    nb (-1) (-1) + nb (-1) 0 + nb (-1) 1
    + nb 0 (-1) + nb 0 0 + nb 0 1
    + nb 1 (-1) + nb 1 0 + nb 1 1 in
  saturate_cast_uchar (cvRound (inject_Z sum * (1 # 9))%Q).

Definition blur3x3_img (src : Image) : Image :=
  mkImage (rows src) (cols src) (channels src)
    (flat_map
       (fun r => map (fun c =>
                        map (fun k => blur3x3_at src (Z.of_nat r) (Z.of_nat c) k)
                            (seq 0 (Z.to_nat (channels src))))
                     (seq 0 (Z.to_nat (cols src))))
       (seq 0 (Z.to_nat (rows src)))).

(* ===================================================================== *)
(** * The store of pixel buffers *)
(* ===================================================================== *)

(** A [cv::Mat] is a header that shares a reference-counted pixel buffer.
    The store holds the buffers, a location is an index into it, and a
    header is either empty or a handle on one buffer.  Buffers are never
    reclaimed in the model. *)
Abbreviation loc := nat.
Abbreviation Mat := (option loc).
Abbreviation heap := (list Image).

(** Computations on the store that may raise a [cv::Exception] ([None]);
    the source catches none, so an exception ends the run. *)
Definition CV (A : Type) : Type := heap -> option (A * heap).

Definition ret {A} (a : A) : CV A := fun h => Some (a, h).

Definition raise {A} : CV A := fun _ => None.

Definition bind {A B} (m : CV A) (k : A -> CV B) : CV B :=
  fun h => match m h with
           | Some (a, h') => k a h'
           | None => None
           end.

Notation "'let!' x ':=' m 'in' k" := (bind m (fun x => k))
  (at level 10, x name, m at level 100, k at level 200).

Definition lift {A} (o : option A) : CV A :=
  match o with
  | Some a => ret a
  | None => raise
  end.

(** The image behind a header. *)
Definition deref (m : Mat) : CV Image :=
  match m with
  | None => ret emptyImage
  | Some l => fun h => match h !! l with
                       | Some img => Some (img, h)
                       | None => None
                       end
  end.

(** [reads h m img]: dereferencing [m] in [h] yields [img]. *)
Definition reads (h : heap) (m : Mat) (img : Image) : Prop :=
  deref m h = Some (img, h).

(** A new buffer. *)
Definition alloc (img : Image) : CV Mat :=
  fun h => Some (Some (length h), h ++ [img]).

(** Writing a result through an output header, as every OpenCV function
    does: [dst.create(size, type)] keeps the buffer when size and type
    already match, and the result then overwrites it in place; otherwise
    the header takes a new buffer.  The updated header is returned. *)
Definition writeTo (dst : Mat) (img : Image) : CV Mat :=
  match dst with
  | None => alloc img
  | Some l =>
      fun h => match h !! l with
               | Some old =>
                   if sameSizeType old img
                   then Some (Some l, <[l := img]> h)
                   else alloc img h
               | None => None
               end
  end.

(** [src.clone()]: a deep copy in a buffer of its own. *)
Definition clone (src : Mat) : CV Mat :=
  match src with
  | None => ret None
  | Some _ => let! img := deref src in alloc img
  end.

Definition cv_bitwise_not (src dst : Mat) : CV Mat :=
  let! img := deref src in writeTo dst (bitwise_not_img img).

Definition cv_addWeighted (src1 : Mat) (alpha : Q) (src2 : Mat)
  (beta gamma : Q) (dst : Mat) : CV Mat :=
  let! img1 := deref src1 in
  let! img2 := deref src2 in
  let! out := lift (addWeighted_img img1 alpha img2 beta gamma) in
  writeTo dst out.

Definition cv_bitwise_or (src1 src2 dst : Mat) : CV Mat :=
  let! img1 := deref src1 in
  let! img2 := deref src2 in
  let! out := lift (bitwise_or_img img1 img2) in
  writeTo dst out.

Definition cv_threshold (src dst : Mat) (thresh maxval : Z) : CV Mat :=
  let! img := deref src in writeTo dst (threshold_img img thresh maxval).

Definition cv_blur3x3 (src dst : Mat) : CV Mat :=
  let! img := deref src in writeTo dst (blur3x3_img img).

Inductive ColorConversionCode := COLOR_BGR2GRAY | COLOR_GRAY2BGR.

Definition cvtColor_img (code : ColorConversionCode) (src : Image)
  : option Image :=
  match code with
  | COLOR_BGR2GRAY => cvtColor_BGR2GRAY_img src
  | COLOR_GRAY2BGR => cvtColor_GRAY2BGR_img src
  end.

Definition cv_cvtColor (src dst : Mat) (code : ColorConversionCode) : CV Mat :=
  let! img := deref src in
  let! out := lift (cvtColor_img code img) in
  writeTo dst out.

(* ===================================================================== *)
(** * The source functions *)
(* ===================================================================== *)

(** [unsigned long] is 64 bits wide on the LP64 targets the program is
    built for; [frameDelay + 1] wraps at that width. *)
Definition ULONG_MAX : Z := 2 ^ 64 - 1.
Definition ulong (z : Z) : Z := z mod 2 ^ 64.

Section GammaTable.

(** [cv::pow(x, y)] on scalars is [std::pow]: [opencv2/core/cvstd.hpp]
    has [using std::pow;] in namespace [cv].  The library function is a
    parameter of the model; its arguments and its result are [double]s. *)
Variable pow : Q -> Q -> Q.

(** [createGammaLUT(lut, gamma_)]: the table [lut] the loop fills, entry
    [i] being
    [cv::saturate_cast<unsigned char>(cv::pow(i / 255.0, gamma_) * 255.0)].
    [gamma_] is a [float], converted to [double] without loss;
    [saturate_cast<uchar>(double)] is [saturate_cast<uchar>(cvRound(v))]. *)
Definition createGammaLUT (gamma_ : Q) : list uchar :=
  map (fun i : nat =>
         saturate_cast_uchar
           (cvRound
              (double_mul
                 (pow (double_div (inject_Z (Z.of_nat i)) 255) gamma_)
                 255)))
      (seq 0 256).

End GammaTable.

(** [compareFrames(src1, src2, dst)].  The new value of [dst] is
    returned; at both call sites [dst] is the local [outputFrame], a
    different object from [src1] and [src2]. *)
Definition compareFrames (src1 src2 dst : Mat) : CV Mat :=
  let! img1 := deref src1 in
  let! dst := alloc (blank (rows img1) (cols img1) (channels img1)) in
  let! inverted := cv_bitwise_not src2 None in
  cv_addWeighted src1 (1 # 2) inverted (1 # 2) 0 dst.

Section Pipeline.

(** The global [gammaLUT], as [createGammaLUT(gammaLUT, 1/1.1)] leaves it
    at start-up.  Its entries come out of floating-point [pow]; the
    pipeline only reads the table, so it is a parameter here. *)
Variable gammaLUT : list uchar.

Definition lookupLUT (v : uchar) : uchar :=
  nth (Z.to_nat (uchar_val v)) gammaLUT x00.

Definition gamma_img (img : Image) : Image := map_channels lookupLUT img.

(** [applyGammaCorrection(image)]: every channel of every [cv::Vec3b]
    pixel is replaced, in place, by its table entry.  The iterator is
    only meaningful on a 3-channel matrix; any other non-empty matrix is
    rejected (the debug build asserts). *)
Definition applyGammaCorrection (image : Mat) : CV unit :=
  match image with
  | None => ret tt
  | Some l =>
      let! img := deref image in
      if channels img =? 3
      then fun h => Some (tt, <[l := gamma_img img]> h)
      else raise
  end.

(** The locals of [extractMotion] together with the frames handed to
    [outputVideo.write] so far. *)
Record Locals := mkLocals {
  frameQueue : list Mat;
  frame : Mat;
  firstFrame : Mat;
  written : list Image
}.

(** The overlay branch of the loop body. *)
Definition overlayFrame (frame outputFrame : Mat) : CV Mat :=
  let! outputFrame := cv_cvtColor outputFrame outputFrame COLOR_BGR2GRAY in
  let! outputFrame := cv_threshold outputFrame outputFrame 129 255 in
  let! outputFrame := cv_blur3x3 outputFrame outputFrame in
  let! outputFrame := cv_cvtColor outputFrame outputFrame COLOR_GRAY2BGR in
  cv_bitwise_or frame outputFrame outputFrame.

(** The [if (overlay) ... else ...] of the loop body. *)
Definition postProcess (overlay : bool) (frame outputFrame : Mat)
  : CV Mat :=
  if overlay
  then overlayFrame frame outputFrame
  else
    let! _ := applyGammaCorrection outputFrame in
    ret outputFrame.

(** The body of the [while] loop, entered after [inputVideo.read(frame)]
    succeeded and stored the next picture through [frame]. *)
Definition loopBody (frameDelay : Z) (overlay : bool) (st : Locals)
  : CV Locals :=
  (* the fill phase; [false] stands for [continue] *)
  let! filled :=
    if 0 <? frameDelay
    then
      let! c := clone (frame st) in
      let q := frameQueue st ++ [c] in
      ret (negb (Z.of_nat (length q) <? ulong (frameDelay + 1)), q)
    else ret (true, frameQueue st)
  in
  match filled with
  | (false, q) =>
      ret (mkLocals q (frame st) (firstFrame st) (written st))
  | (true, q) =>
      let! cmp :=
        if frameDelay =? 0
        then
          let! o := compareFrames (frame st) (firstFrame st) None in
          ret (o, q)
        else
          match q with
          | front :: q' =>
              let! o := compareFrames (frame st) front None in
              ret (o, q')
          | [] => raise   (* front() of an empty queue: not reached *)
          end
      in
      let! outputFrame := postProcess overlay (frame st) (fst cmp) in
      let! out := deref outputFrame in
      ret (mkLocals (snd cmp) (frame st) (firstFrame st)
             (written st ++ [out]))
  end.

(** [while (inputVideo.read(frame)) { ... }]: the remaining pictures of
    the input are the list; a successful read copies the next picture
    through [frame], and the read that fails releases [frame]. *)
Fixpoint loop (inputVideo : list Image) (frameDelay : Z) (overlay : bool)
  (st : Locals) : CV Locals :=
  match inputVideo with
  | [] => ret (mkLocals (frameQueue st) None (firstFrame st) (written st))
  | img :: rest =>
      let! f := writeTo (frame st) img in
      let! st := loopBody frameDelay overlay
              (mkLocals (frameQueue st) f (firstFrame st) (written st)) in
      loop rest frameDelay overlay st
  end.

(** [extractMotion(inputVideo, outputVideo, frameDelay, overlay)]. *)
Definition extractMotion (inputVideo : list Image) (frameDelay : Z)
  (overlay : bool) : CV Locals :=
  let st := mkLocals [] None None [] in
  if frameDelay =? 0
  then
    match inputVideo with
    | [] => loop [] frameDelay overlay st
    | img :: rest =>
        let! ff := writeTo None img in
        loop rest frameDelay overlay (mkLocals [] None ff [])
    end
  else loop inputVideo frameDelay overlay st.

End Pipeline.

(* ===================================================================== *)
(** * [main] *)
(* ===================================================================== *)

(** The [arguments] struct that [parseArgs] returns. *)
Record arguments := mkArguments {
  inputPath : string;
  outputPath : string;
  framesToSkip : Z;
  secondsToSkip : Z;
  framesOption : bool;
  secondsOption : bool;
  overlay : bool
}.

(** What [cv::VideoCapture] reports about an opened file: the properties
    [get] returns (as [double]s) and the pictures [read] delivers. *)
Record VideoFile := mkVideoFile {
  frameWidth : Q;
  frameHeight : Q;
  fps : Q;
  frameCount : Q;
  pictures : list Image
}.

(** The file system as the two OpenCV constructors see it: which paths
    open as a video, and which output files can be created for a given
    frame rate and frame size. *)
Record Env := mkEnv {
  openVideo : string -> option VideoFile;
  canCreate : string -> Q -> Z -> Z -> bool
}.

Inductive Status :=
| Exited (code : Z)
| Terminated.   (* an uncaught [cv::Exception] *)

Definition EXIT_FAILURE : Z := 1.

(** What a run leaves behind: the text sent to [std::cerr], the output
    files created, the frames written to the output video and the way the
    process ended. *)
Record Outcome := mkOutcome {
  stderr : string;
  created : list string;
  frames : list Image;
  status : Status
}.

(** Conversion of a [double] to an integer type: truncation toward zero. *)
Definition truncQ (q : Q) : Z := Z.quot (Qnum q) (Z.pos (Qden q)).

(** [a > b] on [double]s. *)
Definition Qgtb (a b : Q) : bool := negb (Qle_bool a b).

(** [operator<<] on an integer. *)
Definition show_int (z : Z) : string :=
  DecimalString.NilZero.string_of_int (Z.to_int z).

(** [std::endl]. *)
Definition endl : string := String "010"%char EmptyString.

Definition cat (l : list string) : string := fold_right String.append EmptyString l.

Definition fail (msg : list string) : Outcome :=
  mkOutcome (cat msg) [] [] (Exited EXIT_FAILURE).

(** [main], from the point where [parseArgs] has returned [args].
    [frameDelay] is declared without an initial value; [indeterminate] is
    the value it holds until one of the two options assigns it.  The
    product [args.secondsToSkip * fps] and the quotient [frameCount / fps]
    are computed in [double] ([double_mul], [double_div]).  An [int]
    converts to [double] without loss, and so does [frameDelay] where it
    is compared with [frameCount]: it holds an [int] that is not negative
    (as [parseArgs] guarantees) or the integral part of a [double].  A
    conversion of a [double] to an integer type truncates; it is undefined
    in C++ when the truncated value does not fit the type, and the value
    the model has there carries no meaning. *)
Definition main (gammaLUT : list uchar) (indeterminate : Z)
  (args : arguments) (env : Env) : Outcome :=
  match openVideo env (inputPath args) with
  | None =>
      fail ["Error: Could not open file "%string; outputPath args; endl]
  | Some inputVideo =>
      let videoWidth := truncQ (frameWidth inputVideo) in
      let videoHeight := truncQ (frameHeight inputVideo) in
      let fps := fps inputVideo in
      let frameCount := frameCount inputVideo in
      let frameDelay := indeterminate in
      let frameDelay :=
        if framesOption args then ulong (framesToSkip args) else frameDelay in
      if framesOption args && Qgtb (inject_Z frameDelay) frameCount
      then
        fail ["Error: Input video only has "%string; show_int (truncQ frameCount);
              " frame(s). Cannot offset by "%string; show_int frameDelay;
              " frame(s)."%string; endl]
      else
        let frameDelay :=
          if secondsOption args
          then ulong (truncQ (double_mul (inject_Z (secondsToSkip args)) fps))
          else frameDelay in
        if secondsOption args && Qgtb (inject_Z frameDelay) frameCount
        then
          fail ["Error: Input video is only "%string;
                show_int (truncQ (double_div frameCount fps));
                " second(s) long. Cannot offset by "%string;
                show_int (secondsToSkip args); " second(s)."%string; endl]
        else
          if negb (canCreate env (outputPath args) fps videoWidth videoHeight)
          then
            fail ["Error: Could not create the output video file "%string;
                  outputPath args; endl]
          else
            match extractMotion gammaLUT (pictures inputVideo) frameDelay
                    (overlay args) [] with
            | Some (st, _) =>
                mkOutcome EmptyString [outputPath args] (written st)
                  (Exited 0)
            | None =>
                (* the frames written before the exception are not tracked *)
                mkOutcome EmptyString [outputPath args] [] Terminated
            end
  end.

(* ===================================================================== *)
(** * [parseArgs] *)
(* ===================================================================== *)

Definition EXIT_SUCCESS : Z := 0.

Definition INT_MIN : Z := - 2 ^ 31.
Definition INT_MAX : Z := 2 ^ 31 - 1.

(** [isspace] in the C locale. *)
Definition isspace (c : ascii) : bool :=
  let n := N_of_ascii c in
  (n =? 32)%N || ((9 <=? n)%N && (n <=? 13)%N).

Definition digit_of (c : ascii) : option Z :=
  let n := Z.of_N (N_of_ascii c) in
  if (48 <=? n) && (n <=? 57) then Some (n - 48) else None.

Fixpoint skip_spaces (s : string) : string :=
  match s with
  | String c s' => if isspace c then skip_spaces s' else s
  | EmptyString => s
  end.

(** The decimal digits at the head of [s], accumulated from [acc];
    [seen] tells whether a digit has been consumed.  [None]: no digit. *)
Fixpoint digits (s : string) (acc : Z) (seen : bool) : option Z :=
  match s with
  | String c s' =>
      match digit_of c with
      | Some d => digits s' (acc * 10 + d) true
      | None => if seen then Some acc else None
      end
  | EmptyString => if seen then Some acc else None
  end.

(** [std::stoi(str)]: leading white space is skipped, an optional sign
    and the longest run of decimal digits are converted, and what follows
    is ignored.  [None] is the exception thrown when there is no digit
    ([std::invalid_argument]) or the value does not fit an [int]
    ([std::out_of_range]). *)
Definition stoi (str : string) : option Z :=
  let s := skip_spaces str in
  let signed :=
    match s with
    | String "-"%char s' => (true, s')
    | String "+"%char s' => (false, s')
    | _ => (false, s)
    end in
  match digits (snd signed) 0 false with
  | Some v =>
      let v := if fst signed then - v else v in
      if (INT_MIN <=? v) && (v <=? INT_MAX) then Some v else None
  | None => None
  end.

(** What one call of [getopt_long] hands back: its return value and the
    globals [optarg] and [optopt] it sets. *)
Record GetoptResult := mkGetopt {
  opt : ascii;
  optarg : string;
  optopt : ascii
}.

(** How [parseArgs] ends: it returns the struct, it calls [std::exit]
    after writing to [std::cout] and [std::cerr], or an exception of
    [std::stoi] leaves it uncaught. *)
Inductive Parsed :=
| Returned (args : arguments)
| Exits (cout cerr : string) (code : Z)
| Uncaught.

(** The lambda [printUsage]. *)
Definition printUsage (programName : string) : string :=
  cat ["Usage: "%string; programName;
       " input_path output_path [-f frames | -s seconds] [-o] [-h]"%string;
       endl].

(** The lambda [printHelp]. *)
Definition printHelp (programName : string) : string :=
  cat [printUsage programName;
       endl; "Arguments:"%string; endl;
       "  input_path         Path to input video file (MP4)"%string; endl;
       "  output_path        Path of output video file to save (MP4)"%string;
       endl;
       endl; "Options:"%string; endl;
       "  -f, --frames       Number of frames to offset by"%string; endl;
       "  -s, --seconds      Number of seconds to offset by"%string; endl;
       "  -o, --overlay      Overlay the extracted motion over the original video"%string;
       endl;
       "  -h, --help         Display this help message"%string; endl;
       endl; "NOTE: --frames and --seconds are mutually exclusive."%string;
       endl;
       "A small offset shows fast movements in the video. A large offset shows slow movements in the video."%string;
       endl;
       "If -f or -s is set to 0, the output video shows change from the start of the video."%string;
       endl;
       endl; "Example:"%string; endl;
       "  "%string; programName; " input.mp4 output.mp4 -s 1"%string; endl].

(** The [while] loop over the results of [getopt_long], in the order the
    calls deliver them (the final [-1] left out).  What [getopt_long]
    itself prints for an option it rejects is not part of [cerr]. *)
Fixpoint parseOptions (programName : string) (results : list GetoptResult)
  (args : arguments) : Parsed :=
  match results with
  | [] => Returned args
  | g :: rest =>
      if Ascii.eqb (opt g) "h" then
        Exits (printHelp programName) EmptyString EXIT_SUCCESS
      else if Ascii.eqb (opt g) "f" then
        match stoi (optarg g) with
        | Some n =>
            parseOptions programName rest
              (mkArguments (inputPath args) (outputPath args) n
                 (secondsToSkip args) true (secondsOption args)
                 (overlay args))
        | None => Uncaught
        end
      else if Ascii.eqb (opt g) "s" then
        match stoi (optarg g) with
        | Some n =>
            parseOptions programName rest
              (mkArguments (inputPath args) (outputPath args)
                 (framesToSkip args) n (framesOption args) true
                 (overlay args))
        | None => Uncaught
        end
      else if Ascii.eqb (opt g) "o" then
        parseOptions programName rest
          (mkArguments (inputPath args) (outputPath args)
             (framesToSkip args) (secondsToSkip args) (framesOption args)
             (secondsOption args) true)
      else if Ascii.eqb (opt g) "?" then
        Exits (printUsage programName)
          (cat ["Unknown option: "%string; String (optopt g) EmptyString;
                endl])
          EXIT_FAILURE
      else parseOptions programName rest args
  end.

(** The member initialisers of [struct arguments]. *)
Definition defaultArguments : arguments :=
  mkArguments EmptyString EmptyString 0 0 false false false.

(** [parseArgs(argc, argv)]: [programName] is [argv[0]], [results] are
    the results of the calls of [getopt_long], and [operands] are the
    elements [argv[optind]] to [argv[argc - 1]] left when it is done. *)
Definition parseArgs (programName : string) (results : list GetoptResult)
  (operands : list string) : Parsed :=
  match parseOptions programName results defaultArguments with
  | Returned args =>
      if framesOption args && secondsOption args then
        Exits (printUsage programName)
          (cat ["Error: Options -f and -s are mutually exclusive."%string;
                endl])
          EXIT_FAILURE
      else if negb (framesOption args) && negb (secondsOption args) then
        Exits (printUsage programName)
          (cat ["Error: You must provide either a seconds or frames offset with -s or -f."%string;
                endl])
          EXIT_FAILURE
      else if framesToSkip args <? 0 then
        Exits EmptyString
          (cat ["Frames must be a positive number."%string; endl])
          EXIT_FAILURE
      else if secondsToSkip args <? 0 then
        Exits EmptyString
          (cat ["Seconds must be a positive number."%string; endl])
          EXIT_FAILURE
      else
        match operands with
        | [input; output] =>
            Returned
              (mkArguments input output (framesToSkip args)
                 (secondsToSkip args) (framesOption args)
                 (secondsOption args) (overlay args))
        | _ =>
            Exits (printUsage programName)
              (cat ["Error: Expected input and output file paths."%string;
                    endl])
              EXIT_FAILURE
        end
  | ended => ended
  end.

(** The whole of [main]: [parseArgs], then the part modelled by [main]
    above.  The first component is what went to [std::cout]. *)
Definition program (gammaLUT : list uchar) (indeterminate : Z)
  (programName : string) (results : list GetoptResult)
  (operands : list string) (env : Env) : string * Outcome :=
  match parseArgs programName results operands with
  | Returned args => (EmptyString, main gammaLUT indeterminate args env)
  | Exits cout cerr code => (cout, mkOutcome cerr [] [] (Exited code))
  | Uncaught => (EmptyString, mkOutcome EmptyString [] [] Terminated)
  end.

(** The loop goes on past the result [g]: it is neither [-h] nor an
    option [getopt_long] rejected, and its argument, if it is an offset,
    converts. *)
Definition passes (g : GetoptResult) : bool :=
  negb (Ascii.eqb (opt g) "h") && negb (Ascii.eqb (opt g) "?")
  && (if Ascii.eqb (opt g) "f" || Ascii.eqb (opt g) "s"
      then match stoi (optarg g) with Some _ => true | None => false end
      else true).

Definition isOption (c : ascii) (g : GetoptResult) : bool :=
  Ascii.eqb (opt g) c.

(** The argument of the last occurrence of the option [c]. *)
Fixpoint lastOptarg (c : ascii) (results : list GetoptResult)
  : option string :=
  match results with
  | [] => None
  | g :: rest =>
      match lastOptarg c rest with
      | Some a => Some a
      | None => if isOption c g then Some (optarg g) else None
      end
  end.

(** The delay [main] hands to [extractMotion] when exactly one of the two
    options is set: [args.framesToSkip], or [args.secondsToSkip * fps]
    computed in [double] and truncated. *)
Definition requestedDelay (args : arguments) (v : VideoFile) : Z :=
  if framesOption args then ulong (framesToSkip args)
  else ulong (truncQ (double_mul (inject_Z (secondsToSkip args)) (fps v))).

(** The values in the struct are [int]s. *)
Definition intFields (args : arguments) : Prop :=
  INT_MIN <= framesToSkip args <= INT_MAX /\
  INT_MIN <= secondsToSkip args <= INT_MAX.

(* ===================================================================== *)
(** * The values the source functions compute *)
(* ===================================================================== *)

(** The channel [k] of the pixel [p] (row-major index) of an image. *)
Definition channel_at (img : Image) (p k : nat) : option uchar :=
  match data img !! p with
  | Some px => px !! k
  | None => None
  end.

(** The header [m] shares a buffer of the store [h] that holds [img]. *)
Definition holds (h : heap) (m : Mat) (img : Image) : Prop :=
  exists l, m = Some l /\ h !! l = Some img.

(** The image [compareFrames] leaves behind [dst]. *)
Definition compareFrames_img (cur ref : Image) : option Image :=
  addWeighted_img cur (1 # 2) (bitwise_not_img ref) (1 # 2) 0.

(** The stages of the overlay branch: the binarised luminance of the
    comparator output, and the mask that is OR-ed onto the frame. *)
Definition binarised_img (cmp : Image) : option Image :=
  match cvtColor_BGR2GRAY_img cmp with
  | Some gray => Some (threshold_img gray 129 255)
  | None => None
  end.

Definition overlayMask_img (cmp : Image) : option Image :=
  match binarised_img cmp with
  | Some bin => cvtColor_GRAY2BGR_img (blur3x3_img bin)
  | None => None
  end.

Definition overlay_img (frame cmp : Image) : option Image :=
  match overlayMask_img cmp with
  | Some mask => bitwise_or_img frame mask
  | None => None
  end.

(** The frame one loop iteration writes for the pair (current frame,
    reference frame). *)
Definition processPair (gammaLUT : list uchar) (overlay : bool)
  (cur ref : Image) : option Image :=
  match compareFrames_img cur ref with
  | Some cmp =>
      if overlay then overlay_img cur cmp
      else if channels cmp =? 3 then Some (gamma_img gammaLUT cmp) else None
  | None => None
  end.

(** The quotient [i / 255.0] lies between 0 and 1 and within [2^-50] of
    the exact ratio. *)
Definition ratio_ok (i : nat) : bool :=
  let x := double_div (inject_Z (Z.of_nat i)) 255 in
  Qle_bool 0 x && Qle_bool x 1
  && Qle_bool (inject_Z (Z.of_nat i) * (1 # 255) - pow2 (-50)) x
  && Qle_bool x (inject_Z (Z.of_nat i) * (1 # 255) + pow2 (-50)).

(** [x] to the power [g] as the function on the reals, for [0 <= x] and
    [0 <= g]: the value [std::pow] approximates, and the [(i/255)^gamma]
    of the description of the table. *)
Definition powR (x g : R) : R :=
  if Req_EM_T x 0 then (if Req_EM_T g 0 then 1%R else 0%R)
  else Rpower x g.

(** The library function is accurate within [eps] at the exponent [g], on
    the arguments between 0 and 1. *)
Definition pow_accurate (pow : Q -> Q -> Q) (eps g : Q) : Prop :=
  forall x, (0 <= x <= 1)%Q ->
    (Rabs (Q2R (pow x g) - powR (Q2R x) (Q2R g)) <= Q2R eps)%R.

(** The overlay stage in the words of its description, to compare the
    primitives with: the luminance of a pixel by the BT.601 weights, and
    the sum a 3x3 box filter takes around the pixel in row [i] and column
    [j], the image mirrored at its border without repeating the border
    pixel. *)
Definition spec_luma (b g r : Z) : Q :=
  ((114 # 1000) * inject_Z b + (587 # 1000) * inject_Z g
   + (299 # 1000) * inject_Z r)%Q.

Definition spec_mirror (p len : Z) : Z :=
  if len =? 1 then 0
  else if p =? -1 then 1
  else if p =? len then len - 2
  else p.

Definition spec_valueAt (img : Image) (i j : Z) : Z :=
  match channel_at img (Z.to_nat (i * cols img + j)) 0 with
  | Some v => uchar_val v
  | None => 0
  end.

Definition spec_boxSum3x3 (img : Image) (i j : Z) : Z :=
  let around di dj :=
    spec_valueAt img (spec_mirror (i + di) (rows img))
      (spec_mirror (j + dj) (cols img)) in
  around (-1) (-1) + around (-1) 0 + around (-1) 1
  + around 0 (-1) + around 0 0 + around 0 1
  + around 1 (-1) + around 1 0 + around 1 1.

(** The image of the size and type of [img] whose channels all hold [v]. *)
Definition flat_img (v : uchar) (img : Image) : Image :=
  map_channels (fun _ => v) img.

(** What is still queued after the elements of [l] have been pushed with
    a delay of [d]: the last [d] of them. *)
Definition referenceWindow {A} (d : nat) (l : list A) : list A :=
  drop (length l - d) l.

(** The frames to be written for the pictures [l] with a delay of [d]:
    picture [d + i] paired with picture [i]. *)
Definition pairedOutputs (gammaLUT : list uchar) (overlay : bool) (d : nat)
  (l : list Image) : list (option Image) :=
  zip_with (processPair gammaLUT overlay) (drop d l) l.

(** What the loop maintains on the store: the queued headers hold the
    images [qimgs], [firstFrame] holds the anchor if there is one, and
    the buffer behind [frame] is shared with neither. *)
Record Inv (h : heap) (st : Locals) (qimgs : list Image)
  (anchor : option Image) : Prop := mkInv {
  inv_queue : Forall2 (holds h) (frameQueue st) qimgs;
  inv_anchor : match anchor with
               | Some a => holds h (firstFrame st) a
               | None => firstFrame st = None
               end;
  inv_frame : forall l, frame st = Some l ->
                (l < length h)%nat /\ (Some l ∉ frameQueue st)
                /\ firstFrame st <> Some l
}.

(** The pixel data agrees with the header: [rows * cols] pixels of
    [channels] values each. *)
Definition wellFormed (img : Image) : bool :=
  (Z.of_nat (length (data img)) =? rows img * cols img)
  && forallb (fun px => Z.of_nat (length px) =? channels img) (data img).

(** The pictures of one video: a common non-empty size, three channels. *)
Definition isFrame (r c : Z) (img : Image) : bool :=
  (rows img =? r) && (cols img =? c) && (channels img =? 3).

Definition uniform (r c : Z) (video : list Image) : bool :=
  (0 <? r) && (0 <? c) && forallb (isFrame r c) video.

(* ===================================================================== *)
(** * A sample video *)
(* ===================================================================== *)

(** The table of gamma 1: every value mapped to itself. *)
Definition identityLUT : list uchar :=
  map (fun n => uchar_of (Z.of_nat n)) (seq 0 256).

Definition bgr (b g r : Z) : list uchar := [uchar_of b; uchar_of g; uchar_of r].

(** Three 2x2 pictures. *)
Definition picture0 : Image :=
  mkImage 2 2 3 [bgr 10 20 30; bgr 40 50 60; bgr 70 80 90; bgr 100 110 120].
Definition picture1 : Image :=
  mkImage 2 2 3 [bgr 11 120 250; bgr 40 50 60; bgr 0 0 0; bgr 255 255 255].
Definition picture2 : Image :=
  mkImage 2 2 3 [bgr 200 0 255; bgr 41 49 60; bgr 255 255 255; bgr 0 0 0].

Definition sampleVideo : list Image := [picture0; picture1; picture2].

Definition sampleFile : VideoFile := mkVideoFile 2 2 30 3 sampleVideo.

(** Two frame rates as [double]s: the values nearest to 29.97 and to
    24000/1001. *)
Definition rate2997 : Q := 1054475631502295 # 35184372088832.
Definition rateFilm : Q := 6748650790265479 # 281474976710656.

(** A clip of [n] pictures at the frame rate [rate]. *)
Definition clip (rate : Q) (n : Z) : VideoFile :=
  mkVideoFile 2 2 rate (inject_Z n) (replicate (Z.to_nat n) picture0).

(** A power function that is exact at the exponents 0 and 2. *)
Definition samplePow (x g : Q) : Q :=
  if Qeq_bool g 0 then 1%Q else (x * x)%Q.

(** A picture of another size. *)
Definition thumbnail : Image := mkImage 1 1 3 [bgr 1 2 3].

(** An option as [getopt_long] reports it when it knows it. *)
Definition given (c : ascii) (a : string) : GetoptResult :=
  mkGetopt c a Ascii.zero.

(** A file system with one video, [in.mp4], where only [out.mp4] can be
    created. *)
Definition sampleEnv : Env :=
  mkEnv (fun path => if String.eqb path "in.mp4" then Some sampleFile else None)
        (fun path _ _ _ => String.eqb path "out.mp4").

(** The file system of [sampleEnv] with the video [v] behind [in.mp4]. *)
Definition envWith (v : VideoFile) : Env :=
  mkEnv (fun path => if String.eqb path "in.mp4" then Some v else None)
        (fun path _ _ _ => String.eqb path "out.mp4").

(* ===================================================================== *)
(** * Channel arithmetic *)
(* ===================================================================== *)

Lemma uchar_val_range v : 0 <= uchar_val v <= 255.
Proof.
  unfold uchar_val. pose proof (Byte.to_N_bounded v). lia.
Qed.

Lemma uchar_val_of z : 0 <= z <= 255 -> uchar_val (uchar_of z) = z.
Proof.
  intros Hz. unfold uchar_val, uchar_of.
  destruct (Byte.of_N (Z.to_N z)) as [b|] eqn:E.
  - apply Byte.to_of_N in E. rewrite E. lia.
  - apply Byte.of_N_None_iff in E. lia.
Qed.

Lemma saturate_cast_uchar_val v :
  uchar_val (saturate_cast_uchar v) = Z.max 0 (Z.min 255 v).
Proof.
  unfold saturate_cast_uchar.
  destruct (Z.leb_spec 0 v), (Z.leb_spec v 255); simpl;
    try destruct (Z.ltb_spec 0 v); rewrite uchar_val_of; lia.
Qed.

(** On 8 bits the complement of [v] is [255 - v]. *)
Lemma not8u_val v : uchar_val (not8u v) = 255 - uchar_val v.
Proof.
  destruct v; vm_compute; reflexivity.
Qed.

Lemma lor_byte_bound x y :
  0 <= x <= 255 -> 0 <= y <= 255 -> x <= Z.lor x y <= 255.
Proof.
  intros Hx Hy.
  assert (Hland : 0 <= Z.land x y <= y).
  { split; [apply Z.land_nonneg; lia|].
    rewrite <- (Z2N.id x), <- (Z2N.id y) by lia.
    rewrite <- N2Z.inj_land. apply N2Z.inj_le, N.land_le_r. }
  pose proof (Z.add_lor_land x y) as Hadd.
  split; [lia|].
  assert (Hnn : 0 <= Z.lor x y) by (apply Z.lor_nonneg; lia).
  destruct (Z.eq_dec (Z.lor x y) 0) as [->|Hne]; [lia|].
  assert (Hlt : Z.lor x y < 2 ^ 8); [|lia].
  apply Z.log2_lt_pow2; [lia|].
  rewrite Z.log2_lor by lia.
  assert (Hl : forall z, 0 <= z <= 255 -> Z.log2 z < 8).
  { intros z Hz. destruct (Z.eq_dec z 0) as [->|]; [reflexivity|].
    apply Z.log2_lt_pow2; lia. }
  specialize (Hl x Hx) as Hlx. specialize (Hl y Hy) as Hly. lia.
Qed.

Lemma cvRound_comp x y : (x == y)%Q -> cvRound x = cvRound y.
Proof.
  intros E. unfold cvRound.
  rewrite (Qfloor_comp _ _ E).
  assert (E' : (x - inject_Z (Qfloor y) == y - inject_Z (Qfloor y))%Q)
    by (rewrite E; reflexivity).
  rewrite (Qcompare_comp _ _ E' (1#2) (1#2) (Qeq_refl _)).
  reflexivity.
Qed.

Lemma cvRound_nearest x : (Qabs (inject_Z (cvRound x) - x) <= 1 # 2)%Q.
Proof.
  unfold cvRound.
  pose proof (Qfloor_le x) as Hlo. pose proof (Qlt_floor x) as Hhi.
  rewrite inject_Z_plus in Hhi. change (inject_Z 1) with 1%Q in Hhi.
  apply Qabs_Qle_condition.
  destruct (Qcompare (x - inject_Z (Qfloor x)) (1 # 2)) eqn:E;
    [apply Qeq_alt in E; destruct (Z.even (Qfloor x))
    |apply Qlt_alt in E|apply Qgt_alt in E];
    rewrite ?inject_Z_plus; change (inject_Z 1) with 1%Q;
    generalize dependent (inject_Z (Qfloor x)); intros g Hlo Hhi E;
    split; lra.
Qed.

(* the value at a half-integer *)
Lemma cvRound_half s :
  cvRound (s # 2) =
  if Z.even s then s / 2
  else if Z.even (s / 2) then s / 2 else s / 2 + 1.
Proof.
  unfold cvRound.
  assert (Hf : Qfloor (s # 2) = s / 2) by reflexivity.
  rewrite Hf.
  pose proof (Z.div_mod s 2 ltac:(lia)) as Hdm.
  pose proof (Z.mod_pos_bound s 2 ltac:(lia)) as Hm.
  destruct (Z.even s) eqn:Ev.
  - apply Z.even_spec in Ev. destruct Ev as [k ->].
    replace (2 * k / 2) with k by lia.
    assert (E : Qcompare ((2 * k # 2) - inject_Z k) (1 # 2) = Lt).
    { unfold Qcompare, Qminus, Qplus, Qopp, inject_Z; cbn [Qnum Qden].
      apply Z.compare_lt_iff. lia. }
    now rewrite E.
  - assert (Hodd : Z.odd s = true) by (rewrite <- Z.negb_even, Ev; reflexivity).
    apply Z.odd_spec in Hodd. destruct Hodd as [k ->].
    replace ((2 * k + 1) / 2) with k by lia.
    assert (E : Qcompare ((2 * k + 1 # 2) - inject_Z k) (1 # 2) = Eq).
    { unfold Qcompare, Qminus, Qplus, Qopp, inject_Z; cbn [Qnum Qden].
      apply Z.compare_eq_iff. lia. }
    now rewrite E.
Qed.

Lemma half_sum_eq a b :
  (inject_Z a * (1 # 2) + inject_Z b * (1 # 2) + 0 == (a + b) # 2)%Q.
Proof.
  unfold Qeq, Qplus, Qmult, inject_Z; cbn [Qnum Qden]. lia.
Qed.

(** The equal-weight blend of two channel values never saturates. *)
Lemma blend_val x y :
  uchar_val (addWeighted8u (1 # 2) (1 # 2) 0 x y)
  = cvRound ((uchar_val x + uchar_val y) # 2).
Proof.
  unfold addWeighted8u. rewrite saturate_cast_uchar_val.
  rewrite (cvRound_comp _ _ (half_sum_eq _ _)), cvRound_half.
  assert (Hs : 0 <= uchar_val x + uchar_val y <= 510).
  { pose proof (uchar_val_range x). pose proof (uchar_val_range y). lia. }
  generalize dependent (uchar_val x + uchar_val y). intros s Hs.
  assert (s = 510 -> Z.even s = true) by (intros ->; reflexivity).
  destruct (Z.even s), (Z.even (s / 2)); Z.div_mod_to_equations; lia.
Qed.

(* ===================================================================== *)
(** * Reading and writing the store *)
(* ===================================================================== *)

Lemma holds_reads h m img : holds h m img -> reads h m img.
Proof.
  intros (l & -> & Hl). unfold reads. simpl. now rewrite Hl.
Qed.

Lemma reads_Some h l img : reads h (Some l) img <-> h !! l = Some img.
Proof.
  unfold reads; simpl. destruct (h !! l); split; congruence.
Qed.

Lemma reads_app h ext m img : reads h m img -> reads (h ++ ext) m img.
Proof.
  destruct m as [l|]; unfold reads; simpl.
  - destruct (h !! l) as [i|] eqn:E; [|discriminate].
    intros [= ->]. now rewrite (lookup_app_l_Some _ _ _ _ E).
  - unfold ret. congruence.
Qed.

Lemma holds_app h ext m img : holds h m img -> holds (h ++ ext) m img.
Proof.
  intros (l & -> & Hl). exists l. split; [reflexivity|].
  now apply lookup_app_l_Some.
Qed.

Lemma reads_fresh h img ext : reads (h ++ img :: ext) (Some (length h)) img.
Proof.
  apply (proj2 (reads_Some _ _ _)), list_lookup_middle. reflexivity.
Qed.

Lemma sameSizeType_refl a : sameSizeType a a = true.
Proof.
  unfold sameSizeType. now rewrite !Z.eqb_refl.
Qed.

Lemma sameSizeType_eq a b :
  sameSizeType a b = true <->
  rows a = rows b /\ cols a = cols b /\ channels a = channels b.
Proof.
  unfold sameSizeType. rewrite !andb_true_iff, !Z.eqb_eq. tauto.
Qed.

Lemma zip_channels_shape f a b out :
  zip_channels f a b = Some out -> sameSizeType a out = true.
Proof.
  unfold zip_channels. destruct (sameSizeType a b); [|discriminate].
  intros [= <-]. unfold sameSizeType; simpl. now rewrite !Z.eqb_refl.
Qed.

(** Writing through a header that has no buffer yet. *)
Lemma writeTo_None img h :
  writeTo None img h = Some (Some (length h), h ++ [img]).
Proof. reflexivity. Qed.

(** Writing in place. *)
Lemma writeTo_same l old img h :
  h !! l = Some old -> sameSizeType old img = true ->
  writeTo (Some l) img h = Some (Some l, <[l := img]> h).
Proof.
  intros Hl Hs. simpl. now rewrite Hl, Hs.
Qed.

(** Writing a result of another size or type. *)
Lemma writeTo_other l old img h :
  h !! l = Some old -> sameSizeType old img = false ->
  writeTo (Some l) img h = Some (Some (length h), h ++ [img]).
Proof.
  intros Hl Hs. simpl. now rewrite Hl, Hs.
Qed.

Lemma insert_fresh (h : heap) (a b : Image) ext :
  <[length h := b]> (h ++ a :: ext) = h ++ b :: ext.
Proof.
  rewrite insert_app_r_alt by lia. now rewrite Nat.sub_diag.
Qed.

(** [compareFrames] only appends to the store: the blend goes into a new
    buffer behind [dst], the negative of [src2] into another. *)
Lemma compareFrames_run h src1 src2 dst cur ref out :
  reads h src1 cur -> reads h src2 ref ->
  compareFrames_img cur ref = Some out ->
  compareFrames src1 src2 dst h
  = Some (Some (length h), h ++ [out; bitwise_not_img ref]).
Proof.
  intros H1 H2 Hout.
  unfold compareFrames, bind. rewrite H1. unfold alloc.
  unfold cv_bitwise_not, bind.
  rewrite (reads_app _ [_] _ _ H2), writeTo_None.
  unfold cv_addWeighted, bind.
  rewrite <- app_assoc; simpl app.
  rewrite (reads_app _ [_; _] _ _ H1).
  rewrite length_app; simpl length.
  replace (length h + 1)%nat with (length (h ++ [blank (rows cur) (cols cur) (channels cur)]))
    by (rewrite length_app; reflexivity).
  replace (h ++ [blank (rows cur) (cols cur) (channels cur); bitwise_not_img ref])
    with ((h ++ [blank (rows cur) (cols cur) (channels cur)]) ++ [bitwise_not_img ref])
    by (rewrite <- app_assoc; reflexivity).
  rewrite reads_fresh.
  unfold compareFrames_img in Hout. rewrite Hout. simpl lift. unfold ret.
  rewrite <- app_assoc; simpl app.
  rewrite (writeTo_same _ (blank (rows cur) (cols cur) (channels cur)) out).
  - now rewrite insert_fresh.
  - apply list_lookup_middle. reflexivity.
  - apply zip_channels_shape in Hout. apply sameSizeType_eq.
    apply sameSizeType_eq in Hout. exact Hout.
Qed.

(** On operands of different size or type the call raises. *)
Lemma compareFrames_raise h src1 src2 dst cur ref :
  reads h src1 cur -> reads h src2 ref ->
  compareFrames_img cur ref = None ->
  compareFrames src1 src2 dst h = None.
Proof.
  intros H1 H2 Hout.
  unfold compareFrames, bind. rewrite H1. unfold alloc.
  unfold cv_bitwise_not, bind.
  rewrite (reads_app _ [_] _ _ H2), writeTo_None.
  unfold cv_addWeighted, bind.
  rewrite <- app_assoc; simpl app.
  rewrite (reads_app _ [_; _] _ _ H1).
  rewrite length_app; simpl length.
  replace (length h + 1)%nat with (length (h ++ [blank (rows cur) (cols cur) (channels cur)]))
    by (rewrite length_app; reflexivity).
  replace (h ++ [blank (rows cur) (cols cur) (channels cur); bitwise_not_img ref])
    with ((h ++ [blank (rows cur) (cols cur) (channels cur)]) ++ [bitwise_not_img ref])
    by (rewrite <- app_assoc; reflexivity).
  rewrite reads_fresh.
  unfold compareFrames_img in Hout. now rewrite Hout.
Qed.

Lemma map_channels_shape f a : sameSizeType a (map_channels f a) = true.
Proof. exact (sameSizeType_refl a). Qed.

Lemma blur3x3_shape a : sameSizeType a (blur3x3_img a) = true.
Proof. exact (sameSizeType_refl a). Qed.

Lemma sameSizeType_sym a b : sameSizeType a b = sameSizeType b a.
Proof.
  unfold sameSizeType. now rewrite (Z.eqb_sym (rows a)), (Z.eqb_sym (cols a)),
    (Z.eqb_sym (channels a)).
Qed.

Lemma sameSizeType_trans a b c :
  sameSizeType a b = true -> sameSizeType b c = true ->
  sameSizeType a c = true.
Proof.
  rewrite !sameSizeType_eq. intuition congruence.
Qed.

Lemma sameSizeType_channels a b :
  channels a <> channels b -> sameSizeType a b = false.
Proof.
  intros Hne. unfold sameSizeType.
  destruct (Z.eqb_spec (channels a) (channels b)); [contradiction|].
  now rewrite andb_false_r.
Qed.

Lemma BGR2GRAY_inv cmp gray :
  cvtColor_BGR2GRAY_img cmp = Some gray ->
  empty_img cmp = false /\ (channels cmp = 3 \/ channels cmp = 4) /\
  rows gray = rows cmp /\ cols gray = cols cmp /\ channels gray = 1 /\
  data gray
  = map (fun px => [luminance (chan px 0) (chan px 1) (chan px 2)]) (data cmp).
Proof.
  unfold cvtColor_BGR2GRAY_img.
  destruct (empty_img cmp); [discriminate|].
  destruct (Z.eqb_spec (channels cmp) 3), (Z.eqb_spec (channels cmp) 4);
    simpl; try discriminate; intros [= <-]; simpl; auto 10.
Qed.

Lemma GRAY2BGR_inv src mask :
  cvtColor_GRAY2BGR_img src = Some mask ->
  empty_img src = false /\ channels src = 1 /\
  rows mask = rows src /\ cols mask = cols src /\ channels mask = 3 /\
  data mask = map (fun px => [chan px 0; chan px 0; chan px 0]) (data src).
Proof.
  unfold cvtColor_GRAY2BGR_img.
  destruct (empty_img src); [discriminate|].
  destruct (Z.eqb_spec (channels src) 1); try discriminate.
  intros [= <-]; simpl; auto 10.
Qed.

Section PipelineRuns.

Variable gammaLUT : list uchar.

(** [applyGammaCorrection] rewrites the buffer behind its argument. *)
Lemma applyGammaCorrection_run h l cmp :
  h !! l = Some cmp -> channels cmp = 3 ->
  applyGammaCorrection gammaLUT (Some l) h
  = Some (tt, <[l := gamma_img gammaLUT cmp]> h).
Proof.
  intros Hl Hc. unfold applyGammaCorrection, bind. simpl deref.
  rewrite Hl, Hc. reflexivity.
Qed.

(** The overlay branch leaves every buffer of the store as it was: the
    gray image, binarised and then blurred in place, goes into one new
    buffer, the mask into another, and the composite overwrites the
    mask. *)
Lemma overlayFrame_stages h fr lo f cmp gray mask out :
  reads h fr f -> h !! lo = Some cmp ->
  cvtColor_BGR2GRAY_img cmp = Some gray ->
  cvtColor_GRAY2BGR_img (blur3x3_img (threshold_img gray 129 255))
  = Some mask ->
  bitwise_or_img f mask = Some out ->
  overlayFrame fr (Some lo) h
  = Some (Some (S (length h)),
          h ++ [blur3x3_img (threshold_img gray 129 255); out]).
Proof.
  intros Hf Hlo Hgray Hmask Hout.
  pose proof (BGR2GRAY_inv _ _ Hgray) as (_ & Hc & _ & _ & Hg1 & _).
  pose proof (GRAY2BGR_inv _ _ Hmask) as (_ & Hb1 & _ & _ & Hm3 & _).
  set (bin := threshold_img gray 129 255) in *.
  set (blurred := blur3x3_img bin) in *.
  unfold overlayFrame, bind.
  (* cvtColor BGR2GRAY *)
  unfold cv_cvtColor at 1; unfold bind.
  rewrite (proj2 (reads_Some _ _ _) Hlo). simpl cvtColor_img.
  rewrite Hgray. simpl lift. unfold ret.
  rewrite (writeTo_other _ _ _ _ Hlo)
    by (apply sameSizeType_channels; lia).
  (* threshold *)
  unfold cv_threshold, bind. rewrite reads_fresh.
  rewrite (writeTo_same _ gray)
    by (apply list_lookup_middle || apply map_channels_shape; reflexivity).
  rewrite insert_fresh.
  (* blur *)
  unfold cv_blur3x3, bind. rewrite reads_fresh.
  rewrite (writeTo_same _ bin)
    by (apply list_lookup_middle || apply blur3x3_shape; reflexivity).
  rewrite insert_fresh. fold bin. fold blurred.
  (* cvtColor GRAY2BGR *)
  unfold cv_cvtColor, bind. rewrite reads_fresh. simpl cvtColor_img.
  rewrite Hmask. simpl lift. unfold ret.
  rewrite (writeTo_other _ blurred)
    by (try apply list_lookup_middle; try apply sameSizeType_channels;
        try reflexivity; lia).
  (* bitwise_or *)
  unfold cv_bitwise_or, bind.
  rewrite <- app_assoc; simpl app.
  rewrite (reads_app _ [_; _] _ _ Hf).
  rewrite length_app; simpl length.
  assert (Hm : reads (h ++ [blurred; mask]) (Some (length h + 1)%nat) mask).
  { apply (proj2 (reads_Some _ _ _)). rewrite lookup_app_r by lia.
    replace (length h + 1 - length h)%nat with 1%nat by lia. reflexivity. }
  rewrite Hm, Hout. simpl lift. unfold ret.
  assert (Hsame : sameSizeType mask out = true).
  { pose proof (zip_channels_shape _ _ _ _ Hout) as Hfo.
    unfold bitwise_or_img, zip_channels in Hout.
    destruct (sameSizeType f mask) eqn:Hfm; [|discriminate].
    rewrite sameSizeType_sym in Hfm.
    eapply sameSizeType_trans; eassumption. }
  rewrite (writeTo_same _ mask)
    by (apply (proj1 (reads_Some _ _ _)) in Hm; assumption).
  replace (h ++ [blurred; mask]) with ((h ++ [blurred]) ++ [mask])
    by (rewrite <- app_assoc; reflexivity).
  replace (length h + 1)%nat with (length (h ++ [blurred]))
    by (rewrite length_app; reflexivity).
  rewrite insert_fresh, <- app_assoc, length_app. simpl.
  repeat f_equal. lia.
Qed.

(** What follows the comparison in the loop body, run on the store that
    [compareFrames] leaves: the frame behind [outputFrame] is then [out],
    and the store is only extended. *)
Lemma postProcess_run h fr cur ref cmp (overlay : bool) out :
  reads h fr cur ->
  compareFrames_img cur ref = Some cmp ->
  processPair gammaLUT overlay cur ref = Some out ->
  exists m ext,
    postProcess gammaLUT overlay fr (Some (length h))
      (h ++ [cmp; bitwise_not_img ref])
    = Some (m, h ++ ext)
    /\ reads (h ++ ext) m out.
Proof.
  intros Hf Hcmp Hout. unfold processPair in Hout. rewrite Hcmp in Hout.
  unfold postProcess. destruct overlay.
  - unfold overlay_img, overlayMask_img, binarised_img in Hout.
    destruct (cvtColor_BGR2GRAY_img cmp) as [gray|] eqn:Hgray;
      [|discriminate].
    destruct (cvtColor_GRAY2BGR_img _) as [mask|] eqn:Hmask; [|discriminate].
    pose proof (overlayFrame_stages (h ++ [cmp; bitwise_not_img ref]) fr
                  (length h) cur cmp gray mask out) as Hrun.
    rewrite Hrun;
      [|now apply reads_app|apply list_lookup_middle; reflexivity
       |assumption..].
    eexists _, ([cmp; bitwise_not_img ref] ++ [_; out]).
    rewrite <- app_assoc. simpl app. split; [reflexivity|].
      apply (proj2 (reads_Some _ _ _)). rewrite length_app. simpl length.
      rewrite lookup_app_r by lia.
      replace (S (length h + 2) - length h)%nat with 3%nat by lia.
      reflexivity.
  - destruct (Z.eqb_spec (channels cmp) 3) as [Hc|]; [|discriminate].
    injection Hout as <-.
    exists (Some (length h)), [gamma_img gammaLUT cmp; bitwise_not_img ref].
    unfold bind.
    rewrite (applyGammaCorrection_run _ _ cmp)
      by (try apply list_lookup_middle; auto).
    unfold ret. rewrite insert_fresh. split; [reflexivity|].
    apply reads_fresh.
Qed.

(** One iteration with [frameDelay == 0]: the frame is compared against
    the anchor. *)
Lemma loopBody_anchor h st (overlay : bool) cur first out :
  reads h (frame st) cur -> reads h (firstFrame st) first ->
  processPair gammaLUT overlay cur first = Some out ->
  exists ext,
    loopBody gammaLUT 0 overlay st h
    = Some (mkLocals (frameQueue st) (frame st) (firstFrame st)
              (written st ++ [out]), h ++ ext).
Proof.
  intros Hcur Hfirst Hout.
  destruct (compareFrames_img cur first) as [cmp|] eqn:Hcmp;
    [|unfold processPair in Hout; rewrite Hcmp in Hout; discriminate].
  destruct (postProcess_run h (frame st) cur first cmp overlay out
              Hcur Hcmp Hout) as (m & ext & Hpost & Hm).
  exists ext. unfold loopBody, bind, ret. simpl.
  rewrite (compareFrames_run _ _ _ _ _ _ _ Hcur Hfirst Hcmp).
  simpl. rewrite Hpost, Hm. reflexivity.
Qed.

Lemma ulong_succ d : 0 < d < ULONG_MAX -> ulong (d + 1) = d + 1.
Proof.
  unfold ULONG_MAX, ulong. intros Hd. apply Z.mod_small. lia.
Qed.

(** One iteration of the fill phase: the frame is cloned into the queue
    and nothing is written. *)
Lemma loopBody_fill h st (overlay : bool) d cur :
  0 < d < ULONG_MAX ->
  Z.of_nat (length (frameQueue st)) < d ->
  holds h (frame st) cur ->
  loopBody gammaLUT d overlay st h
  = Some (mkLocals (frameQueue st ++ [Some (length h)]) (frame st)
            (firstFrame st) (written st), h ++ [cur]).
Proof.
  intros Hd Hq (l & Hfr & Hl).
  unfold loopBody, bind. rewrite Hfr.
  destruct (Z.ltb_spec 0 d); [|lia].
  unfold clone, bind. simpl deref. rewrite Hl. unfold alloc, ret.
  rewrite ulong_succ, length_app by assumption.
  change (length [Some (length h)]) with 1%nat.
  destruct (Z.ltb_spec (Z.of_nat (length (frameQueue st) + 1)) (d + 1));
    [|lia].
  reflexivity.
Qed.

(** One iteration past the fill phase: the frame is cloned into the
    queue, compared against the oldest queued frame, and that frame
    leaves the queue. *)
Lemma loopBody_steady h st (overlay : bool) d cur front qtail ref out :
  0 < d < ULONG_MAX ->
  d <= Z.of_nat (length (frameQueue st)) ->
  frameQueue st = front :: qtail ->
  holds h (frame st) cur ->
  reads h front ref ->
  processPair gammaLUT overlay cur ref = Some out ->
  exists ext,
    loopBody gammaLUT d overlay st h
    = Some (mkLocals (qtail ++ [Some (length h)]) (frame st)
              (firstFrame st) (written st ++ [out]), h ++ cur :: ext).
Proof.
  intros Hd Hq Hqueue Hcur Href Hout.
  pose proof (holds_reads _ _ _ Hcur) as Hrcur.
  destruct Hcur as (l & Hfr & Hl).
  destruct (compareFrames_img cur ref) as [cmp|] eqn:Hcmp;
    [|unfold processPair in Hout; rewrite Hcmp in Hout; discriminate].
  destruct (postProcess_run (h ++ [cur]) (frame st) cur ref cmp overlay out
              (reads_app _ _ _ _ Hrcur) Hcmp Hout) as (m & ext & Hpost & Hm).
  exists ext. change (h ++ cur :: ext) with (h ++ [cur] ++ ext).
  rewrite app_assoc.
  unfold loopBody, bind. rewrite Hfr in *.
  destruct (Z.ltb_spec 0 d); [|lia].
  unfold clone, bind. simpl deref. rewrite Hl. unfold alloc, ret.
  rewrite ulong_succ, length_app by assumption.
  change (length [Some (length h)]) with 1%nat.
  destruct (Z.ltb_spec (Z.of_nat (length (frameQueue st) + 1)) (d + 1));
    [lia|].
  destruct (Z.eqb_spec d 0); [lia|].
  rewrite Hqueue. cbn [negb app]. cbv beta iota.
  rewrite (compareFrames_run _ _ _ _ _ _ _
             (reads_app _ [cur] _ _ Hrcur) (reads_app _ [cur] _ _ Href) Hcmp).
  simpl fst. simpl snd. rewrite Hpost, Hm. reflexivity.
Qed.

End PipelineRuns.

(* ===================================================================== *)
(** * The queue of references *)
(* ===================================================================== *)

Lemma referenceWindow_fill {A} d (l : list A) x :
  (length l < d)%nat ->
  referenceWindow d l = l /\ referenceWindow d (l ++ [x]) = l ++ [x].
Proof.
  intros Hl. unfold referenceWindow. rewrite length_app. simpl.
  replace (length l - d)%nat with 0%nat by lia.
  replace (length l + 1 - d)%nat with 0%nat by lia.
  split; reflexivity.
Qed.

Lemma referenceWindow_steady {A} d (l : list A) x front qtail :
  (0 < d <= length l)%nat ->
  referenceWindow d l = front :: qtail ->
  referenceWindow d (l ++ [x]) = qtail ++ [x].
Proof.
  intros Hd Hw. unfold referenceWindow in *. rewrite length_app. simpl.
  replace (length l + 1 - d)%nat with (S (length l - d)) by lia.
  rewrite drop_app_le by lia.
  replace (S (length l - d)) with ((length l - d) + 1)%nat by lia.
  rewrite <- drop_drop, Hw. reflexivity.
Qed.

Lemma referenceWindow_length {A} d (l : list A) :
  length (referenceWindow d l) = Nat.min d (length l).
Proof.
  unfold referenceWindow. rewrite length_drop. lia.
Qed.

Section Outputs.

Variable gammaLUT : list uchar.
Variable overlay : bool.

Lemma pairedOutputs_fill d l :
  (length l <= d)%nat -> pairedOutputs gammaLUT overlay d l = [].
Proof.
  intros Hl. unfold pairedOutputs. now rewrite drop_ge by lia.
Qed.

Lemma pairedOutputs_steady d l x front qtail :
  (0 < d <= length l)%nat ->
  referenceWindow d l = front :: qtail ->
  pairedOutputs gammaLUT overlay d (l ++ [x])
  = pairedOutputs gammaLUT overlay d l
    ++ [processPair gammaLUT overlay x front].
Proof.
  intros Hd Hw. unfold pairedOutputs, referenceWindow in *.
  rewrite (drop_app_le l [x] d) by lia.
  rewrite zip_with_app_l, length_drop.
  rewrite (drop_app_le l [x]) by lia. rewrite Hw. simpl.
  f_equal.
  rewrite zip_with_take_r' by (rewrite length_drop, length_app; lia).
  rewrite zip_with_app_r.
  rewrite (take_ge (drop d l)) by (rewrite length_drop; lia).
  rewrite (drop_ge (drop d l)) by (rewrite length_drop; lia).
  simpl. apply app_nil_r.
Qed.

Lemma pairedOutputs_length d l :
  length (pairedOutputs gammaLUT overlay d l) = (length l - d)%nat.
Proof.
  unfold pairedOutputs. rewrite length_zip_with, length_drop. lia.
Qed.

Lemma pairedOutputs_lookup d l i :
  (i < length l - d)%nat ->
  exists cur ref,
    l !! (d + i)%nat = Some cur /\ l !! i = Some ref /\
    pairedOutputs gammaLUT overlay d l !! i
    = Some (processPair gammaLUT overlay cur ref).
Proof.
  intros Hi. unfold pairedOutputs.
  destruct (lookup_lt_is_Some_2 l (d + i)) as [cur Hcur]; [lia|].
  destruct (lookup_lt_is_Some_2 l i) as [ref Href]; [lia|].
  exists cur, ref. split; [assumption|]. split; [assumption|].
  rewrite lookup_zip_with, lookup_drop, Hcur, Href. reflexivity.
Qed.

End Outputs.

(* ===================================================================== *)
(** * The loop invariant *)
(* ===================================================================== *)

Lemma holds_lt h l img : holds h (Some l) img -> (l < length h)%nat.
Proof.
  intros (l' & [= <-] & Hl). eapply lookup_lt_Some, Hl.
Qed.

Lemma holds_insert_ne h m img l x :
  holds h m img -> m <> Some l -> holds (<[l := x]> h) m img.
Proof.
  intros (l' & -> & Hl) Hne. exists l'. split; [reflexivity|].
  rewrite list_lookup_insert_ne by congruence. exact Hl.
Qed.

Lemma queue_app h ext q imgs :
  Forall2 (holds h) q imgs -> Forall2 (holds (h ++ ext)) q imgs.
Proof.
  intros H. eapply Forall2_impl; [exact H|].
  intros m img. apply holds_app.
Qed.

Lemma queue_insert h q imgs l x :
  Forall2 (holds h) q imgs -> Some l ∉ q ->
  Forall2 (holds (<[l := x]> h)) q imgs.
Proof.
  induction 1 as [|m img q imgs Hm _ IH]; intros Hnotin; constructor.
  - apply holds_insert_ne; [assumption|].
    intros ->. apply Hnotin. constructor.
  - apply IH. intros Hin. apply Hnotin. now constructor.
Qed.

Lemma queue_fresh h q imgs l :
  Forall2 (holds h) q imgs -> (length h <= l)%nat -> Some l ∉ q.
Proof.
  induction 1 as [|m img q imgs Hm _ IH]; intros Hl Hin.
  - inversion Hin.
  - apply elem_of_cons in Hin as [<-|Hin].
    + apply holds_lt in Hm. lia.
    + now apply IH.
Qed.

(** A successful [inputVideo.read(frame)]: the picture is behind [frame]
    afterwards, and neither the queued frames nor the anchor changed. *)
Lemma read_step h st qimgs anchor img :
  Inv h st qimgs anchor ->
  exists f h1,
    writeTo (frame st) img h = Some (f, h1) /\
    holds h1 f img /\
    Inv h1 (mkLocals (frameQueue st) f (firstFrame st) (written st))
      qimgs anchor.
Proof.
  intros [Hq Ha Hf].
  assert (Hfresh :
    let h1 := h ++ [img] in
    holds h1 (Some (length h)) img /\
    Inv h1 (mkLocals (frameQueue st) (Some (length h)) (firstFrame st)
              (written st)) qimgs anchor).
  { split.
    - exists (length h). split; [reflexivity|].
      apply list_lookup_middle. reflexivity.
    - constructor; simpl.
      + now apply queue_app.
      + destruct anchor; [now apply holds_app|assumption].
      + intros l [= <-]. rewrite length_app. simpl. split; [lia|]. split.
        * eapply queue_fresh; [exact Hq|lia].
        * destruct anchor as [a|]; [|congruence].
          intros E. rewrite E in Ha. apply holds_lt in Ha. lia. }
  destruct (frame st) as [l|] eqn:Hfr.
  - destruct (Hf l eq_refl) as (Hlt & Hnq & Hnf).
    destruct (lookup_lt_is_Some_2 h l Hlt) as [old Hold].
    destruct (sameSizeType old img) eqn:Hs.
    + exists (Some l), (<[l := img]> h).
      rewrite (writeTo_same _ _ _ _ Hold Hs).
      split; [reflexivity|]. split.
      * exists l. split; [reflexivity|].
        now apply list_lookup_insert_eq.
      * constructor; simpl.
        -- now apply queue_insert.
        -- destruct anchor; [|assumption].
           apply holds_insert_ne; [assumption|congruence].
        -- intros l' [= <-]. rewrite length_insert. auto.
    + exists (Some (length h)), (h ++ [img]).
      rewrite (writeTo_other _ _ _ _ Hold Hs). split; [reflexivity|].
      exact Hfresh.
  - exists (Some (length h)), (h ++ [img]). rewrite writeTo_None.
    split; [reflexivity|]. exact Hfresh.
Qed.

Section Loop.

Variable gammaLUT : list uchar.
Variable overlay : bool.
Variables r c : Z.
Hypothesis r_pos : 0 < r.
Hypothesis c_pos : 0 < c.

(** Two pictures of the same video always yield a frame to write. *)
Lemma processPair_ok cur ref :
  isFrame r c cur = true -> isFrame r c ref = true ->
  exists out, processPair gammaLUT overlay cur ref = Some out.
Proof.
  unfold isFrame. rewrite !andb_true_iff, !Z.eqb_eq.
  intros [[Hr1 Hc1] Hn1] [[Hr2 Hc2] Hn2].
  unfold processPair, compareFrames_img, addWeighted_img, zip_channels.
  unfold sameSizeType. simpl.
  rewrite Hr1, Hc1, Hn1, Hr2, Hc2, Hn2, !Z.eqb_refl. simpl.
  destruct overlay; [|eauto].
  unfold overlay_img, overlayMask_img, binarised_img,
    cvtColor_BGR2GRAY_img, empty_img. simpl.
  destruct (Z.eqb_spec (r * c) 0) as [E|_]; [nia|]. simpl.
  unfold cvtColor_GRAY2BGR_img, empty_img. simpl.
  destruct (Z.eqb_spec (r * c) 0) as [E|_]; [nia|]. simpl.
  unfold bitwise_or_img, zip_channels, sameSizeType. simpl.
  rewrite Hr1, Hc1, Hn1, !Z.eqb_refl. simpl. eauto.
Qed.

Local Abbreviation isVideo l := (Forall (fun img => isFrame r c img = true) l).

(** The loop with a positive delay, started after the pictures
    [consumed] have been read.  [clones] are the headers pushed so far,
    one for each picture read.  At the end every clone ever pushed still
    holds its picture, the queue is the last [frameDelay] of them, and
    the frames written are the paired outputs. *)
Lemma loop_delay d rest :
  0 < d < ULONG_MAX ->
  forall consumed clones st h,
    isVideo (consumed ++ rest) ->
    Inv h (mkLocals clones (frame st) (firstFrame st) (written st))
      consumed None ->
    frameQueue st = referenceWindow (Z.to_nat d) clones ->
    map Some (written st)
    = pairedOutputs gammaLUT overlay (Z.to_nat d) consumed ->
    exists st' h' clones',
      loop gammaLUT rest d overlay st h = Some (st', h') /\
      Forall2 (holds h') clones' (consumed ++ rest) /\
      frameQueue st' = referenceWindow (Z.to_nat d) clones' /\
      map Some (written st')
      = pairedOutputs gammaLUT overlay (Z.to_nat d) (consumed ++ rest).
Proof.
  intros Hd. induction rest as [|img rest IH];
    intros consumed clones st h Hvid Hinv Hqueue Hw.
  - exists (mkLocals (frameQueue st) None (firstFrame st) (written st)), h,
      clones.
    rewrite app_nil_r. simpl. split; [reflexivity|].
    split; [apply (inv_queue _ _ _ _ Hinv)|]. split; assumption.
  - destruct (read_step h _ _ _ img Hinv) as (f & h1 & Hread & Hf & Hinv1).
    simpl in Hread, Hinv1.
    simpl loop. unfold bind at 1. rewrite Hread.
    set (st1 := mkLocals (frameQueue st) f (firstFrame st) (written st)) in *.
    pose proof (inv_queue _ _ _ _ Hinv1) as Hclones. simpl in Hclones.
    pose proof (Forall2_length _ _ _ Hclones) as Hlen.
    assert (Hqlen : length (frameQueue st)
                    = Nat.min (Z.to_nat d) (length consumed))
      by (rewrite Hqueue, referenceWindow_length, Hlen; reflexivity).
    assert (Hvid' : isVideo ((consumed ++ [img]) ++ rest))
      by (rewrite <- app_assoc; exact Hvid).
    destruct Hf as (lf & -> & Hlf).
    destruct (inv_frame _ _ _ _ Hinv1 lf eq_refl) as (Hlt & Hnq & Hnf).
    simpl in Hnq, Hnf.
    assert (Hinv2 : forall ext w,
              Inv (h1 ++ img :: ext)
                (mkLocals (clones ++ [Some (length h1)]) (Some lf)
                   (firstFrame st) w) (consumed ++ [img]) None).
    { intros ext w. constructor; simpl.
      - apply Forall2_app; [now apply queue_app|].
        constructor; [|constructor]. exists (length h1).
        split; [reflexivity|]. apply list_lookup_middle. reflexivity.
      - apply (inv_anchor _ _ _ _ Hinv1).
      - intros l [= <-]. rewrite length_app. simpl. split; [lia|].
        split; [|exact Hnf].
        intros Hin. apply elem_of_app in Hin as [Hin|Hin]; [tauto|].
        apply list_elem_of_singleton in Hin. injection Hin as ->. lia. }
    destruct (Nat.lt_ge_cases (length consumed) (Z.to_nat d)) as [Hfill|Hsteady].
    + (* the queue is still filling *)
      unfold bind.
      rewrite (loopBody_fill gammaLUT h1 st1 overlay d img Hd)
        by (simpl; try lia; exists lf; auto).
      destruct (referenceWindow_fill (Z.to_nat d) clones (Some (length h1)))
        as [Hw0 Hw1]; [lia|].
      destruct (IH (consumed ++ [img]) (clones ++ [Some (length h1)])
                  (mkLocals (frameQueue st1 ++ [Some (length h1)]) (frame st1)
                     (firstFrame st1) (written st1)) (h1 ++ [img]))
        as (st' & h' & clones' & Hrun & Hc' & Hq' & Hw').
      * exact Hvid'.
      * apply Hinv2.
      * simpl. rewrite Hqueue, Hw0, Hw1. reflexivity.
      * simpl. rewrite Hw, !pairedOutputs_fill; [reflexivity| |lia].
        rewrite length_app. simpl. lia.
      * exists st', h', clones'. rewrite <- app_assoc in Hc', Hw'.
        split; [exact Hrun|]. split; [exact Hc'|]. split; assumption.
    + (* past the fill phase *)
      assert (Hdn : (0 < Z.to_nat d <= length consumed)%nat) by lia.
      destruct (referenceWindow (Z.to_nat d) consumed) as [|front qtail] eqn:Hwin.
      { pose proof (referenceWindow_length (Z.to_nat d) consumed) as Hl.
        rewrite Hwin in Hl. simpl in Hl. lia. }
      assert (Hq1 : Forall2 (holds h1) (frameQueue st) (front :: qtail)).
      { rewrite Hqueue, <- Hwin. unfold referenceWindow. rewrite Hlen.
        now apply Forall2_drop. }
      destruct (frameQueue st) as [|mfront mtail] eqn:Hqueue';
        [inversion Hq1|].
      apply Forall2_cons_1 in Hq1 as [Hfront Htail].
      assert (Hin : front ∈ consumed).
      { unfold referenceWindow in Hwin.
        apply (subseteq_drop (length consumed - Z.to_nat d) consumed).
        rewrite Hwin. constructor. }
      destruct (processPair_ok img front) as [out Hout].
      { rewrite Forall_app, Forall_cons in Hvid. tauto. }
      { rewrite Forall_app, Forall_forall in Hvid. now apply Hvid. }
      destruct (loopBody_steady gammaLUT h1 st1 overlay d img mfront mtail
                  front out Hd) as [ext Hbody].
      { simpl in Hqlen |- *. lia. }
      { reflexivity. }
      { exists lf. auto. }
      { now apply holds_reads. }
      { exact Hout. }
      unfold bind. rewrite Hbody.
      destruct (IH (consumed ++ [img]) (clones ++ [Some (length h1)])
                  (mkLocals (mtail ++ [Some (length h1)]) (frame st1)
                     (firstFrame st1) (written st1 ++ [out]))
                  (h1 ++ img :: ext))
        as (st' & h' & clones' & Hrun & Hc' & Hq' & Hw').
      * exact Hvid'.
      * apply Hinv2.
      * simpl. symmetry.
        apply referenceWindow_steady with (front := mfront); [lia|].
        now symmetry.
      * simpl. rewrite map_app, Hw. simpl.
        rewrite (pairedOutputs_steady _ _ _ _ img _ _ Hdn Hwin), Hout.
        reflexivity.
      * exists st', h', clones'. rewrite <- app_assoc in Hc', Hw'.
        split; [exact Hrun|]. split; [exact Hc'|]. split; assumption.
Qed.

(** The loop with [frameDelay == 0], started with the anchor [first]
    behind [firstFrame]: one frame is written for every picture read by
    the loop, each compared against the anchor, and the anchor is still
    behind [firstFrame] at the end. *)
Lemma loop_anchor first rest :
  isFrame r c first = true ->
  forall st h,
    isVideo rest ->
    Inv h st [] (Some first) ->
    exists st' h',
      loop gammaLUT rest 0 overlay st h = Some (st', h') /\
      holds h' (firstFrame st') first /\
      frameQueue st' = [] /\
      map Some (written st')
      = map Some (written st)
        ++ map (fun img => processPair gammaLUT overlay img first) rest.
Proof.
  intros Hfirst. induction rest as [|img rest IH]; intros st h Hvid Hinv.
  - exists (mkLocals (frameQueue st) None (firstFrame st) (written st)), h.
    simpl. rewrite app_nil_r. split; [reflexivity|].
    split; [apply (inv_anchor _ _ _ _ Hinv)|].
    split; [|reflexivity].
    pose proof (inv_queue _ _ _ _ Hinv) as Hq. now inversion Hq.
  - destruct (read_step h st _ _ img Hinv) as (f & h1 & Hread & Hf & Hinv1).
    simpl loop. unfold bind at 1. rewrite Hread.
    set (st1 := mkLocals (frameQueue st) f (firstFrame st) (written st)) in *.
    apply Forall_cons in Hvid as [Himg Hvid].
    destruct (processPair_ok img first Himg Hfirst) as [out Hout].
    pose proof (inv_anchor _ _ _ _ Hinv1) as Hanchor. simpl in Hanchor.
    destruct (loopBody_anchor gammaLUT h1 st1 overlay img first out)
      as [ext Hbody].
    { now apply holds_reads. }
    { now apply holds_reads. }
    { exact Hout. }
    unfold bind. rewrite Hbody.
    destruct (IH (mkLocals (frameQueue st1) (frame st1) (firstFrame st1)
                    (written st1 ++ [out])) (h1 ++ ext))
      as (st' & h' & Hrun & Ha' & Hq' & Hw').
    + exact Hvid.
    + destruct Hinv1 as [Hq1 Ha1 Hf1]. constructor; simpl in *.
      * now apply queue_app.
      * now apply holds_app.
      * intros l Hl. destruct (Hf1 l Hl) as (Hlt & Hrest).
        rewrite length_app. split; [lia|exact Hrest].
    + exists st', h'. split; [exact Hrun|]. split; [exact Ha'|].
      split; [exact Hq'|]. rewrite Hw'. simpl.
      rewrite map_app, <- app_assoc, Hout. reflexivity.
Qed.

End Loop.

(* ===================================================================== *)
(** * [extractMotion]: how many frames are written, and from which pairs *)
(* ===================================================================== *)

Lemma uniform_inv r c video :
  uniform r c video = true ->
  0 < r /\ 0 < c /\ Forall (fun img => isFrame r c img = true) video.
Proof.
  unfold uniform. rewrite !andb_true_iff, !Z.ltb_lt, forallb_forall.
  intros [[Hr Hc] Hall]. repeat split; try assumption.
  apply List.Forall_forall, Hall.
Qed.

Lemma uniform_take r c video n :
  uniform r c video = true -> uniform r c (take n video) = true.
Proof.
  unfold uniform. rewrite !andb_true_iff, !forallb_forall.
  intros [Hrc Hall]. split; [assumption|].
  intros img Hin. apply Hall.
  apply list_elem_of_In. apply list_elem_of_In in Hin.
  eapply subseteq_take, Hin.
Qed.

Lemma Inv_initial h : Inv h (mkLocals [] None None []) [] None.
Proof.
  constructor; simpl; [constructor|reflexivity|discriminate].
Qed.

(** With a positive delay below [ULONG_MAX] the run on a video completes;
    every clone pushed into the queue still holds its picture at the end,
    the queue is the last [frameDelay] of the clones, and the frames
    written are the paired outputs. *)
Lemma extractMotion_delay_run gammaLUT overlay r c video d h :
  0 < d < ULONG_MAX ->
  uniform r c video = true ->
  exists st h' clones,
    extractMotion gammaLUT video d overlay h = Some (st, h') /\
    Forall2 (holds h') clones video /\
    frameQueue st = referenceWindow (Z.to_nat d) clones /\
    map Some (written st) = pairedOutputs gammaLUT overlay (Z.to_nat d) video.
Proof.
  intros Hd Hu. apply uniform_inv in Hu as (Hr & Hc & Hvid).
  unfold extractMotion. destruct (Z.eqb_spec d 0); [lia|].
  apply (loop_delay gammaLUT overlay r c Hr Hc d video Hd [] []);
    [exact Hvid|apply Inv_initial|reflexivity|].
  symmetry. apply pairedOutputs_fill. simpl. lia.
Qed.

(** The queue at the end of such a run holds the last pictures. *)
Lemma queue_holds_window h clones (video : list Image) q d :
  Forall2 (holds h) clones video ->
  q = referenceWindow d clones ->
  Forall2 (holds h) q (referenceWindow d video).
Proof.
  intros Hc ->. unfold referenceWindow.
  rewrite (Forall2_length _ _ _ Hc). now apply Forall2_drop.
Qed.

(** C2: for every delay [d > 0] and every video of [K >= d] pictures, the
    run completes and writes exactly [K - d] frames; the frame number [i]
    written is the one computed from picture [d + i] as current frame and
    picture [i], [d] steps earlier, as reference; as long as no more than
    [d] pictures have been read (the queue held fewer than [d] frames
    before each of them) nothing is written; and the last [d] pictures
    are still in the queue at the end, never used as a reference.  The
    delay is an [unsigned long] whose successor does not wrap. *)
Theorem extractMotion_delay_pairs gammaLUT overlay r c video d h :
  0 < d -> d <= Z.of_nat (length video) -> d < ULONG_MAX ->
  uniform r c video = true ->
  exists st h',
    extractMotion gammaLUT video d overlay h = Some (st, h') /\
    Z.of_nat (length (written st)) = Z.of_nat (length video) - d /\
    (forall i, (i < length (written st))%nat ->
       exists cur ref out,
         video !! (Z.to_nat d + i)%nat = Some cur /\
         video !! i = Some ref /\
         processPair gammaLUT overlay cur ref = Some out /\
         written st !! i = Some out) /\
    Forall2 (holds h') (frameQueue st)
      (drop (length video - Z.to_nat d) video) /\
    (forall n, (n <= Z.to_nat d)%nat ->
       exists st_n h_n,
         extractMotion gammaLUT (take n video) d overlay h = Some (st_n, h_n) /\
         written st_n = [] /\ length (frameQueue st_n) = n).
Proof.
  intros Hpos Hle Hmax Hu.
  destruct (extractMotion_delay_run gammaLUT overlay r c video d h)
    as (st & h' & clones & Hrun & Hcl & Hq & Hw); [lia|exact Hu|].
  assert (Hlen : length (written st) = (length video - Z.to_nat d)%nat).
  { rewrite <- (length_map Some), Hw. apply pairedOutputs_length. }
  exists st, h'. split; [exact Hrun|]. split; [lia|]. split; [|split].
  - intros i Hi.
    destruct (pairedOutputs_lookup gammaLUT overlay (Z.to_nat d) video i)
      as (cur & ref & Hcur & Href & Hout); [lia|].
    rewrite <- Hw, list_lookup_fmap in Hout.
    destruct (written st !! i) as [out|] eqn:Hwi; [|discriminate].
    injection Hout as Hout. exists cur, ref, out. auto.
  - exact (queue_holds_window _ _ _ _ _ Hcl Hq).
  - intros n Hn.
    destruct (extractMotion_delay_run gammaLUT overlay r c (take n video) d h)
      as (st_n & h_n & clones_n & Hrun_n & Hcl_n & Hq_n & Hw_n);
      [lia|now apply uniform_take|].
    exists st_n, h_n. split; [exact Hrun_n|].
    assert (Hk : length (take n video) = n) by (rewrite length_take; lia).
    split.
    + rewrite pairedOutputs_fill in Hw_n by lia.
      now apply fmap_nil_inv in Hw_n.
    + rewrite Hq_n, referenceWindow_length, (Forall2_length _ _ _ Hcl_n).
      lia.
Qed.

(** With [frameDelay == 0] the first picture is consumed as the anchor
    before the loop: a video of [K >= 1] pictures yields [K - 1] frames,
    one for each picture after the first, compared against the anchor. *)
Lemma extractMotion_anchor_run gammaLUT overlay r c first rest h :
  uniform r c (first :: rest) = true ->
  exists st h',
    extractMotion gammaLUT (first :: rest) 0 overlay h = Some (st, h') /\
    holds h' (firstFrame st) first /\
    map Some (written st)
    = map (fun img => processPair gammaLUT overlay img first) rest /\
    length (written st) = length rest.
Proof.
  intros Hu. apply uniform_inv in Hu as (Hr & Hc & Hvid).
  apply Forall_cons in Hvid as [Hfirst Hvid].
  unfold extractMotion. simpl. unfold bind. rewrite writeTo_None.
  destruct (loop_anchor gammaLUT overlay r c Hr Hc first rest Hfirst
              (mkLocals [] None (Some (length h)) []) (h ++ [first]) Hvid)
    as (st & h' & Hrun & Ha & _ & Hw).
  - constructor; simpl; [constructor| |discriminate].
    exists (length h). split; [reflexivity|].
    apply list_lookup_middle. reflexivity.
  - exists st, h'. split; [exact Hrun|]. split; [exact Ha|].
    split; [exact Hw|].
    rewrite <- (length_map Some), Hw. simpl. apply length_map.
Qed.

(** On an empty input nothing is read and nothing is written. *)
Lemma extractMotion_empty gammaLUT d overlay h :
  extractMotion gammaLUT [] d overlay h
  = Some (mkLocals [] None None [], h).
Proof.
  unfold extractMotion. destruct (d =? 0); reflexivity.
Qed.

(** A video of a single picture: the picture is consumed as the anchor by
    [inputVideo >> firstFrame], and the loop finds nothing left to read. *)
Lemma extractMotion_anchor_single_frame gammaLUT overlay f h :
  extractMotion gammaLUT [f] 0 overlay h
  = Some (mkLocals [] None (Some (length h)) [], h ++ [f]).
Proof. reflexivity. Qed.

(** C1: with [frameDelay == 0] the run on a video completes, and the number
    of frames written is the number of pictures less one (none for an
    empty video, and none for a video of a single picture): the first
    picture is consumed as the anchor before the loop, and one frame is
    written for each of the pictures after it, compared against the
    anchor. *)
Theorem extractMotion_anchor_count gammaLUT overlay r c video h :
  uniform r c video = true ->
  exists st h',
    extractMotion gammaLUT video 0 overlay h = Some (st, h') /\
    length (written st) = (length video - 1)%nat /\
    forall first,
      head video = Some first ->
      holds h' (firstFrame st) first /\
      map Some (written st)
      = map (fun img => processPair gammaLUT overlay img first) (tail video).
Proof.
  intros Hu. destruct video as [|first rest].
  - rewrite extractMotion_empty. eexists _, _. split; [reflexivity|].
    split; [reflexivity|]. discriminate.
  - destruct (extractMotion_anchor_run gammaLUT overlay r c first rest h Hu)
      as (st & h' & Hrun & Ha & Hw & Hlen).
    exists st, h'. split; [exact Hrun|]. split.
    + rewrite Hlen. simpl. lia.
    + intros first' [= <-]. split; assumption.
Qed.

(* ===================================================================== *)
(** * [compareFrames]: the pixels of the blend *)
(* ===================================================================== *)

Lemma channel_at_map f img p k :
  channel_at (map_channels f img) p k = f <$> channel_at img p k.
Proof.
  unfold channel_at, map_channels. simpl.
  rewrite list_lookup_fmap. destruct (data img !! p) as [px|]; simpl.
  - apply list_lookup_fmap.
  - reflexivity.
Qed.

Lemma channel_at_zip f a b out p k x y :
  zip_channels f a b = Some out ->
  channel_at a p k = Some x -> channel_at b p k = Some y ->
  channel_at out p k = Some (f x y).
Proof.
  unfold zip_channels. destruct (sameSizeType a b); [|discriminate].
  intros [= <-]. unfold channel_at. simpl.
  rewrite lookup_zip_with.
  destruct (data a !! p) as [pa|]; [|discriminate].
  destruct (data b !! p) as [pb|]; [|discriminate].
  simpl. intros Hx Hy. rewrite lookup_zip_with, Hx, Hy. reflexivity.
Qed.

(** The blend of a channel [x] with the complement of a channel [y] is the
    rounded value of [0.5*x + 0.5*(255 - y)]. *)
Lemma blend_not_val x y :
  uchar_val (addWeighted8u (1 # 2) (1 # 2) 0 x (not8u y))
  = cvRound ((1 # 2) * inject_Z (uchar_val x)
             + (1 # 2) * inject_Z (255 - uchar_val y))%Q.
Proof.
  rewrite blend_val, not8u_val. apply cvRound_comp.
  unfold Qeq, Qplus, Qmult, inject_Z; cbn [Qnum Qden]. lia.
Qed.

(** C3: when the two frames have the same size and type, [compareFrames]
    returns, and every channel of every pixel of its result is the rounded
    value of [0.5*current + 0.5*(255 - reference)]: the nearest integer
    (ties to even), with no offset and no saturation. *)
Theorem compareFrames_blend h src1 src2 dst cur ref :
  reads h src1 cur -> reads h src2 ref ->
  sameSizeType cur ref = true ->
  exists out,
    compareFrames src1 src2 dst h
    = Some (Some (length h), h ++ [out; bitwise_not_img ref]) /\
    sameSizeType cur out = true /\
    forall p k x y,
      channel_at cur p k = Some x -> channel_at ref p k = Some y ->
      exists v,
        channel_at out p k = Some v /\
        uchar_val v
        = cvRound ((1 # 2) * inject_Z (uchar_val x)
                   + (1 # 2) * inject_Z (255 - uchar_val y))%Q /\
        (Qabs (inject_Z (uchar_val v)
               - ((1 # 2) * inject_Z (uchar_val x)
                  + (1 # 2) * inject_Z (255 - uchar_val y)))
         <= 1 # 2)%Q.
Proof.
  intros H1 H2 Hs.
  destruct (compareFrames_img cur ref) as [out|] eqn:Hout.
  2:{ unfold compareFrames_img, addWeighted_img, zip_channels in Hout.
      change (sameSizeType cur (bitwise_not_img ref))
        with (sameSizeType cur ref) in Hout.
      rewrite Hs in Hout. discriminate. }
  exists out. split; [now apply compareFrames_run with (cur := cur)|].
  split; [eapply zip_channels_shape, Hout|].
  intros p k x y Hx Hy.
  exists (addWeighted8u (1 # 2) (1 # 2) 0 x (not8u y)).
  split; [|split].
  - eapply channel_at_zip; [exact Hout|exact Hx|].
    unfold bitwise_not_img. rewrite channel_at_map, Hy. reflexivity.
  - apply blend_not_val.
  - rewrite blend_not_val. apply cvRound_nearest.
Qed.

(** C4: comparing a frame against itself gives mid-gray everywhere: every
    channel of every pixel is 128 (the tie 127.5 goes to the even
    neighbour), which is one of the two values 127 and 128. *)
Theorem compareFrames_self_gray h src dst A :
  reads h src A ->
  exists out,
    compareFrames src src dst h
    = Some (Some (length h), h ++ [out; bitwise_not_img A]) /\
    sameSizeType A out = true /\
    forall p k,
      is_Some (channel_at A p k) ->
      exists v,
        channel_at out p k = Some v /\ uchar_val v = 128 /\
        (uchar_val v = 127 \/ uchar_val v = 128).
Proof.
  intros HA.
  destruct (compareFrames_img A A) as [out|] eqn:Hout.
  2:{ unfold compareFrames_img, addWeighted_img, zip_channels in Hout.
      change (sameSizeType A (bitwise_not_img A)) with (sameSizeType A A)
        in Hout.
      rewrite sameSizeType_refl in Hout. discriminate. }
  exists out. split; [now apply compareFrames_run with (cur := A)|].
  split; [eapply zip_channels_shape, Hout|].
  intros p k [x Hx].
  exists (addWeighted8u (1 # 2) (1 # 2) 0 x (not8u x)).
  assert (E : uchar_val (addWeighted8u (1 # 2) (1 # 2) 0 x (not8u x)) = 128).
  { rewrite blend_not_val.
    rewrite (cvRound_comp _ (255 # 2)); [reflexivity|].
    unfold Qeq, Qplus, Qmult, inject_Z; cbn [Qnum Qden]. lia. }
  split; [|split; [exact E|now right]].
  eapply channel_at_zip; [exact Hout|exact Hx|].
  unfold bitwise_not_img. rewrite channel_at_map, Hx. reflexivity.
Qed.

(* ===================================================================== *)
(** * The overlay branch *)
(* ===================================================================== *)

Lemma or8u_val a b :
  uchar_val (or8u a b) = Z.lor (uchar_val a) (uchar_val b)
  /\ uchar_val a <= uchar_val (or8u a b).
Proof.
  pose proof (lor_byte_bound _ _ (uchar_val_range a) (uchar_val_range b)).
  pose proof (uchar_val_range a).
  unfold or8u. rewrite uchar_val_of by lia. lia.
Qed.

Lemma threshBinary8u_val y :
  (uchar_val y <= 129 -> uchar_val (threshBinary8u 129 255 y) = 0) /\
  (130 <= uchar_val y -> uchar_val (threshBinary8u 129 255 y) = 255).
Proof.
  unfold threshBinary8u.
  destruct (Z.gtb_spec (uchar_val y) 129); split; intros; try lia;
    reflexivity.
Qed.

Lemma length_flat_map_const {A B} (f : A -> list B) n l :
  (forall x, length (f x) = n) ->
  length (flat_map f l) = (length l * n)%nat.
Proof.
  intros Hf. induction l as [|x l IH]; simpl; [reflexivity|].
  rewrite length_app, Hf, IH. reflexivity.
Qed.

Lemma blur3x3_data_length src :
  length (data (blur3x3_img src))
  = (Z.to_nat (rows src) * Z.to_nat (cols src))%nat.
Proof.
  unfold blur3x3_img. simpl.
  rewrite (length_flat_map_const _ (Z.to_nat (cols src))).
  - now rewrite length_seq.
  - intros x. now rewrite length_map, length_seq.
Qed.

(** On two frames of a video every stage of the overlay branch succeeds. *)
Lemma overlay_stages_ok r c f cmp :
  0 < r -> 0 < c ->
  isFrame r c f = true -> isFrame r c cmp = true ->
  exists gray mask out,
    cvtColor_BGR2GRAY_img cmp = Some gray /\
    cvtColor_GRAY2BGR_img (blur3x3_img (threshold_img gray 129 255))
    = Some mask /\
    bitwise_or_img f mask = Some out.
Proof.
  intros Hr Hc. unfold isFrame. rewrite !andb_true_iff, !Z.eqb_eq.
  intros [[Hr1 Hc1] Hn1] [[Hr2 Hc2] Hn2].
  assert (Hne : (r * c =? 0) = false) by (apply Z.eqb_neq; nia).
  destruct (cvtColor_BGR2GRAY_img cmp) as [gray|] eqn:Hgray.
  2:{ unfold cvtColor_BGR2GRAY_img, empty_img in Hgray.
      rewrite Hr2, Hc2, Hn2, Hne in Hgray. discriminate. }
  pose proof (BGR2GRAY_inv _ _ Hgray) as (_ & _ & Hgr & Hgc & Hgn & _).
  destruct (cvtColor_GRAY2BGR_img (blur3x3_img (threshold_img gray 129 255)))
    as [mask|] eqn:Hmask.
  2:{ unfold cvtColor_GRAY2BGR_img, empty_img in Hmask. simpl in Hmask.
      rewrite Hgr, Hgc, Hgn, Hr2, Hc2, Hne in Hmask. discriminate. }
  pose proof (GRAY2BGR_inv _ _ Hmask) as (_ & _ & Hmr & Hmc & Hmn & _).
  simpl in Hmr, Hmc.
  destruct (bitwise_or_img f mask) as [out|] eqn:Hout.
  2:{ unfold bitwise_or_img, zip_channels in Hout.
      rewrite (proj2 (sameSizeType_eq f mask)) in Hout; [discriminate|].
      repeat split; congruence. }
  eauto 10.
Qed.

(** The luminance of a pixel: the weighted sum in 15-bit fixed point,
    which is within 0.51 of the BT.601 luminance. *)
Lemma luminance_val b g r :
  uchar_val (luminance b g r)
  = (3735 * uchar_val b + 19235 * uchar_val g + 9798 * uchar_val r + 16384)
    / 32768 /\
  (Qabs (inject_Z (uchar_val (luminance b g r))
         - spec_luma (uchar_val b) (uchar_val g) (uchar_val r))
   <= 51 # 100)%Q.
Proof.
  pose proof (uchar_val_range b) as Hb. pose proof (uchar_val_range g) as Hg.
  pose proof (uchar_val_range r) as Hr.
  assert (E : uchar_val (luminance b g r)
              = (3735 * uchar_val b + 19235 * uchar_val g + 9798 * uchar_val r
                 + 16384) / 32768).
  { unfold luminance, BY15, GY15, RY15.
    rewrite Z.shiftr_div_pow2 by lia. change (Z.shiftl 1 14) with 16384.
    change (2 ^ 15) with 32768.
    rewrite uchar_val_of by (Z.div_mod_to_equations; lia).
    f_equal. lia. }
  split; [exact E|]. rewrite E. clear E.
  generalize dependent (uchar_val b). intros B HB.
  generalize dependent (uchar_val g). intros G HG.
  generalize dependent (uchar_val r). intros R HR.
  apply Qabs_Qle_condition. unfold spec_luma.
  unfold Qle, Qminus, Qplus, Qopp, Qmult, inject_Z; cbn [Qnum Qden].
  split; Z.div_mod_to_equations; lia.
Qed.

Lemma lookup_flat_map_rows {B} (f : nat -> list B) n :
  (forall x, length (f x) = n) ->
  forall i j s m,
    (i < m)%nat -> (j < n)%nat ->
    flat_map f (seq s m) !! (i * n + j)%nat = f (s + i)%nat !! j.
Proof.
  intros Hf. induction i as [|i IH]; intros j s m Hi Hj.
  - destruct m as [|m]; [lia|]. simpl.
    rewrite lookup_app_l by (rewrite Hf; exact Hj).
    now rewrite Nat.add_0_r.
  - destruct m as [|m]; [lia|]. simpl seq. simpl flat_map.
    rewrite lookup_app_r by (rewrite Hf; lia).
    rewrite Hf. replace (S i * n + j - n)%nat with (i * n + j)%nat by lia.
    rewrite IH by lia.
    now replace (S s + i)%nat with (s + S i)%nat by lia.
Qed.

(** The pixel in row [i] and column [j] of the blurred image. *)
Lemma blur3x3_lookup src i j :
  channels src = 1 ->
  0 <= i < rows src -> 0 <= j < cols src ->
  data (blur3x3_img src) !! Z.to_nat (i * cols src + j)
  = Some [blur3x3_at src i j 0].
Proof.
  intros Hn Hi Hj. unfold blur3x3_img. cbn [data]. rewrite Hn.
  change (seq 0 (Z.to_nat 1)) with [0%nat]. cbn [map].
  replace (Z.to_nat (i * cols src + j))
    with (Z.to_nat i * Z.to_nat (cols src) + Z.to_nat j)%nat by nia.
  rewrite (lookup_flat_map_rows _ (Z.to_nat (cols src)))
    by (try lia; intros; now rewrite length_map, length_seq).
  rewrite list_lookup_fmap, lookup_seq_lt by lia.
  cbn. now rewrite !Z2Nat.id by lia.
Qed.

Lemma chan_nth_lookup (l : list (list uchar)) n :
  uchar_val (chan (nth n l []) 0)
  = match match l !! n with Some px => px !! 0%nat | None => None end with
    | Some v => uchar_val v
    | None => 0
    end.
Proof.
  revert n. induction l as [|px l IH]; intros [|n]; try reflexivity.
  - now destruct px.
  - apply IH.
Qed.

Lemma at_spec src r c : at_ src r c 0 = spec_valueAt src r c.
Proof.
  exact (chan_nth_lookup (data src) (Z.to_nat (r * cols src + c))).
Qed.

Lemma borderInterpolate_mirror p len d :
  0 <= p < len -> -1 <= d <= 1 ->
  borderInterpolate (p + d) len = spec_mirror (p + d) len.
Proof.
  intros Hp Hd. unfold borderInterpolate, spec_mirror.
  destruct (Z.eqb_spec len 1); [reflexivity|].
  destruct (Z.ltb_spec (p + d) 0), (Z.eqb_spec (p + d) (-1)); try lia;
    destruct (Z.leb_spec len (p + d)), (Z.eqb_spec (p + d) len); lia.
Qed.

Lemma spec_valueAt_range img i j : 0 <= spec_valueAt img i j <= 255.
Proof.
  unfold spec_valueAt.
  destruct (channel_at img _ 0) as [v|]; [apply uchar_val_range|lia].
Qed.

(** The mean of nine channel values, rounded. *)
Lemma cvRound_ninth S :
  -4 <= 9 * cvRound (S # 9) - S <= 4.
Proof.
  pose proof (cvRound_nearest (S # 9)) as H.
  apply Qabs_Qle_condition in H.
  unfold Qle, Qminus, Qplus, Qopp, inject_Z in H; cbn [Qnum Qden] in H.
  lia.
Qed.

(** One pixel of the blur is the rounded mean of the 3x3 neighbourhood. *)
Lemma blur3x3_at_mean src i j :
  0 <= i < rows src -> 0 <= j < cols src ->
  uchar_val (blur3x3_at src i j 0) = cvRound (spec_boxSum3x3 src i j # 9).
Proof.
  intros Hi Hj. unfold blur3x3_at. rewrite saturate_cast_uchar_val.
  rewrite !at_spec.
  rewrite !(borderInterpolate_mirror i (rows src)) by lia.
  rewrite !(borderInterpolate_mirror j (cols src)) by lia.
  fold (spec_boxSum3x3 src i j).
  rewrite (cvRound_comp _ (spec_boxSum3x3 src i j # 9)).
  2:{ unfold Qeq, Qmult, inject_Z; cbn [Qnum Qden]. lia. }
  pose proof (cvRound_ninth (spec_boxSum3x3 src i j)) as Hm.
  assert (Hs : 0 <= spec_boxSum3x3 src i j <= 9 * 255).
  { unfold spec_boxSum3x3.
    repeat match goal with
    | |- context [spec_valueAt src ?a ?b] =>
        pose proof (spec_valueAt_range src a b);
        generalize dependent (spec_valueAt src a b); intros
    end.
    lia. }
  lia.
Qed.

(** C5: in overlay mode the comparator output is first converted to a
    single channel of luminance (the BT.601 weighted sum of the three
    channels, in 15-bit fixed point), then binarised with threshold 129
    (every luminance up to 129 becomes 0, every luminance from 130 on
    becomes 255), and the 3x3 box blur is applied to that binarised
    image: every pixel of the blurred image is the rounded mean of the
    nine binarised values around it, the image mirrored at the border.
    The blurred image, back on three channels, is the mask OR-ed onto
    the frame. *)
Theorem overlayFrame_binarise_then_blur h fr lo r c f cmp :
  0 < r -> 0 < c ->
  isFrame r c f = true -> isFrame r c cmp = true ->
  reads h fr f -> h !! lo = Some cmp ->
  exists gray mask out,
    let bin := threshold_img gray 129 255 in
    cvtColor_BGR2GRAY_img cmp = Some gray /\
    channels gray = 1 /\
    (forall p px,
       data cmp !! p = Some px ->
       data gray !! p
       = Some [luminance (chan px 0) (chan px 1) (chan px 2)]) /\
    (forall p b g r,
       data cmp !! p = Some [b; g; r] ->
       exists y,
         channel_at gray p 0 = Some y /\
         uchar_val y
         = (3735 * uchar_val b + 19235 * uchar_val g + 9798 * uchar_val r
            + 16384) / 32768 /\
         (Qabs (inject_Z (uchar_val y)
                - spec_luma (uchar_val b) (uchar_val g) (uchar_val r))
          <= 51 # 100)%Q) /\
    (forall p y,
       channel_at gray p 0 = Some y ->
       exists v,
         channel_at bin p 0 = Some v /\
         (uchar_val y <= 129 -> uchar_val v = 0) /\
         (130 <= uchar_val y -> uchar_val v = 255)) /\
    (forall i j, spec_valueAt bin i j = 0 \/ spec_valueAt bin i j = 255) /\
    (forall i j,
       0 <= i < r -> 0 <= j < c ->
       exists v,
         channel_at (blur3x3_img bin) (Z.to_nat (i * c + j)) 0 = Some v /\
         uchar_val v = cvRound (spec_boxSum3x3 bin i j # 9) /\
         -4 <= 9 * uchar_val v - spec_boxSum3x3 bin i j <= 4 /\
         forall k, (k < 3)%nat ->
           channel_at mask (Z.to_nat (i * c + j)) k = Some v) /\
    cvtColor_GRAY2BGR_img (blur3x3_img bin) = Some mask /\
    bitwise_or_img f mask = Some out /\
    overlayFrame fr (Some lo) h
    = Some (Some (S (length h)), h ++ [blur3x3_img bin; out]).
Proof.
  intros Hr Hc Hf Hcmp Hfr Hlo.
  destruct (overlay_stages_ok r c f cmp Hr Hc Hf Hcmp)
    as (gray & mask & out & Hgray & Hmask & Hout).
  exists gray, mask, out. cbv zeta.
  pose proof (BGR2GRAY_inv _ _ Hgray) as (_ & _ & Hgr & Hgc & Hg1 & Hdata).
  pose proof (GRAY2BGR_inv _ _ Hmask) as (_ & _ & _ & _ & _ & Hmd).
  unfold isFrame in Hcmp. rewrite !andb_true_iff, !Z.eqb_eq in Hcmp.
  destruct Hcmp as [[Hr2 Hc2] Hn2].
  split; [exact Hgray|]. split; [exact Hg1|].
  split; [|split; [|split; [|split; [|split]]]].
  - intros p px Hp. rewrite Hdata, list_lookup_fmap, Hp. reflexivity.
  - intros p b g r0 Hp. exists (luminance b g r0). split.
    + unfold channel_at. rewrite Hdata, list_lookup_fmap, Hp. reflexivity.
    + apply luminance_val.
  - intros p y Hy. exists (threshBinary8u 129 255 y). split.
    + unfold threshold_img. rewrite channel_at_map, Hy. reflexivity.
    + apply threshBinary8u_val.
  - intros i j. unfold spec_valueAt, threshold_img.
    rewrite channel_at_map.
    destruct (channel_at gray _ 0) as [y|]; simpl; [|now left].
    destruct (threshBinary8u_val y) as [Hlo0 Hhi0].
    destruct (Z.le_gt_cases (uchar_val y) 129); [left|right]; auto with zarith.
  - intros i j Hi Hj.
    set (bin := threshold_img gray 129 255) in *.
    assert (Hbr : rows bin = r) by (cbn; congruence).
    assert (Hbc : cols bin = c) by (cbn; congruence).
    assert (Hbn : channels bin = 1) by exact Hg1.
    assert (Hl : data (blur3x3_img bin) !! Z.to_nat (i * c + j)
                 = Some [blur3x3_at bin i j 0]).
    { rewrite <- Hbc. apply blur3x3_lookup; [exact Hbn|lia..]. }
    exists (blur3x3_at bin i j 0).
    pose proof (blur3x3_at_mean bin i j ltac:(lia) ltac:(lia)) as Hmean.
    split; [unfold channel_at; now rewrite Hl|].
    split; [exact Hmean|].
    split; [rewrite Hmean; apply cvRound_ninth|].
    intros k Hk. unfold channel_at.
    rewrite Hmd, list_lookup_fmap, Hl. simpl.
    destruct k as [|[|[|k]]]; try reflexivity. lia.
  - split; [exact Hmask|]. split; [exact Hout|].
    now apply overlayFrame_stages with (f := f) (cmp := cmp) (mask := mask).
Qed.

(** C6: in overlay mode the frame written is the bitwise OR of the
    current frame itself (not of the comparator output) with the mask, so
    no channel of the result is below the value it has in the current
    frame. *)
Theorem overlayFrame_or_brightens h fr lo r c f cmp :
  0 < r -> 0 < c ->
  isFrame r c f = true -> wellFormed f = true ->
  isFrame r c cmp = true ->
  reads h fr f -> h !! lo = Some cmp ->
  exists mask out b,
    overlayMask_img cmp = Some mask /\
    bitwise_or_img f mask = Some out /\
    overlayFrame fr (Some lo) h
    = Some (Some (S (length h)), h ++ [b; out]) /\
    sameSizeType f out = true /\
    forall p k x,
      channel_at f p k = Some x ->
      exists m v,
        channel_at mask p k = Some m /\
        channel_at out p k = Some v /\
        uchar_val v = Z.lor (uchar_val x) (uchar_val m) /\
        uchar_val x <= uchar_val v.
Proof.
  intros Hr Hc Hf Hwf Hcmp Hfr Hlo.
  destruct (overlay_stages_ok r c f cmp Hr Hc Hf Hcmp)
    as (gray & mask & out & Hgray & Hmask & Hout).
  exists mask, out, (blur3x3_img (threshold_img gray 129 255)).
  split; [|split; [exact Hout|split; [|split]]].
  - unfold overlayMask_img, binarised_img. now rewrite Hgray.
  - now apply overlayFrame_stages with (f := f) (cmp := cmp) (mask := mask).
  - eapply zip_channels_shape, Hout.
  - intros p k x Hx.
    assert (Hm : exists m, channel_at mask p k = Some m).
    { pose proof (BGR2GRAY_inv _ _ Hgray) as (_ & _ & Hgr & Hgc & _ & _).
      pose proof (GRAY2BGR_inv _ _ Hmask) as (_ & _ & _ & _ & _ & Hdata).
      unfold isFrame in Hf, Hcmp. unfold wellFormed in Hwf.
      rewrite !andb_true_iff, !Z.eqb_eq in Hf, Hcmp.
      rewrite andb_true_iff, Z.eqb_eq, forallb_forall in Hwf.
      destruct Hf as [[Hr1 Hc1] Hn1]. destruct Hcmp as [[Hr2 Hc2] Hn2].
      destruct Hwf as [Hlen Hpx].
      unfold channel_at in Hx |- *.
      destruct (data f !! p) as [px|] eqn:Hp; [|discriminate].
      assert (Hk : (k < 3)%nat).
      { apply lookup_lt_Some in Hx.
        assert (Hin : In px (data f))
          by (apply list_elem_of_In, list_elem_of_lookup; eauto).
        specialize (Hpx px Hin). apply Z.eqb_eq in Hpx. lia. }
      apply lookup_lt_Some in Hp.
      assert (Hpl : (p < length (data (blur3x3_img (threshold_img gray 129 255))))%nat).
      { rewrite blur3x3_data_length. simpl. rewrite Hgr, Hgc, Hr2, Hc2.
        rewrite <- Z2Nat.inj_mul by lia. lia. }
      destruct (lookup_lt_is_Some_2 _ _ Hpl) as [bpx Hbpx].
      rewrite Hdata, list_lookup_fmap, Hbpx. simpl.
      destruct k as [|[|[|k]]]; simpl; eauto. lia. }
    destruct Hm as [m Hm]. exists m, (or8u x m).
    split; [exact Hm|]. split.
    + eapply channel_at_zip; eassumption.
    + apply or8u_val.
Qed.

(* ===================================================================== *)
(** * [compareFrames] and the frames it reads *)
(* ===================================================================== *)

(** A call of [compareFrames] that returns has changed no buffer of the
    store it was called in. *)
Lemma compareFrames_frame h src1 src2 dst cur ref m h' :
  reads h src1 cur -> reads h src2 ref ->
  compareFrames src1 src2 dst h = Some (m, h') ->
  reads h' src1 cur /\ reads h' src2 ref /\
  forall l img, h !! l = Some img -> h' !! l = Some img.
Proof.
  intros H1 H2 Hrun.
  destruct (compareFrames_img cur ref) as [out|] eqn:Hout.
  - rewrite (compareFrames_run _ _ _ _ _ _ _ H1 H2 Hout) in Hrun.
    injection Hrun as <- <-.
    split; [now apply reads_app|]. split; [now apply reads_app|].
    intros l img Hl. now apply lookup_app_l_Some.
  - rewrite (compareFrames_raise _ _ _ _ _ _ H1 H2 Hout) in Hrun.
    discriminate.
Qed.

(** C10: [compareFrames] modifies neither of the frames it reads (nor any
    other buffer of the store).  Consequently, in every run on a video:
    with [frameDelay == 0] the anchor is still the first picture at the
    end, and every frame written was computed from it; with a positive
    delay every frame that was ever queued still holds, at the end, the
    picture it was cloned from (the queue being the last [frameDelay] of
    them), and every frame written was computed from the pictures as they
    were read. *)
Theorem compareFrames_preserves_inputs gammaLUT overlay r c video d h :
  (forall h0 src1 src2 dst cur ref m h1,
     reads h0 src1 cur -> reads h0 src2 ref ->
     compareFrames src1 src2 dst h0 = Some (m, h1) ->
     reads h1 src1 cur /\ reads h1 src2 ref /\
     forall l img, h0 !! l = Some img -> h1 !! l = Some img) /\
  (0 <= d < ULONG_MAX -> uniform r c video = true ->
   exists st h',
     extractMotion gammaLUT video d overlay h = Some (st, h') /\
     (d = 0 ->
      forall first rest, video = first :: rest ->
        holds h' (firstFrame st) first /\
        map Some (written st)
        = map (fun img => processPair gammaLUT overlay img first) rest) /\
     (0 < d ->
      exists clones,
        Forall2 (holds h') clones video /\
        frameQueue st = referenceWindow (Z.to_nat d) clones /\
        map Some (written st)
        = pairedOutputs gammaLUT overlay (Z.to_nat d) video)).
Proof.
  split; [intros; eapply compareFrames_frame; eassumption|].
  intros Hd Hu.
  destruct (Z.eq_dec d 0) as [->|Hne].
  - destruct video as [|first rest].
    + rewrite extractMotion_empty. eexists _, _. split; [reflexivity|].
      split; [discriminate|lia].
    + destruct (extractMotion_anchor_run gammaLUT overlay r c first rest h Hu)
        as (st & h' & Hrun & Ha & Hw & _).
      exists st, h'. split; [exact Hrun|]. split; [|lia].
      intros _ first' rest' [= <- <-]. split; assumption.
  - destruct (extractMotion_delay_run gammaLUT overlay r c video d h)
      as (st & h' & clones & Hrun & Hcl & Hq & Hw); [lia|exact Hu|].
    exists st, h'. split; [exact Hrun|]. split; [lia|].
    intros _. exists clones. repeat split; assumption.
Qed.

(* ===================================================================== *)
(** * [main]: the checks before the pipeline *)
(* ===================================================================== *)

Lemma Qgtb_true a b : Qgtb a b = true <-> (b < a)%Q.
Proof.
  unfold Qgtb. rewrite negb_true_iff. split.
  - intros H. apply Qnot_le_lt. intros Hle.
    apply Qle_bool_iff in Hle. congruence.
  - intros H. destruct (Qle_bool a b) eqn:E; [|reflexivity].
    apply Qle_bool_iff in E. exfalso. eapply Qlt_not_le; eassumption.
Qed.

(** C7: when the input opens and the offset in frames (given with [-f],
    or computed from [-s] as the [double] product of the seconds and the
    frame rate, truncated) exceeds the frame count of the input, the run
    ends with [EXIT_FAILURE] before the output video is created: the only
    effect is the message on [std::cerr], which carries the frame count
    of the video (for [-f]) or its length in seconds, the [double]
    quotient of the frame count and the frame rate, truncated (for
    [-s]). *)
Theorem main_invalid_offset gammaLUT indeterminate args env v :
  openVideo env (inputPath args) = Some v ->
  (framesOption args = true ->
   (frameCount v < inject_Z (ulong (framesToSkip args)))%Q ->
   main gammaLUT indeterminate args env
   = mkOutcome
       (cat ["Error: Input video only has "%string;
             show_int (truncQ (frameCount v));
             " frame(s). Cannot offset by "%string;
             show_int (ulong (framesToSkip args));
             " frame(s)."%string; endl])
       [] [] (Exited EXIT_FAILURE)) /\
  (framesOption args = false -> secondsOption args = true ->
   (frameCount v
    < inject_Z
        (ulong (truncQ (double_mul (inject_Z (secondsToSkip args)) (fps v)))))%Q ->
   main gammaLUT indeterminate args env
   = mkOutcome
       (cat ["Error: Input video is only "%string;
             show_int (truncQ (double_div (frameCount v) (fps v)));
             " second(s) long. Cannot offset by "%string;
             show_int (secondsToSkip args);
             " second(s)."%string; endl])
       [] [] (Exited EXIT_FAILURE)).
Proof.
  intros Hopen. unfold main. rewrite Hopen. split.
  - intros Hf Hgt. rewrite Hf. apply Qgtb_true in Hgt. rewrite Hgt.
    reflexivity.
  - intros Hf Hs Hgt. rewrite Hf, Hs. apply Qgtb_true in Hgt.
    simpl andb. cbv iota. rewrite Hgt. reflexivity.
Qed.

(** C8: when the input cannot be opened the run ends with [EXIT_FAILURE]
    and a message on [std::cerr], but the path in the message is
    [args.outputPath], not the input path that failed to open. *)
Theorem main_source_unavailable gammaLUT indeterminate args env :
  openVideo env (inputPath args) = None ->
  main gammaLUT indeterminate args env
  = mkOutcome
      (cat ["Error: Could not open file "%string; outputPath args; endl])
      [] [] (Exited EXIT_FAILURE).
Proof.
  intros Hopen. unfold main. now rewrite Hopen.
Qed.

(** X10: When the input opens and the requested delay does not exceed
    the frame count, but the output cannot be created, the message names
    [args.outputPath], the run ends with [EXIT_FAILURE], and nothing is
    created or written. *)
Lemma main_sink_unavailable gammaLUT indeterminate args env v :
  openVideo env (inputPath args) = Some v ->
  xorb (framesOption args) (secondsOption args) = true ->
  (inject_Z (requestedDelay args v) <= frameCount v)%Q ->
  canCreate env (outputPath args) (fps v) (truncQ (frameWidth v))
    (truncQ (frameHeight v)) = false ->
  main gammaLUT indeterminate args env
  = mkOutcome
      (cat ["Error: Could not create the output video file "%string;
            outputPath args; endl])
      [] [] (Exited EXIT_FAILURE).
Proof.
  intros Hopen Hx Hle Hcreate. unfold main, requestedDelay in *.
  rewrite Hopen.
  apply Qle_bool_iff in Hle. unfold Qgtb.
  destruct (framesOption args), (secondsOption args); try discriminate;
    simpl; rewrite Hle; simpl; rewrite Hcreate; reflexivity.
Qed.

(* ===================================================================== *)
(** * The theorems at work on the sample video *)
(* ===================================================================== *)

Lemma extractMotion_delay_pairs_witness :
  0 < 1 /\ 1 <= Z.of_nat (length sampleVideo) /\ 1 < ULONG_MAX /\
  uniform 2 2 sampleVideo = true /\
  exists st h',
    extractMotion identityLUT sampleVideo 1 false [] = Some (st, h') /\
    Z.of_nat (length (written st)) = Z.of_nat (length sampleVideo) - 1.
Proof.
  assert (H0 : 0 < 1) by lia.
  assert (H1 : 1 <= Z.of_nat (length sampleVideo)) by (simpl; lia).
  assert (H2 : 1 < ULONG_MAX) by reflexivity.
  assert (H3 : uniform 2 2 sampleVideo = true) by reflexivity.
  repeat (split; [assumption|]).
  destruct (extractMotion_delay_pairs identityLUT false 2 2 sampleVideo 1 []
              H0 H1 H2 H3) as (st & h' & Hrun & Hlen & _).
  exists st, h'. split; assumption.
Defined.

Lemma compareFrames_blend_witness :
  reads [picture1; picture0] (Some 0%nat) picture1 /\
  reads [picture1; picture0] (Some 1%nat) picture0 /\
  sameSizeType picture1 picture0 = true /\
  exists out,
    compareFrames (Some 0%nat) (Some 1%nat) None [picture1; picture0]
    = Some (Some 2%nat,
            [picture1; picture0] ++ [out; bitwise_not_img picture0]).
Proof.
  assert (H1 : reads [picture1; picture0] (Some 0%nat) picture1)
    by reflexivity.
  assert (H2 : reads [picture1; picture0] (Some 1%nat) picture0)
    by reflexivity.
  assert (H3 : sameSizeType picture1 picture0 = true) by reflexivity.
  repeat (split; [assumption|]).
  destruct (compareFrames_blend [picture1; picture0] (Some 0%nat)
              (Some 1%nat) None picture1 picture0 H1 H2 H3)
    as (out & Hrun & _).
  exists out. exact Hrun.
Defined.

Lemma compareFrames_self_gray_witness :
  reads [picture0] (Some 0%nat) picture0 /\
  exists out,
    compareFrames (Some 0%nat) (Some 0%nat) None [picture0]
    = Some (Some 1%nat, [picture0] ++ [out; bitwise_not_img picture0]) /\
    exists v, channel_at out 0 0 = Some v /\ uchar_val v = 128.
Proof.
  assert (H1 : reads [picture0] (Some 0%nat) picture0) by reflexivity.
  split; [assumption|].
  destruct (compareFrames_self_gray [picture0] (Some 0%nat) None picture0 H1)
    as (out & Hrun & _ & Hpx).
  exists out. split; [exact Hrun|].
  destruct (Hpx 0%nat 0%nat) as (v & Hv & Hval & _).
  - eexists. reflexivity.
  - exists v. split; assumption.
Defined.

Lemma overlayFrame_binarise_then_blur_witness :
  0 < 2 /\ isFrame 2 2 picture1 = true /\ isFrame 2 2 picture2 = true /\
  reads [picture1; picture2] (Some 0%nat) picture1 /\
  [picture1; picture2] !! 1%nat = Some picture2 /\
  exists b out,
    overlayFrame (Some 0%nat) (Some 1%nat) [picture1; picture2]
    = Some (Some 3%nat, [picture1; picture2] ++ [b; out]).
Proof.
  assert (H0 : 0 < 2) by lia.
  assert (H1 : isFrame 2 2 picture1 = true) by reflexivity.
  assert (H2 : isFrame 2 2 picture2 = true) by reflexivity.
  assert (H3 : reads [picture1; picture2] (Some 0%nat) picture1)
    by reflexivity.
  assert (H4 : [picture1; picture2] !! 1%nat = Some picture2) by reflexivity.
  repeat (split; [assumption|]).
  destruct (overlayFrame_binarise_then_blur [picture1; picture2] (Some 0%nat)
              1%nat 2 2 picture1 picture2 H0 H0 H1 H2 H3 H4)
    as (gray & mask & out & _ & _ & _ & _ & _ & _ & _ & _ & _ & Hrun).
  eexists _, out. exact Hrun.
Defined.

Lemma overlayFrame_or_brightens_witness :
  0 < 2 /\ isFrame 2 2 picture1 = true /\ wellFormed picture1 = true /\
  isFrame 2 2 picture2 = true /\
  reads [picture1; picture2] (Some 0%nat) picture1 /\
  [picture1; picture2] !! 1%nat = Some picture2 /\
  exists out v,
    channel_at out 0 0 = Some v /\ 11 <= uchar_val v.
Proof.
  assert (H0 : 0 < 2) by lia.
  assert (H1 : isFrame 2 2 picture1 = true) by reflexivity.
  assert (Hw : wellFormed picture1 = true) by reflexivity.
  assert (H2 : isFrame 2 2 picture2 = true) by reflexivity.
  assert (H3 : reads [picture1; picture2] (Some 0%nat) picture1)
    by reflexivity.
  assert (H4 : [picture1; picture2] !! 1%nat = Some picture2) by reflexivity.
  repeat (split; [assumption|]).
  destruct (overlayFrame_or_brightens [picture1; picture2] (Some 0%nat)
              1%nat 2 2 picture1 picture2 H0 H0 H1 Hw H2 H3 H4)
    as (mask & out & b & _ & _ & _ & _ & Hpx).
  destruct (Hpx 0%nat 0%nat (uchar_of 11) eq_refl) as (m & v & _ & Hv & _ & Hge).
  exists out, v. split; [exact Hv|exact Hge].
Defined.

Lemma main_invalid_offset_witness :
  (frameCount sampleFile < inject_Z (ulong 4))%Q /\
  (frameCount (clip rateFilm 72000)
   < inject_Z (ulong (truncQ (double_mul (inject_Z 3004) rateFilm))))%Q /\
  (frameCount (clip rate2997 2996)
   < inject_Z (ulong (truncQ (double_mul (inject_Z 100) rate2997))))%Q /\
  status (main identityLUT 0
            (mkArguments "in.mp4" "out.mp4" 4 0 true false false) sampleEnv)
  = Exited EXIT_FAILURE /\
  main identityLUT 0
    (mkArguments "in.mp4" "out.mp4" 0 3004 false true false)
    (envWith (clip rateFilm 72000))
  = mkOutcome
      ("Error: Input video is only 3003 second(s) long. Cannot offset by 3004 second(s)."
       ++ endl)%string
      [] [] (Exited EXIT_FAILURE) /\
  main identityLUT 0
    (mkArguments "in.mp4" "out.mp4" 0 100 false true false)
    (envWith (clip rate2997 2996))
  = mkOutcome
      ("Error: Input video is only 99 second(s) long. Cannot offset by 100 second(s)."
       ++ endl)%string
      [] [] (Exited EXIT_FAILURE).
Proof.
  assert (H1 : (frameCount sampleFile < inject_Z (ulong 4))%Q) by reflexivity.
  assert (H2 : (frameCount (clip rateFilm 72000)
                < inject_Z
                    (ulong (truncQ (double_mul (inject_Z 3004) rateFilm))))%Q)
    by (vm_compute; reflexivity).
  assert (H3 : (frameCount (clip rate2997 2996)
                < inject_Z
                    (ulong (truncQ (double_mul (inject_Z 100) rate2997))))%Q)
    by (vm_compute; reflexivity).
  repeat (split; [assumption|]).
  split; [|split].
  - rewrite (proj1 (main_invalid_offset identityLUT 0
               (mkArguments "in.mp4" "out.mp4" 4 0 true false false)
               sampleEnv sampleFile eq_refl) eq_refl H1).
    reflexivity.
  - rewrite (proj2 (main_invalid_offset identityLUT 0
               (mkArguments "in.mp4" "out.mp4" 0 3004 false true false)
               (envWith (clip rateFilm 72000)) (clip rateFilm 72000) eq_refl)
               eq_refl eq_refl H2).
    vm_compute. reflexivity.
  - rewrite (proj2 (main_invalid_offset identityLUT 0
               (mkArguments "in.mp4" "out.mp4" 0 100 false true false)
               (envWith (clip rate2997 2996)) (clip rate2997 2996) eq_refl)
               eq_refl eq_refl H3).
    vm_compute. reflexivity.
Defined.

Lemma compareFrames_preserves_inputs_witness :
  0 <= 2 < ULONG_MAX /\ uniform 2 2 sampleVideo = true /\
  exists st h' clones,
    extractMotion identityLUT sampleVideo 2 true [] = Some (st, h') /\
    Forall2 (holds h') clones sampleVideo /\
    frameQueue st = referenceWindow 2 clones.
Proof.
  assert (H0 : 0 <= 2 < ULONG_MAX) by (split; [lia|reflexivity]).
  assert (H1 : uniform 2 2 sampleVideo = true) by reflexivity.
  repeat (split; [assumption|]).
  destruct (proj2 (compareFrames_preserves_inputs identityLUT true 2 2
                     sampleVideo 2 []) H0 H1)
    as (st & h' & Hrun & _ & Hq).
  destruct Hq as (clones & Hcl & Hq & _); [lia|].
  exists st, h', clones. repeat split; assumption.
Defined.

Lemma main_source_unavailable_witness :
  openVideo sampleEnv "missing.mp4" = None /\
  main identityLUT 0
    (mkArguments "missing.mp4" "out.mp4" 1 0 true false false) sampleEnv
  = mkOutcome ("Error: Could not open file out.mp4" ++ endl)%string
      [] [] (Exited EXIT_FAILURE).
Proof.
  assert (H0 : openVideo sampleEnv "missing.mp4" = None) by reflexivity.
  split; [assumption|].
  exact (main_source_unavailable identityLUT 0
           (mkArguments "missing.mp4" "out.mp4" 1 0 true false false)
           sampleEnv H0).
Defined.

Lemma extractMotion_anchor_count_witness :
  uniform 2 2 [picture0] = true /\
  exists st h',
    extractMotion identityLUT [picture0] 0 false [] = Some (st, h') /\
    length (written st) = 0%nat.
Proof.
  assert (H0 : uniform 2 2 [picture0] = true) by reflexivity.
  split; [assumption|].
  destruct (extractMotion_anchor_count identityLUT false 2 2 [picture0] [] H0)
    as (st & h' & Hrun & Hlen & _).
  exists st, h'. split; assumption.
Defined.

(** With [frameDelay == 0] the sample video of three pictures yields two
    frames. *)
Example extractMotion_anchor_sample :
  exists st h',
    extractMotion identityLUT sampleVideo 0 false [] = Some (st, h') /\
    length (written st) = 2%nat.
Proof. eexists _, _. split; reflexivity. Qed.

(* ===================================================================== *)
(** * [parseArgs]: what is accepted and what is not *)
(* ===================================================================== *)

Lemma digits_nonneg s : forall acc seen v,
  0 <= acc -> digits s acc seen = Some v -> 0 <= v.
Proof.
  induction s as [|ch s IH]; intros acc seen v Hacc; simpl.
  - destruct seen; [intros [= <-]; assumption|discriminate].
  - unfold digit_of.
    destruct ((48 <=? Z.of_N (N_of_ascii ch)) && (Z.of_N (N_of_ascii ch) <=? 57))
      eqn:E.
    + apply IH. apply andb_true_iff in E as [E1 E2].
      apply Z.leb_le in E1. lia.
    + destruct seen; [intros [= <-]; assumption|discriminate].
Qed.

Lemma stoi_range str n : stoi str = Some n -> INT_MIN <= n <= INT_MAX.
Proof.
  unfold stoi. destruct (digits _ 0 false) as [v|]; [|discriminate].
  match goal with
  | |- context [if ?b then Some ?x else None] => destruct b eqn:E
  end; [|discriminate].
  intros [= <-]. apply andb_true_iff in E as [E1 E2].
  apply Z.leb_le in E1, E2. lia.
Qed.

Lemma isOption_eq c g : isOption c g = Ascii.eqb (opt g) c.
Proof. reflexivity. Qed.

Lemma passes_eq g :
  passes g
  = negb (Ascii.eqb (opt g) "h") && negb (Ascii.eqb (opt g) "?")
    && (if Ascii.eqb (opt g) "f" || Ascii.eqb (opt g) "s"
        then match stoi (optarg g) with Some _ => true | None => false end
        else true).
Proof. reflexivity. Qed.

(** What the loop leaves in the struct when it runs to its end: the
    paths untouched, each flag set if its option occurred, each offset
    taken from the last occurrence of its option. *)
Lemma parseOptions_Returned programName results : forall args args',
  parseOptions programName results args = Returned args' ->
  forallb passes results = true /\
  inputPath args' = inputPath args /\ outputPath args' = outputPath args /\
  framesOption args' = framesOption args || existsb (isOption "f") results /\
  secondsOption args' = secondsOption args || existsb (isOption "s") results /\
  overlay args' = overlay args || existsb (isOption "o") results /\
  Some (framesToSkip args')
  = match lastOptarg "f" results with
    | Some a => stoi a
    | None => Some (framesToSkip args)
    end /\
  Some (secondsToSkip args')
  = match lastOptarg "s" results with
    | Some a => stoi a
    | None => Some (secondsToSkip args)
    end /\
  (intFields args -> intFields args').
Proof.
  induction results as [|g rest IH]; intros args args';
    cbn [parseOptions forallb existsb lastOptarg].
  - intros [= <-]. rewrite !orb_false_r. repeat apply conj; auto.
  - rewrite !isOption_eq, passes_eq.
    destruct (Ascii.eqb_spec (opt g) "h") as [Eh|Nh]; [discriminate|].
    destruct (Ascii.eqb_spec (opt g) "f") as [Ef|Nf].
    { rewrite Ef. cbn [Ascii.eqb Bool.eqb negb andb orb].
      destruct (stoi (optarg g)) as [n|] eqn:En; [|discriminate].
      intros Hr.
      apply IH in Hr as (Hp & Hi & Ho & Hf & Hs & Hov & Hfv & Hsv & Hint).
      cbn [inputPath outputPath framesToSkip secondsToSkip framesOption
             secondsOption overlay] in *.
      rewrite Hp, Hi, Ho, Hf, Hs, Hov, Hfv, Hsv, !orb_true_r.
      repeat apply conj; auto.
      - destruct (lastOptarg "f" rest); congruence.
      - destruct (lastOptarg "s" rest); reflexivity.
      - intros [H1 H2]. apply Hint. split; [|assumption].
        cbn. eapply stoi_range, En. }
    destruct (Ascii.eqb_spec (opt g) "s") as [Es|Ns].
    { rewrite Es. cbn [Ascii.eqb Bool.eqb negb andb orb].
      destruct (stoi (optarg g)) as [n|] eqn:En; [|discriminate].
      intros Hr.
      apply IH in Hr as (Hp & Hi & Ho & Hf & Hs & Hov & Hfv & Hsv & Hint).
      cbn [inputPath outputPath framesToSkip secondsToSkip framesOption
             secondsOption overlay] in *.
      rewrite Hp, Hi, Ho, Hf, Hs, Hov, Hfv, Hsv, !orb_true_r.
      repeat apply conj; auto.
      - destruct (lastOptarg "f" rest); reflexivity.
      - destruct (lastOptarg "s" rest); congruence.
      - intros [H1 H2]. apply Hint. split; [assumption|].
        cbn. eapply stoi_range, En. }
    destruct (Ascii.eqb_spec (opt g) "o") as [Eo|No].
    { rewrite Eo. cbn [Ascii.eqb Bool.eqb negb andb orb].
      intros Hr.
      apply IH in Hr as (Hp & Hi & Ho & Hf & Hs & Hov & Hfv & Hsv & Hint).
      cbn [inputPath outputPath framesToSkip secondsToSkip framesOption
             secondsOption overlay] in *.
      rewrite Hp, Hi, Ho, Hf, Hs, Hov, Hfv, Hsv, !orb_true_r.
      repeat apply conj; auto.
      - destruct (lastOptarg "f" rest); reflexivity.
      - destruct (lastOptarg "s" rest); reflexivity. }
    destruct (Ascii.eqb_spec (opt g) "?") as [Eq|Nq]; [discriminate|].
    intros Hr.
    apply IH in Hr as (Hp & Hi & Ho & Hf & Hs & Hov & Hfv & Hsv & Hint).
    cbn [negb andb orb].
    rewrite Hp, Hi, Ho, Hf, Hs, Hov, Hfv, Hsv. repeat apply conj; auto.
    + destruct (lastOptarg "f" rest); reflexivity.
    + destruct (lastOptarg "s" rest); reflexivity.
Qed.

Lemma parseOptions_app programName pre rest : forall args,
  forallb passes pre = true ->
  exists args',
    parseOptions programName (pre ++ rest) args
    = parseOptions programName rest args'.
Proof.
  induction pre as [|g pre IH]; intros args; cbn [app forallb parseOptions].
  - eauto.
  - rewrite passes_eq. intros Hp.
    apply andb_true_iff in Hp as [Hg Hpre].
    apply andb_true_iff in Hg as [Hg Hn].
    apply andb_true_iff in Hg as [Hh Hq].
    apply negb_true_iff in Hh, Hq. rewrite Hh, Hq.
    destruct (Ascii.eqb (opt g) "f"); cbn [orb] in Hn.
    { destruct (stoi (optarg g)); [now apply IH|discriminate]. }
    destruct (Ascii.eqb (opt g) "s"); cbn [orb] in Hn.
    { destruct (stoi (optarg g)); [now apply IH|discriminate]. }
    destruct (Ascii.eqb (opt g) "o"); now apply IH.
Qed.

Lemma parseOptions_passes programName results : forall args,
  forallb passes results = true ->
  exists args', parseOptions programName results args = Returned args'.
Proof.
  intros args Hp.
  destruct (parseOptions_app programName results [] args Hp) as [args' E].
  rewrite app_nil_r in E. eauto.
Qed.

Lemma lastOptarg_None c results :
  existsb (isOption c) results = false -> lastOptarg c results = None.
Proof.
  induction results as [|g rest IH]; cbn [existsb lastOptarg];
    [reflexivity|].
  intros H. apply orb_false_iff in H as [Hg Hrest].
  now rewrite (IH Hrest), Hg.
Qed.

Lemma lastOptarg_Some c results a :
  lastOptarg c results = Some a -> existsb (isOption c) results = true.
Proof.
  revert a. induction results as [|g rest IH]; intros a;
    cbn [existsb lastOptarg]; [discriminate|].
  destruct (lastOptarg c rest) as [b|].
  - intros _. rewrite (IH b) by reflexivity. apply orb_true_r.
  - destruct (isOption c g); [reflexivity|discriminate].
Qed.

(** The struct the loop hands to the checks when only [-f] offsets (and
    possibly [-o]) were given. *)
Lemma parseOptions_frames programName results a n :
  forallb passes results = true ->
  existsb (isOption "s") results = false ->
  lastOptarg "f" results = Some a -> stoi a = Some n ->
  parseOptions programName results defaultArguments
  = Returned (mkArguments EmptyString EmptyString n 0 true false
                (existsb (isOption "o") results)).
Proof.
  intros Hp Hs Hf Hn.
  destruct (parseOptions_passes programName results defaultArguments Hp)
    as [args E].
  rewrite E. f_equal.
  apply parseOptions_Returned in E
    as (_ & Hi & Ho & Hfo & Hso & Hov & Hfv & Hsv & _).
  rewrite Hf, Hn in Hfv. rewrite (lastOptarg_None _ _ Hs) in Hsv.
  rewrite (lastOptarg_Some _ _ _ Hf) in Hfo. rewrite Hs in Hso.
  destruct args; cbn in *. congruence.
Qed.

(** The same for [-s]. *)
Lemma parseOptions_seconds programName results a n :
  forallb passes results = true ->
  existsb (isOption "f") results = false ->
  lastOptarg "s" results = Some a -> stoi a = Some n ->
  parseOptions programName results defaultArguments
  = Returned (mkArguments EmptyString EmptyString 0 n false true
                (existsb (isOption "o") results)).
Proof.
  intros Hp Hf Hs Hn.
  destruct (parseOptions_passes programName results defaultArguments Hp)
    as [args E].
  rewrite E. f_equal.
  apply parseOptions_Returned in E
    as (_ & Hi & Ho & Hfo & Hso & Hov & Hfv & Hsv & _).
  rewrite Hs, Hn in Hsv. rewrite (lastOptarg_None _ _ Hf) in Hfv.
  rewrite (lastOptarg_Some _ _ _ Hs) in Hso. rewrite Hf in Hfo.
  destruct args; cbn in *. congruence.
Qed.

Lemma parseArgs_postcondition_xor programName results operands args :
  parseArgs programName results operands = Returned args ->
  xorb (framesOption args) (secondsOption args) = true.
Proof.
  unfold parseArgs.
  destruct (parseOptions programName results defaultArguments)
    as [a| |]; try discriminate.
  destruct (framesOption a), (secondsOption a); cbn [andb negb];
    try discriminate;
    destruct (framesToSkip a <? 0); try discriminate;
    destruct (secondsToSkip a <? 0); try discriminate;
    destruct operands as [|i [|o [|x l]]]; try discriminate;
    intros [= <-]; reflexivity.
Qed.

(** X1: A struct returned by [parseArgs] carries exactly one of the two
    offsets, the offsets are [int]s that are not negative, and the two
    paths are the two operands, in their order. *)
Theorem parseArgs_postcondition programName results operands args :
  parseArgs programName results operands = Returned args ->
  xorb (framesOption args) (secondsOption args) = true /\
  0 <= framesToSkip args <= INT_MAX /\
  0 <= secondsToSkip args <= INT_MAX /\
  operands = [inputPath args; outputPath args].
Proof.
  unfold parseArgs.
  destruct (parseOptions programName results defaultArguments)
    as [a| |] eqn:E; try discriminate.
  apply parseOptions_Returned in E as (_ & _ & _ & _ & _ & _ & _ & _ & Hint).
  destruct Hint as [[_ Hf] [_ Hs]].
  { unfold intFields, INT_MIN, INT_MAX. cbn. lia. }
  destruct (framesOption a), (secondsOption a); cbn [andb negb];
    try discriminate;
    destruct (Z.ltb_spec (framesToSkip a) 0); try discriminate;
    destruct (Z.ltb_spec (secondsToSkip a) 0); try discriminate;
    destruct operands as [|i [|o [|x l]]]; try discriminate;
    intros [= <-]; cbn; repeat split; auto.
Qed.

(** X2: [-h] ends the run at once, with the help text and [EXIT_SUCCESS],
    whatever comes after it on the command line and whatever the options
    before it would have led to. *)
Theorem parseArgs_help programName pre g post operands :
  forallb passes pre = true ->
  opt g = "h"%char ->
  parseArgs programName (pre ++ g :: post) operands
  = Exits (printHelp programName) EmptyString EXIT_SUCCESS.
Proof.
  intros Hp Hg. unfold parseArgs.
  destruct (parseOptions_app programName pre (g :: post) defaultArguments Hp)
    as [args E].
  rewrite E. cbn [parseOptions]. rewrite Hg. reflexivity.
Qed.

(** X3: An option [getopt_long] rejects ends the run with [EXIT_FAILURE], the
    option character on [std::cerr] and the usage line on [std::cout]. *)
Theorem parseArgs_unknown_option programName pre g post operands :
  forallb passes pre = true ->
  opt g = "?"%char ->
  parseArgs programName (pre ++ g :: post) operands
  = Exits (printUsage programName)
      (cat ["Unknown option: "%string; String (optopt g) EmptyString; endl])
      EXIT_FAILURE.
Proof.
  intros Hp Hg. unfold parseArgs.
  destruct (parseOptions_app programName pre (g :: post) defaultArguments Hp)
    as [args E].
  rewrite E. cbn [parseOptions]. rewrite Hg. reflexivity.
Qed.

(** X4: An offset that [std::stoi] cannot convert (no digit, or a value
    outside [int]) is not reported: the exception leaves [parseArgs]
    uncaught, before any of its checks. *)
Theorem parseArgs_offset_not_converted programName pre g post operands :
  forallb passes pre = true ->
  opt g = "f"%char \/ opt g = "s"%char ->
  stoi (optarg g) = None ->
  parseArgs programName (pre ++ g :: post) operands = Uncaught.
Proof.
  intros Hp Hg Hn. unfold parseArgs.
  destruct (parseOptions_app programName pre (g :: post) defaultArguments Hp)
    as [args E].
  rewrite E. cbn [parseOptions].
  destruct Hg as [Hg|Hg]; rewrite Hg; cbn; now rewrite Hn.
Qed.

(** X5: When both [-f] and [-s] occur the run is refused as such, whatever
    their values and whatever the operands. *)
Theorem parseArgs_mutually_exclusive programName results operands :
  forallb passes results = true ->
  existsb (isOption "f") results = true ->
  existsb (isOption "s") results = true ->
  parseArgs programName results operands
  = Exits (printUsage programName)
      (cat ["Error: Options -f and -s are mutually exclusive."%string; endl])
      EXIT_FAILURE.
Proof.
  intros Hp Hf Hs. unfold parseArgs.
  destruct (parseOptions_passes programName results defaultArguments Hp)
    as [args E].
  rewrite E.
  apply parseOptions_Returned in E as (_ & _ & _ & Hfo & Hso & _).
  rewrite Hfo, Hso, Hf, Hs. reflexivity.
Qed.

(** X6: When neither [-f] nor [-s] occurs the run is refused. *)
Theorem parseArgs_offset_required programName results operands :
  forallb passes results = true ->
  existsb (isOption "f") results = false ->
  existsb (isOption "s") results = false ->
  parseArgs programName results operands
  = Exits (printUsage programName)
      (cat ["Error: You must provide either a seconds or frames offset with -s or -f."%string;
            endl])
      EXIT_FAILURE.
Proof.
  intros Hp Hf Hs. unfold parseArgs.
  destruct (parseOptions_passes programName results defaultArguments Hp)
    as [args E].
  rewrite E.
  apply parseOptions_Returned in E as (_ & _ & _ & Hfo & Hso & _).
  rewrite Hfo, Hso, Hf, Hs. reflexivity.
Qed.

(** X7: A negative offset is refused, before the operands are looked at; the
    offset that counts is the one of the last occurrence of the option. *)
Theorem parseArgs_negative_offset programName results operands a n :
  forallb passes results = true ->
  stoi a = Some n -> n < 0 ->
  (existsb (isOption "s") results = false ->
   lastOptarg "f" results = Some a ->
   parseArgs programName results operands
   = Exits EmptyString
       (cat ["Frames must be a positive number."%string; endl])
       EXIT_FAILURE) /\
  (existsb (isOption "f") results = false ->
   lastOptarg "s" results = Some a ->
   parseArgs programName results operands
   = Exits EmptyString
       (cat ["Seconds must be a positive number."%string; endl])
       EXIT_FAILURE).
Proof.
  intros Hp Hn Hneg. split; intros Hnone Hlast; unfold parseArgs.
  - rewrite (parseOptions_frames _ _ _ _ Hp Hnone Hlast Hn). cbn.
    destruct (Z.ltb_spec n 0); [reflexivity|lia].
  - rewrite (parseOptions_seconds _ _ _ _ Hp Hnone Hlast Hn). cbn.
    destruct (Z.ltb_spec n 0); [reflexivity|lia].
Qed.

(** X8: An offset that is not negative, zero included, is accepted with two
    operands: the struct returned has the offset of the last occurrence of
    the option, the overlay flag if [-o] occurred, and the operands as the
    input and the output path. *)
Theorem parseArgs_accepts programName results input output a n :
  forallb passes results = true ->
  stoi a = Some n -> 0 <= n ->
  (existsb (isOption "s") results = false ->
   lastOptarg "f" results = Some a ->
   parseArgs programName results [input; output]
   = Returned (mkArguments input output n 0 true false
                 (existsb (isOption "o") results))) /\
  (existsb (isOption "f") results = false ->
   lastOptarg "s" results = Some a ->
   parseArgs programName results [input; output]
   = Returned (mkArguments input output 0 n false true
                 (existsb (isOption "o") results))).
Proof.
  intros Hp Hn Hpos. split; intros Hnone Hlast; unfold parseArgs.
  - rewrite (parseOptions_frames _ _ _ _ Hp Hnone Hlast Hn). cbn.
    destruct (Z.ltb_spec n 0); [lia|reflexivity].
  - rewrite (parseOptions_seconds _ _ _ _ Hp Hnone Hlast Hn). cbn.
    destruct (Z.ltb_spec n 0); [lia|reflexivity].
Qed.

(** X9: With a valid offset, any number of operands other than two is
    refused. *)
Theorem parseArgs_operands programName results operands a n :
  forallb passes results = true ->
  stoi a = Some n -> 0 <= n ->
  length operands <> 2%nat ->
  (existsb (isOption "s") results = false /\ lastOptarg "f" results = Some a)
  \/ (existsb (isOption "f") results = false
      /\ lastOptarg "s" results = Some a) ->
  parseArgs programName results operands
  = Exits (printUsage programName)
      (cat ["Error: Expected input and output file paths."%string; endl])
      EXIT_FAILURE.
Proof.
  intros Hp Hn Hpos Hlen [[Hnone Hlast]|[Hnone Hlast]]; unfold parseArgs.
  - rewrite (parseOptions_frames _ _ _ _ Hp Hnone Hlast Hn). cbn.
    destruct (Z.ltb_spec n 0); [lia|].
    destruct operands as [|i [|o [|x l]]]; try reflexivity.
    now contradiction Hlen.
  - rewrite (parseOptions_seconds _ _ _ _ Hp Hnone Hlast Hn). cbn.
    destruct (Z.ltb_spec n 0); [lia|].
    destruct operands as [|i [|o [|x l]]]; try reflexivity.
    now contradiction Hlen.
Qed.

(* ===================================================================== *)
(** * [main]: the runs that reach the pipeline *)
(* ===================================================================== *)

Lemma Qgtb_false a b : (a <= b)%Q -> Qgtb a b = false.
Proof.
  intros H. unfold Qgtb. apply Qle_bool_iff in H. now rewrite H.
Qed.

(** [main] up to the call of [extractMotion], when every check passes. *)
Lemma main_reaches_pipeline gammaLUT indeterminate args env v :
  openVideo env (inputPath args) = Some v ->
  xorb (framesOption args) (secondsOption args) = true ->
  (inject_Z (requestedDelay args v) <= frameCount v)%Q ->
  canCreate env (outputPath args) (fps v) (truncQ (frameWidth v))
    (truncQ (frameHeight v)) = true ->
  main gammaLUT indeterminate args env
  = match extractMotion gammaLUT (pictures v) (requestedDelay args v)
            (overlay args) [] with
    | Some (st, _) =>
        mkOutcome EmptyString [outputPath args] (written st) (Exited 0)
    | None => mkOutcome EmptyString [outputPath args] [] Terminated
    end.
Proof.
  intros Hopen Hx Hle Hcreate. unfold main, requestedDelay in *.
  rewrite Hopen.
  destruct (framesOption args), (secondsOption args); try discriminate;
    cbn [andb] in *; rewrite (Qgtb_false _ _ Hle); cbn [andb negb];
    rewrite Hcreate; reflexivity.
Qed.

(** X11: When the input opens, the delay ([framesToSkip], or the [double]
    product of [secondsToSkip] and the frame rate, truncated) is positive
    and does not exceed the frame count, and the output can be created,
    the run ends with status 0 and an empty [std::cerr], creates the
    output file only, and writes one frame for each picture but the first
    [delay] ones, frame [i] computed from the pictures [delay + i] and
    [i]. *)
Theorem main_writes_delayed_pairs gammaLUT indeterminate args env v r c :
  openVideo env (inputPath args) = Some v ->
  xorb (framesOption args) (secondsOption args) = true ->
  0 < requestedDelay args v < ULONG_MAX ->
  (inject_Z (requestedDelay args v) <= frameCount v)%Q ->
  canCreate env (outputPath args) (fps v) (truncQ (frameWidth v))
    (truncQ (frameHeight v)) = true ->
  uniform r c (pictures v) = true ->
  exists out,
    main gammaLUT indeterminate args env
    = mkOutcome EmptyString [outputPath args] out (Exited 0) /\
    length out
    = (length (pictures v) - Z.to_nat (requestedDelay args v))%nat /\
    map Some out
    = pairedOutputs gammaLUT (overlay args)
        (Z.to_nat (requestedDelay args v)) (pictures v).
Proof.
  intros Hopen Hx Hd Hle Hcreate Hu.
  rewrite (main_reaches_pipeline _ _ _ _ _ Hopen Hx Hle Hcreate).
  destruct (extractMotion_delay_run gammaLUT (overlay args) r c (pictures v)
              (requestedDelay args v) [] Hd Hu)
    as (st & h' & clones & Hrun & _ & _ & Hw).
  rewrite Hrun. exists (written st). split; [reflexivity|].
  split; [|exact Hw].
  rewrite <- (length_map Some), Hw. apply pairedOutputs_length.
Qed.

(** Once [parseArgs] has returned, [frameDelay] is assigned before it is
    read: the run does not depend on the value the variable starts
    with. *)
Lemma main_indeterminate gammaLUT i1 i2 args env :
  xorb (framesOption args) (secondsOption args) = true ->
  main gammaLUT i1 args env = main gammaLUT i2 args env.
Proof.
  intros Hx. unfold main.
  destruct (framesOption args), (secondsOption args); try discriminate;
    reflexivity.
Qed.

(** X12: [frameDelay] is declared without an initial value, yet no run reads
    it before it is assigned: [parseArgs] returns only when exactly one of
    the two options is set, and each of them assigns the variable.  The
    whole program does not depend on the value the variable starts
    with. *)
Theorem program_delay_initialised gammaLUT i1 i2 programName results
  operands env :
  program gammaLUT i1 programName results operands env
  = program gammaLUT i2 programName results operands env.
Proof.
  unfold program.
  destruct (parseArgs programName results operands) as [args| |] eqn:E;
    try reflexivity.
  apply parseArgs_postcondition_xor in E.
  f_equal. now apply main_indeterminate.
Qed.

(** X13: A whole run with [-f]: the offset of the last [-f] that is positive
    and within the frame count, the input opening, the output creatable.
    The delay is an [int], so [frameDelay + 1] cannot wrap: the run writes
    one frame for each picture but the first [n] ones. *)
Theorem program_frames_run gammaLUT indeterminate programName results
  input output env a n v r c :
  forallb passes results = true ->
  existsb (isOption "s") results = false ->
  lastOptarg "f" results = Some a -> stoi a = Some n -> 0 < n ->
  openVideo env input = Some v ->
  (inject_Z n <= frameCount v)%Q ->
  canCreate env output (fps v) (truncQ (frameWidth v))
    (truncQ (frameHeight v)) = true ->
  uniform r c (pictures v) = true ->
  exists out,
    program gammaLUT indeterminate programName results [input; output] env
    = (EmptyString, mkOutcome EmptyString [output] out (Exited 0)) /\
    length out = (length (pictures v) - Z.to_nat n)%nat /\
    map Some out
    = pairedOutputs gammaLUT (existsb (isOption "o") results) (Z.to_nat n)
        (pictures v).
Proof.
  intros Hp Hs Hf Hn Hpos Hopen Hle Hcreate Hu.
  pose proof (stoi_range _ _ Hn) as Hrange.
  assert (Hul : ulong n = n).
  { unfold ulong. apply Z.mod_small. unfold INT_MAX in Hrange. lia. }
  unfold program, parseArgs.
  rewrite (parseOptions_frames _ _ _ _ Hp Hs Hf Hn). cbn.
  destruct (Z.ltb_spec n 0); [lia|].
  set (args := mkArguments input output n 0 true false
                 (existsb (isOption "o") results)).
  assert (Hd : requestedDelay args v = n) by exact Hul.
  rewrite (main_reaches_pipeline gammaLUT indeterminate args env v Hopen
             eq_refl); [|rewrite Hd; exact Hle|exact Hcreate].
  rewrite Hd.
  destruct (extractMotion_delay_run gammaLUT (overlay args) r c (pictures v)
              n []) as (st & h' & clones & Hrun & _ & _ & Hw);
    [unfold ULONG_MAX; unfold INT_MAX in Hrange; lia|exact Hu|].
  rewrite Hrun. exists (written st). split; [reflexivity|].
  split; [|exact Hw].
  rewrite <- (length_map Some), Hw. apply pairedOutputs_length.
Qed.

(* ===================================================================== *)
(** * [extractMotion] at its edges *)
(* ===================================================================== *)

(** X14: When the video has no more pictures than the delay, every picture is
    queued and none is compared: nothing is written. *)
Theorem extractMotion_short_video gammaLUT overlay r c video d h :
  0 < d < ULONG_MAX ->
  (length video <= Z.to_nat d)%nat ->
  uniform r c video = true ->
  exists st h',
    extractMotion gammaLUT video d overlay h = Some (st, h') /\
    written st = [] /\
    Forall2 (holds h') (frameQueue st) video.
Proof.
  intros Hd Hlen Hu.
  destruct (extractMotion_delay_run gammaLUT overlay r c video d h Hd Hu)
    as (st & h' & clones & Hrun & Hcl & Hq & Hw).
  exists st, h'. split; [exact Hrun|]. split.
  - rewrite pairedOutputs_fill in Hw by exact Hlen.
    now apply fmap_nil_inv in Hw.
  - rewrite Hq. unfold referenceWindow.
    rewrite (Forall2_length _ _ _ Hcl).
    replace (length video - Z.to_nat d)%nat with 0%nat by lia.
    exact Hcl.
Qed.

Section Edges.

Variable gammaLUT : list uchar.
Variable overlay : bool.
Variables r c : Z.
Hypothesis r_pos : 0 < r.
Hypothesis c_pos : 0 < c.

Local Abbreviation isVideo l := (Forall (fun img => isFrame r c img = true) l).

(** One iteration with [frameDelay == ULONG_MAX]: [frameDelay + 1] is 0,
    the queue is never found too short, and the frame is compared with
    the clone just pushed. *)
Lemma loopBody_wrap h st cur out :
  frameQueue st = [] ->
  holds h (frame st) cur ->
  processPair gammaLUT overlay cur cur = Some out ->
  exists ext,
    loopBody gammaLUT ULONG_MAX overlay st h
    = Some (mkLocals [] (frame st) (firstFrame st) (written st ++ [out]),
            h ++ cur :: ext).
Proof.
  intros Hqueue Hcur Hout.
  pose proof (holds_reads _ _ _ Hcur) as Hrcur.
  destruct Hcur as (l & Hfr & Hl).
  destruct (compareFrames_img cur cur) as [cmp|] eqn:Hcmp;
    [|unfold processPair in Hout; rewrite Hcmp in Hout; discriminate].
  destruct (postProcess_run gammaLUT (h ++ [cur]) (frame st) cur cur cmp
              overlay out (reads_app _ _ _ _ Hrcur) Hcmp Hout)
    as (m & ext & Hpost & Hm).
  exists ext. change (h ++ cur :: ext) with (h ++ [cur] ++ ext).
  rewrite app_assoc.
  unfold loopBody, bind. rewrite Hfr in *. rewrite Hqueue.
  change (0 <? ULONG_MAX) with true. cbv iota.
  unfold clone, bind. simpl deref. rewrite Hl. unfold alloc, ret.
  change (ulong (ULONG_MAX + 1)) with 0.
  change (ULONG_MAX =? 0) with false.
  cbn [app length]. change (negb (Z.of_nat 1 <? 0)) with true.
  cbv beta iota.
  rewrite (compareFrames_run (h ++ [cur]) (Some l) (Some (length h)) None
             cur cur cmp (reads_app _ [cur] _ _ Hrcur)
             (reads_fresh h cur []) Hcmp).
  simpl fst. simpl snd. rewrite Hpost, Hm. reflexivity.
Qed.

Lemma loop_wrap rest :
  forall st h,
    isVideo rest ->
    Inv h st [] None ->
    exists st' h',
      loop gammaLUT rest ULONG_MAX overlay st h = Some (st', h') /\
      frameQueue st' = [] /\
      map Some (written st')
      = map Some (written st)
        ++ map (fun img => processPair gammaLUT overlay img img) rest.
Proof.
  induction rest as [|img rest IH]; intros st h Hvid Hinv.
  - exists (mkLocals (frameQueue st) None (firstFrame st) (written st)), h.
    simpl. rewrite app_nil_r. split; [reflexivity|]. split; [|reflexivity].
    pose proof (inv_queue _ _ _ _ Hinv) as Hq. now inversion Hq.
  - destruct (read_step h st _ _ img Hinv) as (f & h1 & Hread & Hf & Hinv1).
    simpl loop. unfold bind at 1. rewrite Hread.
    set (st1 := mkLocals (frameQueue st) f (firstFrame st) (written st)) in *.
    apply Forall_cons in Hvid as [Himg Hvid].
    destruct (processPair_ok gammaLUT overlay r c r_pos c_pos img img
                Himg Himg) as [out Hout].
    assert (Hq1 : frameQueue st1 = []).
    { pose proof (inv_queue _ _ _ _ Hinv1) as Hq. now inversion Hq. }
    destruct (loopBody_wrap h1 st1 img out Hq1 Hf Hout) as [ext Hbody].
    unfold bind. rewrite Hbody.
    destruct (IH (mkLocals [] (frame st1) (firstFrame st1)
                    (written st1 ++ [out])) (h1 ++ img :: ext))
      as (st' & h' & Hrun & Hq' & Hw').
    + exact Hvid.
    + destruct Hinv1 as [Hqi Hai Hfi]. constructor; simpl in *.
      * constructor.
      * exact Hai.
      * intros l Hl. destruct (Hfi l Hl) as (Hlt & _ & Hne).
        rewrite length_app. split; [lia|]. split; [|exact Hne].
        intros Hin. inversion Hin.
    + exists st', h'. split; [exact Hrun|]. split; [exact Hq'|].
      rewrite Hw'. simpl. rewrite map_app, <- app_assoc, Hout. reflexivity.
Qed.

(** One iteration with [frameDelay == 0] on a picture whose size or type
    is not the anchor's: [compareFrames] raises. *)
Lemma loopBody_anchor_raises h st cur first :
  reads h (frame st) cur -> reads h (firstFrame st) first ->
  sameSizeType cur first = false ->
  loopBody gammaLUT 0 overlay st h = None.
Proof.
  intros Hcur Hfirst Hs.
  unfold loopBody, bind, ret. simpl.
  rewrite (compareFrames_raise _ _ _ _ _ _ Hcur Hfirst); [reflexivity|].
  unfold compareFrames_img, addWeighted_img, zip_channels.
  change (sameSizeType cur (bitwise_not_img first))
    with (sameSizeType cur first).
  now rewrite Hs.
Qed.

Lemma loop_anchor_raises first pre img post :
  isFrame r c first = true ->
  sameSizeType img first = false ->
  forall st h,
    isVideo pre ->
    Inv h st [] (Some first) ->
    loop gammaLUT (pre ++ img :: post) 0 overlay st h = None.
Proof.
  intros Hfirst Hs. induction pre as [|p pre IH]; intros st h Hvid Hinv.
  - destruct (read_step h st _ _ img Hinv) as (f & h1 & Hread & Hf & Hinv1).
    simpl. unfold bind at 1. rewrite Hread. unfold bind.
    rewrite (loopBody_anchor_raises h1 _ img first);
      [reflexivity| | |exact Hs].
    + now apply holds_reads.
    + apply holds_reads, (inv_anchor _ _ _ _ Hinv1).
  - destruct (read_step h st _ _ p Hinv) as (f & h1 & Hread & Hf & Hinv1).
    simpl. unfold bind at 1. rewrite Hread.
    set (st1 := mkLocals (frameQueue st) f (firstFrame st) (written st)) in *.
    apply Forall_cons in Hvid as [Hp Hvid].
    destruct (processPair_ok gammaLUT overlay r c r_pos c_pos p first
                Hp Hfirst) as [out Hout].
    pose proof (inv_anchor _ _ _ _ Hinv1) as Hanchor. simpl in Hanchor.
    destruct (loopBody_anchor gammaLUT h1 st1 overlay p first out)
      as [ext Hbody];
      [now apply holds_reads|now apply holds_reads|exact Hout|].
    unfold bind. rewrite Hbody. apply IH; [exact Hvid|].
    destruct Hinv1 as [Hq1 Ha1 Hf1]. constructor; simpl in *.
    + now apply queue_app.
    + now apply holds_app.
    + intros l Hl. destruct (Hf1 l Hl) as (Hlt & Hrest).
      rewrite length_app. split; [lia|exact Hrest].
Qed.

End Edges.

(** X15: At [frameDelay == ULONG_MAX] the sum [frameDelay + 1] wraps to 0: no
    picture waits in the queue, every picture is compared with its own
    clone, and as many frames are written as pictures are read. *)
Theorem extractMotion_delay_wraps gammaLUT overlay r c video h :
  uniform r c video = true ->
  exists st h',
    extractMotion gammaLUT video ULONG_MAX overlay h = Some (st, h') /\
    frameQueue st = [] /\
    length (written st) = length video /\
    map Some (written st)
    = map (fun img => processPair gammaLUT overlay img img) video.
Proof.
  intros Hu. apply uniform_inv in Hu as (Hr & Hc & Hvid).
  unfold extractMotion. change (ULONG_MAX =? 0) with false. cbv iota.
  destruct (loop_wrap gammaLUT overlay r c Hr Hc video
              (mkLocals [] None None []) h Hvid (Inv_initial h))
    as (st & h' & Hrun & Hq & Hw).
  exists st, h'. split; [exact Hrun|]. split; [exact Hq|].
  simpl in Hw. split; [|exact Hw].
  rewrite <- (length_map Some), Hw. apply length_map.
Qed.

(** X16: With [frameDelay == 0], a picture whose size or type differs from the
    anchor's ends the run by the exception [compareFrames] raises, however
    many pictures of the right size came before it. *)
Theorem extractMotion_anchor_size_mismatch gammaLUT overlay r c first pre
  img post h :
  uniform r c (first :: pre) = true ->
  sameSizeType img first = false ->
  extractMotion gammaLUT (first :: pre ++ img :: post) 0 overlay h = None.
Proof.
  intros Hu Hs. apply uniform_inv in Hu as (Hr & Hc & Hvid).
  apply Forall_cons in Hvid as [Hfirst Hvid].
  unfold extractMotion. simpl. unfold bind. rewrite writeTo_None.
  apply (loop_anchor_raises gammaLUT overlay r c Hr Hc first pre img post
           Hfirst Hs); [exact Hvid|].
  constructor; simpl; [constructor| |discriminate].
  exists (length h). split; [reflexivity|].
  apply list_lookup_middle. reflexivity.
Qed.

(* ===================================================================== *)
(** * [compareFrames]: which way a channel moves *)
(* ===================================================================== *)

(** The blend of [x] with the complement of [y], against mid-gray. *)
Lemma blend_not_levels x y :
  let v := uchar_val (addWeighted8u (1 # 2) (1 # 2) 0 x (not8u y)) in
  (v = 128 <-> 0 <= uchar_val x - uchar_val y <= 2) /\
  (v < 128 <-> uchar_val x < uchar_val y) /\
  (128 < v <-> 3 <= uchar_val x - uchar_val y).
Proof.
  cbv zeta. rewrite blend_val, not8u_val, cvRound_half.
  pose proof (uchar_val_range x) as Hx. pose proof (uchar_val_range y) as Hy.
  set (s := uchar_val x + (255 - uchar_val y)).
  assert (Hs : uchar_val x - uchar_val y = s - 255) by (unfold s; lia).
  assert (Hlt : uchar_val x < uchar_val y <-> s < 255) by (unfold s; lia).
  rewrite Hs, Hlt. clearbody s. clear Hs Hlt.
  destruct (Z.even s) eqn:Es.
  - apply Z.even_spec in Es as [k ->].
    replace (2 * k / 2) with k by (Z.div_mod_to_equations; lia). lia.
  - assert (Ho : Z.odd s = true) by (rewrite <- Z.negb_even, Es; reflexivity).
    apply Z.odd_spec in Ho as [k ->].
    replace ((2 * k + 1) / 2) with k by (Z.div_mod_to_equations; lia).
    destruct (Z.even k) eqn:Ek.
    + apply Z.even_spec in Ek as [j ->]. lia.
    + assert (Ho : Z.odd k = true)
        by (rewrite <- Z.negb_even, Ek; reflexivity).
      apply Z.odd_spec in Ho as [j ->]. lia.
Qed.

(** X17: The output of [compareFrames] read against mid-gray: a channel is 128
    exactly where the current frame is the reference or brighter by at
    most 2, below 128 exactly where it is darker, above 128 exactly where
    it is brighter by 3 or more. *)
Theorem compareFrames_levels h src1 src2 dst cur ref :
  reads h src1 cur -> reads h src2 ref ->
  sameSizeType cur ref = true ->
  exists out,
    compareFrames src1 src2 dst h
    = Some (Some (length h), h ++ [out; bitwise_not_img ref]) /\
    forall p k x y,
      channel_at cur p k = Some x -> channel_at ref p k = Some y ->
      exists v,
        channel_at out p k = Some v /\
        (uchar_val v = 128 <-> 0 <= uchar_val x - uchar_val y <= 2) /\
        (uchar_val v < 128 <-> uchar_val x < uchar_val y) /\
        (128 < uchar_val v <-> 3 <= uchar_val x - uchar_val y).
Proof.
  intros H1 H2 Hs.
  destruct (compareFrames_img cur ref) as [out|] eqn:Hout.
  2:{ unfold compareFrames_img, addWeighted_img, zip_channels in Hout.
      change (sameSizeType cur (bitwise_not_img ref))
        with (sameSizeType cur ref) in Hout.
      rewrite Hs in Hout. discriminate. }
  exists out. split; [now apply compareFrames_run with (cur := cur)|].
  intros p k x y Hx Hy.
  exists (addWeighted8u (1 # 2) (1 # 2) 0 x (not8u y)).
  split; [|apply blend_not_levels].
  eapply channel_at_zip; [exact Hout|exact Hx|].
  unfold bitwise_not_img. rewrite channel_at_map, Hy. reflexivity.
Qed.

(** X18: Exchanging the two frames does not give the exact negative: the two
    outputs add up to 255 on a channel where the frames differ by an odd
    amount, and to 254 or 256 where they differ by an even amount (256
    where they agree). *)
Theorem compareFrames_exchange h src1 src2 dst cur ref :
  reads h src1 cur -> reads h src2 ref ->
  sameSizeType cur ref = true ->
  exists out out',
    compareFrames src1 src2 dst h
    = Some (Some (length h), h ++ [out; bitwise_not_img ref]) /\
    compareFrames src2 src1 dst h
    = Some (Some (length h), h ++ [out'; bitwise_not_img cur]) /\
    forall p k x y,
      channel_at cur p k = Some x -> channel_at ref p k = Some y ->
      exists v v',
        channel_at out p k = Some v /\ channel_at out' p k = Some v' /\
        254 <= uchar_val v + uchar_val v' <= 256 /\
        (uchar_val v + uchar_val v' = 255
         <-> Z.odd (uchar_val x - uchar_val y) = true) /\
        (x = y -> uchar_val v + uchar_val v' = 256).
Proof.
  intros H1 H2 Hs.
  destruct (compareFrames_img cur ref) as [out|] eqn:Hout.
  2:{ unfold compareFrames_img, addWeighted_img, zip_channels in Hout.
      change (sameSizeType cur (bitwise_not_img ref))
        with (sameSizeType cur ref) in Hout.
      rewrite Hs in Hout. discriminate. }
  destruct (compareFrames_img ref cur) as [out'|] eqn:Hout'.
  2:{ unfold compareFrames_img, addWeighted_img, zip_channels in Hout'.
      change (sameSizeType ref (bitwise_not_img cur))
        with (sameSizeType ref cur) in Hout'.
      rewrite sameSizeType_sym, Hs in Hout'. discriminate. }
  exists out, out'.
  split; [now apply compareFrames_run with (cur := cur)|].
  split; [now apply compareFrames_run with (cur := ref)|].
  intros p k x y Hx Hy.
  exists (addWeighted8u (1 # 2) (1 # 2) 0 x (not8u y)),
         (addWeighted8u (1 # 2) (1 # 2) 0 y (not8u x)).
  split; [|split].
  - eapply channel_at_zip; [exact Hout|exact Hx|].
    unfold bitwise_not_img. rewrite channel_at_map, Hy. reflexivity.
  - eapply channel_at_zip; [exact Hout'|exact Hy|].
    unfold bitwise_not_img. rewrite channel_at_map, Hx. reflexivity.
  - assert (Hxy : x = y -> uchar_val x = uchar_val y) by congruence.
    rewrite !blend_val, !not8u_val, !cvRound_half.
    pose proof (uchar_val_range x) as Rx.
    pose proof (uchar_val_range y) as Ry.
    generalize dependent (uchar_val x). intros a Ra.
    generalize dependent (uchar_val y). intros b Rb Hxy.
    rewrite <- Z.negb_even, negb_true_iff.
    rewrite !Z.even_sub, !Z.even_add, !Z.even_sub.
    change (Z.even 255) with false.
    destruct (Z.even a) eqn:Ea, (Z.even b) eqn:Eb; cbn [eqb xorb negb];
      repeat match goal with
      | H : Z.even _ = true |- _ => apply Z.even_spec in H as [? ->]
      | H : Z.even ?z = false |- _ =>
          assert (Z.odd z = true)
            by (rewrite <- Z.negb_even, H; reflexivity);
          clear H
      | H : Z.odd _ = true |- _ => apply Z.odd_spec in H as [? ->]
      end.
    all: match goal with
         | |- context [if Z.even ?t then _ else _] =>
             destruct (Z.even t) eqn:E1
         | _ => idtac
         end.
    all: match goal with
         | |- context [if Z.even ?t then _ else _] =>
             destruct (Z.even t) eqn:E2
         | _ => idtac
         end.
    all: repeat match goal with
      | H : Z.even _ = true |- _ => apply Z.even_spec in H as [? H]
      | H : Z.even ?z = false |- _ =>
          assert (Z.odd z = true)
            by (rewrite <- Z.negb_even, H; reflexivity);
          clear H
      | H : Z.odd _ = true |- _ => apply Z.odd_spec in H as [? H]
      end.
    all: repeat split; intros; try discriminate; try reflexivity;
      Z.div_mod_to_equations; lia.
Qed.

(* ===================================================================== *)
(** * The frames written, pixel by pixel *)
(* ===================================================================== *)

Lemma blend_self x : addWeighted8u (1 # 2) (1 # 2) 0 x (not8u x) = x80.
Proof.
  destruct x; vm_compute; reflexivity.
Qed.

Lemma or8u_zero x : or8u x x00 = x.
Proof.
  destruct x; vm_compute; reflexivity.
Qed.

Lemma zip_with_self_map {A B C} (f : A -> B -> C) (g : A -> B) l :
  zip_with f l (map g l) = map (fun x => f x (g x)) l.
Proof.
  induction l as [|x l IH]; simpl; [reflexivity|]. now rewrite IH.
Qed.

Lemma map_const_replicate {A B} (b : B) (l : list A) :
  map (fun _ => b) l = replicate (length l) b.
Proof.
  induction l as [|x l IH]; simpl; [reflexivity|]. now rewrite IH.
Qed.

Lemma map_replicate {A B} (f : A -> B) n x :
  map f (replicate n x) = replicate n (f x).
Proof.
  induction n as [|n IH]; simpl; [reflexivity|]. now rewrite IH.
Qed.

Lemma flat_map_replicate {A B} (b : B) m (l : list A) :
  flat_map (fun _ => replicate m b) l = replicate (length l * m) b.
Proof.
  induction l as [|x l IH]; simpl; [reflexivity|].
  now rewrite IH, replicate_add.
Qed.

Lemma zip_with_replicate_min {A B C} (f : A -> B -> C) n m x y :
  zip_with f (replicate n x) (replicate m y) = replicate (n `min` m) (f x y).
Proof.
  revert m. induction n as [|n IH]; intros [|m]; simpl; try reflexivity.
  now rewrite IH.
Qed.

(** A frame compared against itself is flat mid-gray. *)
Lemma compareFrames_img_self img :
  compareFrames_img img img = Some (flat_img x80 img).
Proof.
  unfold compareFrames_img, addWeighted_img, zip_channels.
  change (sameSizeType img (bitwise_not_img img)) with (sameSizeType img img).
  rewrite sameSizeType_refl.
  unfold flat_img, bitwise_not_img, map_channels. simpl. do 2 f_equal.
  rewrite zip_with_self_map. apply map_ext. intros px.
  rewrite zip_with_self_map. apply map_ext. intros x. apply blend_self.
Qed.


(** Flat mid-gray has luminance 128, which the threshold 129 sends to 0,
    whatever the number of channels the pixel has in the data. *)
Lemma binarised_flat (px : list uchar) :
  threshBinary8u 129 255
    (luminance (chan (map (fun _ => x80) px) 0)
               (chan (map (fun _ => x80) px) 1)
               (chan (map (fun _ => x80) px) 2)) = x00.
Proof.
  destruct px as [|a [|b [|c px]]]; reflexivity.
Qed.

Lemma nth_default_Forall {A} (P : A -> Prop) l d i :
  P d -> Forall P l -> P (nth i l d).
Proof.
  intros Hd Hl. destruct (nth_in_or_default i l d) as [Hin|E].
  - now apply (proj1 (List.Forall_forall P l) Hl).
  - now rewrite E.
Qed.

(** The blur of an image that is 0 everywhere is 0 everywhere. *)
Lemma blur3x3_zero src :
  channels src = 1 ->
  (forall i, chan (nth i (data src) []) 0 = x00) ->
  data (blur3x3_img src)
  = replicate (Z.to_nat (rows src) * Z.to_nat (cols src)) [x00].
Proof.
  intros Hn Hz. unfold blur3x3_img. cbn [data]. rewrite Hn.
  change (seq 0 (Z.to_nat 1)) with [0%nat]. cbn [map].
  assert (Hb : forall r c, blur3x3_at src r c 0 = x00).
  { intros r c. unfold blur3x3_at, at_. rewrite !Hz. reflexivity. }
  transitivity
    (flat_map (fun _ : nat => replicate (Z.to_nat (cols src)) [x00])
       (seq 0 (Z.to_nat (rows src)))).
  - apply flat_map_ext. intros r.
    rewrite (map_ext _ (fun _ => [x00])) by (intros c; now rewrite Hb).
    now rewrite map_const_replicate, length_seq.
  - now rewrite flat_map_replicate, length_seq.
Qed.

Lemma zip_or_zero l :
  Forall (fun px => length px = 3%nat) l ->
  zip_with (zip_with or8u) l (replicate (length l) [x00; x00; x00]) = l.
Proof.
  induction 1 as [|px l Hpx _ IH]; simpl; [reflexivity|].
  rewrite IH. destruct px as [|a [|b [|c [|e px]]]]; try discriminate.
  simpl. now rewrite !or8u_zero.
Qed.

Lemma wellFormed_inv r c img :
  0 < r -> 0 < c ->
  isFrame r c img = true -> wellFormed img = true ->
  rows img = r /\ cols img = c /\ channels img = 3 /\
  length (data img) = (Z.to_nat r * Z.to_nat c)%nat /\
  Forall (fun px => length px = 3%nat) (data img).
Proof.
  intros Hr Hc. unfold isFrame, wellFormed.
  rewrite !andb_true_iff, !Z.eqb_eq, forallb_forall.
  intros [[Hr1 Hc1] Hn1] [Hlen Hpx].
  repeat split; try assumption.
  - rewrite <- Z2Nat.inj_mul by lia. lia.
  - apply List.Forall_forall. intros px Hin.
    specialize (Hpx px Hin). apply Z.eqb_eq in Hpx. lia.
Qed.

(** On flat mid-gray the mask is 0 everywhere, and the frame comes out of
    the overlay as it went in. *)
Lemma overlay_img_flat r c img :
  0 < r -> 0 < c ->
  isFrame r c img = true -> wellFormed img = true ->
  overlay_img img (flat_img x80 img) = Some img.
Proof.
  intros Hr Hc Hf Hwf.
  destruct (wellFormed_inv r c img Hr Hc Hf Hwf)
    as (Hr1 & Hc1 & Hn1 & Hlen & Hpx).
  assert (Hflat : isFrame r c (flat_img x80 img) = true) by exact Hf.
  destruct (overlay_stages_ok r c img (flat_img x80 img) Hr Hc Hf Hflat)
    as (gray & mask & out & Hgray & Hmask & Hout).
  unfold overlay_img, overlayMask_img, binarised_img.
  rewrite Hgray, Hmask, Hout. f_equal.
  pose proof (BGR2GRAY_inv _ _ Hgray) as (_ & _ & Hgr & Hgc & Hgn & Hgd).
  pose proof (GRAY2BGR_inv _ _ Hmask) as (_ & _ & _ & _ & _ & Hmd).
  rewrite blur3x3_zero in Hmd.
  - cbn [threshold_img map_channels rows cols] in Hmd.
    rewrite Hgr, Hgc in Hmd. cbn [flat_img map_channels rows cols] in Hmd.
    rewrite Hr1, Hc1, <- Hlen, map_replicate in Hmd.
    unfold bitwise_or_img, zip_channels in Hout.
    destruct (sameSizeType img mask); [|discriminate].
    injection Hout as <-. rewrite Hmd. cbn [chan nth].
    destruct img as [ri ci ni di]. cbn [rows cols channels data] in *.
    f_equal. exact (zip_or_zero _ Hpx).
  - exact Hgn.
  - intros i.
    apply (nth_default_Forall (fun px => chan px 0 = x00)); [reflexivity|].
    apply List.Forall_forall. intros px Hin.
    cbn [threshold_img map_channels data] in Hin. rewrite Hgd in Hin.
    cbn [flat_img map_channels data] in Hin.
    apply in_map_iff in Hin as (px1 & <- & Hin).
    apply in_map_iff in Hin as (px2 & <- & Hin).
    apply in_map_iff in Hin as (px3 & <- & _).
    cbn [map chan nth]. apply binarised_flat.
Qed.

Lemma uniform_replicate r c img n :
  0 < r -> 0 < c -> isFrame r c img = true ->
  uniform r c (replicate n img) = true.
Proof.
  intros Hr Hc Hf. unfold uniform.
  rewrite (proj2 (Z.ltb_lt 0 r) Hr), (proj2 (Z.ltb_lt 0 c) Hc). simpl.
  induction n as [|n IH]; simpl; [reflexivity|]. now rewrite Hf, IH.
Qed.

(** A video whose pictures are all the same: every frame written is the
    frame of the picture paired with itself. *)
Lemma extractMotion_static gammaLUT overlay r c img out n d h :
  0 < r -> 0 < c -> isFrame r c img = true ->
  0 <= d < ULONG_MAX ->
  processPair gammaLUT overlay img img = Some out ->
  exists st h',
    extractMotion gammaLUT (replicate n img) d overlay h = Some (st, h') /\
    written st = replicate (n - Z.to_nat (Z.max 1 d)) out.
Proof.
  intros Hr Hc Hf Hd Hout.
  assert (Hinj : forall l k : list Image, map Some l = map Some k -> l = k).
  { induction l as [|x l IH]; intros [|y k]; simpl; try discriminate;
      [reflexivity|]. intros [= -> E]. f_equal. now apply IH. }
  destruct (Z.eq_dec d 0) as [->|Hne].
  - change (Z.to_nat (Z.max 1 0)) with 1%nat. destruct n as [|n].
    + rewrite extractMotion_empty. eauto.
    + destruct (extractMotion_anchor_run gammaLUT overlay r c img
                  (replicate n img) h
                  (uniform_replicate r c img (S n) Hr Hc Hf))
        as (st & h' & Hrun & _ & Hw & _).
      exists st, h'. split; [exact Hrun|]. apply Hinj.
      rewrite Hw, !map_replicate, Hout.
      f_equal. simpl. lia.
  - destruct (extractMotion_delay_run gammaLUT overlay r c
                (replicate n img) d h ltac:(lia)
                (uniform_replicate r c img n Hr Hc Hf))
      as (st & h' & _ & Hrun & _ & _ & Hw).
    exists st, h'. split; [exact Hrun|]. apply Hinj.
    rewrite Hw. unfold pairedOutputs.
    rewrite drop_replicate, zip_with_replicate_min, map_replicate, Hout.
    f_equal. lia.
Qed.


(** X20: In overlay mode a video that does not change is reproduced: every
    frame written is the picture itself. *)
Theorem extractMotion_static_overlay gammaLUT r c img n d h :
  0 < r -> 0 < c -> isFrame r c img = true -> wellFormed img = true ->
  0 <= d < ULONG_MAX ->
  exists st h',
    extractMotion gammaLUT (replicate n img) d true h = Some (st, h') /\
    written st = replicate (n - Z.to_nat (Z.max 1 d)) img.
Proof.
  intros Hr Hc Hf Hwf Hd.
  apply (extractMotion_static gammaLUT true r c); try assumption.
  unfold processPair. rewrite compareFrames_img_self.
  now apply (overlay_img_flat r c).
Qed.


(** The pictures behind the frame [i] of a run with a positive delay. *)
Lemma written_lookup gammaLUT overlay d video (out : list Image) i cur ref :
  map Some out = pairedOutputs gammaLUT overlay d video ->
  video !! (d + i)%nat = Some cur -> video !! i = Some ref ->
  exists o,
    out !! i = Some o /\ processPair gammaLUT overlay cur ref = Some o.
Proof.
  intros Hw Hcur Href.
  assert (E : map Some out !! i
              = Some (processPair gammaLUT overlay cur ref)).
  { rewrite Hw. unfold pairedOutputs.
    rewrite lookup_zip_with, lookup_drop, Hcur, Href. reflexivity. }
  rewrite list_lookup_fmap in E.
  destruct (out !! i) as [o|]; [|discriminate].
  injection E as E. eauto.
Qed.

(** Where the overlay succeeds on a frame whose data agrees with its
    header, no channel of the result is below that of the frame. *)
Lemma overlay_img_brightens r c f cmp out p k x :
  0 < r -> 0 < c ->
  isFrame r c f = true -> wellFormed f = true -> isFrame r c cmp = true ->
  overlay_img f cmp = Some out ->
  channel_at f p k = Some x ->
  exists v, channel_at out p k = Some v /\ uchar_val x <= uchar_val v.
Proof.
  intros Hr Hc Hf Hwf Hcmp Hov Hx.
  destruct (wellFormed_inv r c f Hr Hc Hf Hwf)
    as (Hr1 & Hc1 & Hn1 & Hlen & Hpx).
  unfold overlay_img, overlayMask_img, binarised_img in Hov.
  destruct (cvtColor_BGR2GRAY_img cmp) as [gray|] eqn:Hgray; [|discriminate].
  destruct (cvtColor_GRAY2BGR_img _) as [mask|] eqn:Hmask; [|discriminate].
  pose proof (BGR2GRAY_inv _ _ Hgray) as (_ & _ & Hgr & Hgc & _ & _).
  pose proof (GRAY2BGR_inv _ _ Hmask) as (_ & _ & _ & _ & _ & Hdata).
  unfold isFrame in Hcmp. rewrite !andb_true_iff, !Z.eqb_eq in Hcmp.
  destruct Hcmp as [[Hr2 Hc2] Hn2].
  assert (Hm : exists m, channel_at mask p k = Some m).
  { unfold channel_at in Hx |- *.
    destruct (data f !! p) as [px|] eqn:Hp; [|discriminate].
    assert (Hk : (k < 3)%nat).
    { apply lookup_lt_Some in Hx.
      rewrite List.Forall_forall in Hpx.
      rewrite <- (Hpx px); [exact Hx|].
      apply list_elem_of_In, list_elem_of_lookup; eauto. }
    apply lookup_lt_Some in Hp.
    assert (Hpl : (p < length (data (blur3x3_img
                                       (threshold_img gray 129 255))))%nat).
    { rewrite blur3x3_data_length. simpl. rewrite Hgr, Hgc, Hr2, Hc2. lia. }
    destruct (lookup_lt_is_Some_2 _ _ Hpl) as [bpx Hbpx].
    rewrite Hdata, list_lookup_fmap, Hbpx. simpl.
    destruct k as [|[|[|k]]]; simpl; eauto. lia. }
  destruct Hm as [m Hm]. exists (or8u x m). split.
  - eapply channel_at_zip; eassumption.
  - apply or8u_val.
Qed.


(** X22: In overlay mode, with a positive delay, the frame [i] written has the
    size and type of the picture [delay + i] and is nowhere darker than
    that picture: the motion is laid over the current picture, not over
    the delayed one. *)
Theorem extractMotion_overlay_brightens gammaLUT r c video d h :
  0 < d < ULONG_MAX -> uniform r c video = true ->
  exists st h',
    extractMotion gammaLUT video d true h = Some (st, h') /\
    forall i cur ref,
      video !! (Z.to_nat d + i)%nat = Some cur -> video !! i = Some ref ->
      wellFormed cur = true ->
      exists out,
        written st !! i = Some out /\
        sameSizeType cur out = true /\
        forall p k x,
          channel_at cur p k = Some x ->
          exists v,
            channel_at out p k = Some v /\ uchar_val x <= uchar_val v.
Proof.
  intros Hd Hu.
  destruct (extractMotion_delay_run gammaLUT true r c video d h Hd Hu)
    as (st & h' & clones & Hrun & _ & _ & Hw).
  apply uniform_inv in Hu as (Hr & Hc & Hvid).
  exists st, h'. split; [exact Hrun|]. intros i cur ref Hcur Href Hwf.
  destruct (written_lookup _ _ _ _ _ _ _ _ Hw Hcur Href) as (out & Hi & Hout).
  exists out. split; [exact Hi|].
  assert (Hf : isFrame r c cur = true).
  { rewrite List.Forall_forall in Hvid. apply Hvid.
    apply list_elem_of_In, list_elem_of_lookup; eauto. }
  unfold processPair in Hout.
  destruct (compareFrames_img cur ref) as [cmp|] eqn:Hcmp; [|discriminate].
  assert (Hs : sameSizeType cur cmp = true)
    by (eapply zip_channels_shape, Hcmp).
  assert (Hfc : isFrame r c cmp = true).
  { apply sameSizeType_eq in Hs as (E1 & E2 & E3).
    unfold isFrame in *. now rewrite <- E1, <- E2, <- E3. }
  split.
  - unfold overlay_img in Hout.
    destruct (overlayMask_img cmp) as [mask|]; [|discriminate].
    eapply zip_channels_shape, Hout.
  - intros p k x Hx.
    now apply (overlay_img_brightens r c cur cmp out p k x).
Qed.

(* ===================================================================== *)
(** * Command lines and runs on the sample video *)
(* ===================================================================== *)

Lemma parseArgs_postcondition_witness :
  exists args,
    parseArgs "motion" [given "o" ""; given "f" "2"] ["in.mp4"; "out.mp4"]%string
    = Returned args /\
    xorb (framesOption args) (secondsOption args) = true /\
    0 <= framesToSkip args <= INT_MAX /\
    0 <= secondsToSkip args <= INT_MAX /\
    ["in.mp4"; "out.mp4"]%string = [inputPath args; outputPath args].
Proof.
  exists (mkArguments "in.mp4" "out.mp4" 2 0 true false true).
  assert (H : parseArgs "motion" [given "o" ""; given "f" "2"]
                ["in.mp4"; "out.mp4"]%string
              = Returned (mkArguments "in.mp4" "out.mp4" 2 0 true false true))
    by reflexivity.
  split; [exact H|].
  exact (parseArgs_postcondition _ _ _ _ H).
Defined.

Lemma parseArgs_help_witness :
  forallb passes [given "f" "2"] = true /\
  parseArgs "motion"
    ([given "f" "2"] ++ given "h" "" :: [given "s" "nine"]) []
  = Exits (printHelp "motion") EmptyString EXIT_SUCCESS.
Proof.
  assert (H : forallb passes [given "f" "2"] = true) by reflexivity.
  split; [exact H|].
  exact (parseArgs_help "motion" [given "f" "2"] (given "h" "")
           [given "s" "nine"] [] H eq_refl).
Defined.

Lemma parseArgs_unknown_option_witness :
  forallb passes [given "f" "2"] = true /\
  parseArgs "motion"
    ([given "f" "2"] ++ mkGetopt "?" "" "x" :: []) ["in.mp4"; "out.mp4"]%string
  = Exits (printUsage "motion") (cat ["Unknown option: "; "x"; endl])%string
      EXIT_FAILURE.
Proof.
  assert (H : forallb passes [given "f" "2"] = true) by reflexivity.
  split; [exact H|].
  exact (parseArgs_unknown_option "motion" [given "f" "2"]
           (mkGetopt "?" "" "x") [] ["in.mp4"; "out.mp4"]%string H eq_refl).
Defined.

Lemma parseArgs_offset_not_converted_witness :
  stoi "ten" = None /\ stoi "4294967296" = None /\
  parseArgs "motion" ([] ++ given "f" "ten" :: []) ["in.mp4"; "out.mp4"]%string
  = Uncaught /\
  parseArgs "motion" ([given "o" ""] ++ given "s" "4294967296" :: [])
    ["in.mp4"; "out.mp4"]%string
  = Uncaught.
Proof.
  assert (H1 : stoi "ten" = None) by reflexivity.
  assert (H2 : stoi "4294967296" = None) by reflexivity.
  repeat (split; [assumption|]). split.
  - exact (parseArgs_offset_not_converted "motion" [] (given "f" "ten") []
             ["in.mp4"; "out.mp4"]%string eq_refl (or_introl eq_refl) H1).
  - exact (parseArgs_offset_not_converted "motion" [given "o" ""]
             (given "s" "4294967296") [] ["in.mp4"; "out.mp4"]%string
             eq_refl (or_intror eq_refl) H2).
Defined.

Lemma parseArgs_mutually_exclusive_witness :
  parseArgs "motion" [given "f" "2"; given "s" "1"] ["in.mp4"; "out.mp4"]%string
  = Exits (printUsage "motion")
      (cat ["Error: Options -f and -s are mutually exclusive."; endl])%string
      EXIT_FAILURE.
Proof.
  exact (parseArgs_mutually_exclusive "motion"
           [given "f" "2"; given "s" "1"] ["in.mp4"; "out.mp4"]%string
           eq_refl eq_refl eq_refl).
Defined.

Lemma parseArgs_offset_required_witness :
  parseArgs "motion" [given "o" ""] ["in.mp4"; "out.mp4"]%string
  = Exits (printUsage "motion")
      (cat ["Error: You must provide either a seconds or frames offset with -s or -f.";
            endl])%string
      EXIT_FAILURE.
Proof.
  exact (parseArgs_offset_required "motion" [given "o" ""]
           ["in.mp4"; "out.mp4"]%string eq_refl eq_refl eq_refl).
Defined.

Lemma parseArgs_negative_offset_witness :
  stoi "-3" = Some (-3) /\
  parseArgs "motion" [given "f" "5"; given "f" "-3"] []
  = Exits EmptyString (cat ["Frames must be a positive number."; endl])%string
      EXIT_FAILURE /\
  parseArgs "motion" [given "s" "-3"] ["in.mp4"; "out.mp4"]%string
  = Exits EmptyString (cat ["Seconds must be a positive number."; endl])%string
      EXIT_FAILURE.
Proof.
  assert (H : stoi "-3" = Some (-3)) by reflexivity.
  assert (Hneg : -3 < 0) by lia.
  split; [exact H|]. split.
  - exact (proj1 (parseArgs_negative_offset "motion"
                    [given "f" "5"; given "f" "-3"] [] "-3" (-3)
                    eq_refl H Hneg) eq_refl eq_refl).
  - exact (proj2 (parseArgs_negative_offset "motion" [given "s" "-3"]
                    ["in.mp4"; "out.mp4"]%string "-3" (-3)
                    eq_refl H Hneg) eq_refl eq_refl).
Defined.

Lemma parseArgs_accepts_witness :
  stoi "0" = Some 0 /\
  parseArgs "motion" [given "f" "7"; given "o" ""; given "f" "0"]
    ["in.mp4"; "out.mp4"]%string
  = Returned (mkArguments "in.mp4" "out.mp4" 0 0 true false true) /\
  parseArgs "motion" [given "s" "0"] ["in.mp4"; "out.mp4"]%string
  = Returned (mkArguments "in.mp4" "out.mp4" 0 0 false true false).
Proof.
  assert (H : stoi "0" = Some 0) by reflexivity.
  assert (Hpos : 0 <= 0) by lia.
  split; [exact H|]. split.
  - exact (proj1 (parseArgs_accepts "motion"
                    [given "f" "7"; given "o" ""; given "f" "0"]
                    "in.mp4" "out.mp4" "0" 0 eq_refl H Hpos)
             eq_refl eq_refl).
  - exact (proj2 (parseArgs_accepts "motion" [given "s" "0"]
                    "in.mp4" "out.mp4" "0" 0 eq_refl H Hpos)
             eq_refl eq_refl).
Defined.

Lemma parseArgs_operands_witness :
  stoi "2" = Some 2 /\
  parseArgs "motion" [given "f" "2"] ["in.mp4"]%string
  = Exits (printUsage "motion")
      (cat ["Error: Expected input and output file paths."; endl])%string
      EXIT_FAILURE.
Proof.
  assert (H : stoi "2" = Some 2) by reflexivity.
  assert (Hpos : 0 <= 2) by lia.
  assert (Hlen : length ["in.mp4"%string] <> 2%nat) by (simpl; lia).
  split; [exact H|].
  exact (parseArgs_operands "motion" [given "f" "2"] ["in.mp4"%string] "2" 2
           eq_refl H Hpos Hlen (or_introl (conj eq_refl eq_refl))).
Defined.

Lemma main_sink_unavailable_witness :
  requestedDelay (mkArguments "in.mp4" "elsewhere.mp4" 0 100 false true false)
    (clip rate2997 3000) = 2997 /\
  main identityLUT 0
    (mkArguments "in.mp4" "elsewhere.mp4" 0 100 false true false)
    (envWith (clip rate2997 3000))
  = mkOutcome
      (cat ["Error: Could not create the output video file ";
            "elsewhere.mp4"; endl])%string
      [] [] (Exited EXIT_FAILURE).
Proof.
  set (args := mkArguments "in.mp4" "elsewhere.mp4" 0 100 false true false).
  assert (H0 : requestedDelay args (clip rate2997 3000) = 2997)
    by (vm_compute; reflexivity).
  assert (H1 : (inject_Z (requestedDelay args (clip rate2997 3000))
                <= frameCount (clip rate2997 3000))%Q)
    by (rewrite H0; apply Qle_bool_iff; reflexivity).
  split; [exact H0|].
  exact (main_sink_unavailable identityLUT 0 args
           (envWith (clip rate2997 3000)) (clip rate2997 3000)
           eq_refl eq_refl H1 eq_refl).
Defined.

Lemma main_writes_delayed_pairs_witness :
  requestedDelay (mkArguments "in.mp4" "out.mp4" 0 100 false true false)
    (clip rate2997 3000) = 2997 /\
  uniform 2 2 (pictures (clip rate2997 3000)) = true /\
  exists out,
    main identityLUT 0
      (mkArguments "in.mp4" "out.mp4" 0 100 false true false)
      (envWith (clip rate2997 3000))
    = mkOutcome EmptyString ["out.mp4"%string] out (Exited 0) /\
    length out = 3%nat.
Proof.
  set (args := mkArguments "in.mp4" "out.mp4" 0 100 false true false).
  set (v := clip rate2997 3000).
  assert (H0 : requestedDelay args v = 2997) by (vm_compute; reflexivity).
  assert (H1 : 0 < requestedDelay args v < ULONG_MAX)
    by (rewrite H0; split; reflexivity).
  assert (H2 : (inject_Z (requestedDelay args v) <= frameCount v)%Q)
    by (rewrite H0; apply Qle_bool_iff; reflexivity).
  assert (H4 : uniform 2 2 (pictures v) = true) by (vm_compute; reflexivity).
  repeat (split; [assumption|]).
  destruct (main_writes_delayed_pairs identityLUT 0 args (envWith v) v
              2 2 eq_refl eq_refl H1 H2 eq_refl H4) as (out & Hrun & Hlen & _).
  exists out. split; [exact Hrun|].
  rewrite Hlen, H0. vm_compute. reflexivity.
Defined.

Lemma program_frames_run_witness :
  stoi "1" = Some 1 /\
  openVideo sampleEnv "in.mp4" = Some sampleFile /\
  exists out,
    program identityLUT 0 "motion" [given "f" "1"] ["in.mp4"; "out.mp4"]%string
      sampleEnv
    = (EmptyString, mkOutcome EmptyString ["out.mp4"%string] out (Exited 0)) /\
    length out = 2%nat.
Proof.
  assert (H0 : stoi "1" = Some 1) by reflexivity.
  assert (H1 : openVideo sampleEnv "in.mp4" = Some sampleFile) by reflexivity.
  assert (H2 : (inject_Z 1 <= frameCount sampleFile)%Q)
    by (apply Qle_bool_iff; reflexivity).
  assert (Hpos : 0 < 1) by lia.
  repeat (split; [assumption|]).
  destruct (program_frames_run identityLUT 0 "motion" [given "f" "1"]
              "in.mp4" "out.mp4" sampleEnv "1" 1 sampleFile 2 2
              eq_refl eq_refl eq_refl H0 Hpos H1 H2 eq_refl eq_refl)
    as (out & Hrun & Hlen & _).
  exists out. split; [exact Hrun|exact Hlen].
Defined.

Lemma extractMotion_short_video_witness :
  0 < 5 < ULONG_MAX /\ (length sampleVideo <= Z.to_nat 5)%nat /\
  uniform 2 2 sampleVideo = true /\
  exists st h',
    extractMotion identityLUT sampleVideo 5 true [] = Some (st, h') /\
    written st = [].
Proof.
  assert (H0 : 0 < 5 < ULONG_MAX) by (split; reflexivity).
  assert (H1 : (length sampleVideo <= Z.to_nat 5)%nat) by (simpl; lia).
  assert (H2 : uniform 2 2 sampleVideo = true) by reflexivity.
  repeat (split; [assumption|]).
  destruct (extractMotion_short_video identityLUT true 2 2 sampleVideo 5 []
              H0 H1 H2) as (st & h' & Hrun & Hw & _).
  exists st, h'. split; assumption.
Defined.

Lemma extractMotion_delay_wraps_witness :
  uniform 2 2 sampleVideo = true /\
  exists st h',
    extractMotion identityLUT sampleVideo ULONG_MAX false []
    = Some (st, h') /\
    length (written st) = 3%nat.
Proof.
  assert (H0 : uniform 2 2 sampleVideo = true) by reflexivity.
  split; [exact H0|].
  destruct (extractMotion_delay_wraps identityLUT false 2 2 sampleVideo []
              H0) as (st & h' & Hrun & _ & Hlen & _).
  exists st, h'. split; assumption.
Defined.

Lemma extractMotion_anchor_size_mismatch_witness :
  uniform 2 2 [picture0; picture1] = true /\
  sameSizeType thumbnail picture0 = false /\
  extractMotion identityLUT (picture0 :: [picture1] ++ thumbnail :: [picture2])
    0 false []
  = None.
Proof.
  assert (H0 : uniform 2 2 [picture0; picture1] = true) by reflexivity.
  assert (H1 : sameSizeType thumbnail picture0 = false) by reflexivity.
  repeat (split; [assumption|]).
  exact (extractMotion_anchor_size_mismatch identityLUT false 2 2 picture0
           [picture1] thumbnail [picture2] [] H0 H1).
Defined.

Lemma compareFrames_levels_witness :
  reads [picture1; picture0] (Some 0%nat) picture1 /\
  reads [picture1; picture0] (Some 1%nat) picture0 /\
  sameSizeType picture1 picture0 = true /\
  exists out,
    compareFrames (Some 0%nat) (Some 1%nat) None [picture1; picture0]
    = Some (Some 2%nat,
            [picture1; picture0] ++ [out; bitwise_not_img picture0]).
Proof.
  assert (H1 : reads [picture1; picture0] (Some 0%nat) picture1)
    by reflexivity.
  assert (H2 : reads [picture1; picture0] (Some 1%nat) picture0)
    by reflexivity.
  assert (H3 : sameSizeType picture1 picture0 = true) by reflexivity.
  repeat (split; [assumption|]).
  destruct (compareFrames_levels [picture1; picture0] (Some 0%nat)
              (Some 1%nat) None picture1 picture0 H1 H2 H3)
    as (out & Hrun & _).
  exists out. exact Hrun.
Defined.

Lemma compareFrames_exchange_witness :
  reads [picture1; picture0] (Some 0%nat) picture1 /\
  reads [picture1; picture0] (Some 1%nat) picture0 /\
  sameSizeType picture1 picture0 = true /\
  exists out out',
    compareFrames (Some 0%nat) (Some 1%nat) None [picture1; picture0]
    = Some (Some 2%nat,
            [picture1; picture0] ++ [out; bitwise_not_img picture0]) /\
    compareFrames (Some 1%nat) (Some 0%nat) None [picture1; picture0]
    = Some (Some 2%nat,
            [picture1; picture0] ++ [out'; bitwise_not_img picture1]).
Proof.
  assert (H1 : reads [picture1; picture0] (Some 0%nat) picture1)
    by reflexivity.
  assert (H2 : reads [picture1; picture0] (Some 1%nat) picture0)
    by reflexivity.
  assert (H3 : sameSizeType picture1 picture0 = true) by reflexivity.
  repeat (split; [assumption|]).
  destruct (compareFrames_exchange [picture1; picture0] (Some 0%nat)
              (Some 1%nat) None picture1 picture0 H1 H2 H3)
    as (out & out' & Hrun & Hrun' & _).
  exists out, out'. split; assumption.
Defined.


Lemma extractMotion_static_overlay_witness :
  0 < 2 /\ isFrame 2 2 picture0 = true /\ wellFormed picture0 = true /\
  0 <= 0 < ULONG_MAX /\
  exists st h',
    extractMotion identityLUT (replicate 3 picture0) 0 true []
    = Some (st, h') /\
    written st = replicate 2 picture0.
Proof.
  assert (H0 : 0 < 2) by lia.
  assert (H1 : isFrame 2 2 picture0 = true) by reflexivity.
  assert (H2 : wellFormed picture0 = true) by reflexivity.
  assert (H3 : 0 <= 0 < ULONG_MAX) by (split; [lia|reflexivity]).
  repeat (split; [assumption|]).
  exact (extractMotion_static_overlay identityLUT 2 2 picture0 3 0 []
           H0 H0 H1 H2 H3).
Defined.


Lemma extractMotion_overlay_brightens_witness :
  0 < 1 < ULONG_MAX /\ uniform 2 2 sampleVideo = true /\
  wellFormed picture2 = true /\
  exists st h' out,
    extractMotion identityLUT sampleVideo 1 true [] = Some (st, h') /\
    written st !! 1%nat = Some out /\
    sameSizeType picture2 out = true.
Proof.
  assert (H0 : 0 < 1 < ULONG_MAX) by (split; reflexivity).
  assert (H1 : uniform 2 2 sampleVideo = true) by reflexivity.
  assert (H2 : wellFormed picture2 = true) by reflexivity.
  repeat (split; [assumption|]).
  destruct (extractMotion_overlay_brightens identityLUT 2 2 sampleVideo 1 []
              H0 H1) as (st & h' & Hrun & Hpix).
  destruct (Hpix 1%nat picture2 picture1 eq_refl eq_refl H2)
    as (out & Hout & Hs & _).
  exists st, h', out. repeat split; assumption.
Defined.

(* ===================================================================== *)
(** * [double] arithmetic: how far a result is from the exact value *)
(* ===================================================================== *)

Lemma pow2_pos k : (0 < pow2 k)%Q.
Proof.
  unfold pow2. apply Qpower_0_lt. reflexivity.
Qed.

Lemma pow2_le k m : k <= m -> (pow2 k <= pow2 m)%Q.
Proof.
  intros H. unfold pow2. apply Qpower_le_compat_l; [exact H|discriminate].
Qed.

(** The binary exponent of a value that is at most [2^m]. *)
Lemma ilog2_le q m :
  0 <= m -> ~ (q == 0)%Q -> (Qabs q <= inject_Z (2 ^ m))%Q -> ilog2 q <= m.
Proof.
  intros Hm Hq Hle.
  assert (Hk : Z.log2 (Z.abs (Qnum q)) - Z.log2 (Z.pos (Qden q)) <= m).
  { destruct q as [n d]. unfold Qabs, Qle, inject_Z in Hle.
    cbn [Qnum Qden] in *.
    assert (Hn : 0 < Z.abs n).
    { unfold Qeq in Hq. cbn in Hq. lia. }
    assert (Hlog : Z.log2 (Z.abs n) <= Z.log2 (Z.pos d * 2 ^ m)).
    { apply Z.log2_le_mono. lia. }
    rewrite Z.log2_mul_pow2 in Hlog by lia. lia. }
  unfold ilog2. destruct (Qle_bool _ _); lia.
Qed.

(** Rounding to [double] moves a value of magnitude up to [2^m] by at
    most [2^(m-53)]. *)
Lemma round_double_error q m :
  0 <= m -> (Qabs q <= inject_Z (2 ^ m))%Q ->
  (Qabs (round_double q - q) <= pow2 (m - 53))%Q.
Proof.
  intros Hm Hle. unfold round_double.
  destruct (Qeq_bool q 0) eqn:E.
  - apply Qeq_bool_iff in E. rewrite E.
    change (Qabs (0 - 0)) with 0%Q.
    apply Qlt_le_weak, pow2_pos.
  - assert (Hq : ~ (q == 0)%Q).
    { intros H. apply Qeq_bool_iff in H. congruence. }
    pose proof (ilog2_le q m Hm Hq Hle) as He.
    cbv zeta.
    set (s := Z.max (ilog2 q - 52) (-1074)).
    assert (Hs : s <= m - 52) by (unfold s; lia).
    pose proof (pow2_pos s) as Hu.
    pose proof (pow2_le s (m - 52) Hs) as Hum.
    pose proof (cvRound_nearest (q / pow2 s)) as Hn.
    assert (Hhalf : (pow2 (m - 52) == 2 * pow2 (m - 53))%Q).
    { unfold pow2. replace (m - 52) with (1 + (m - 53)) by lia.
      rewrite Qpower_plus by discriminate. reflexivity. }
    assert (Hdiff : (inject_Z (cvRound (q / pow2 s)) * pow2 s - q
                     == (inject_Z (cvRound (q / pow2 s)) - q / pow2 s)
                        * pow2 s)%Q).
    { field. intros H. rewrite H in Hu. now apply Qlt_irrefl in Hu. }
    rewrite Hdiff.
    rewrite Qabs_Qmult, (Qabs_pos (pow2 s)) by now apply Qlt_le_weak.
    apply Qle_trans with ((1 # 2) * pow2 s)%Q.
    + apply Qmult_le_compat_r; [exact Hn|now apply Qlt_le_weak].
    + rewrite Hhalf in Hum. lra.
Qed.

Lemma ratio_bounds i :
  0 <= i <= 255 ->
  let x := double_div (inject_Z i) 255 in
  (0 <= x <= 1)%Q /\
  (inject_Z i * (1 # 255) - (1 # 1000000) <= x)%Q /\
  (x <= inject_Z i * (1 # 255) + (1 # 1000000))%Q.
Proof.
  intros Hi. cbv zeta.
  assert (Hall : forallb ratio_ok (seq 0 256) = true)
    by (vm_compute; reflexivity).
  rewrite forallb_forall in Hall.
  specialize (Hall (Z.to_nat i)).
  rewrite in_seq in Hall. specialize (Hall ltac:(lia)).
  unfold ratio_ok in Hall. rewrite Z2Nat.id in Hall by lia.
  rewrite !andb_true_iff in Hall.
  destruct Hall as [[[H0 H1] Hlo] Hhi].
  apply Qle_bool_iff in H0, H1, Hlo, Hhi.
  assert (Hsmall : (pow2 (-50) <= 1 # 1000000)%Q)
    by (apply Qle_bool_iff; vm_compute; reflexivity).
  repeat split; try assumption; lra.
Qed.

(* ===================================================================== *)
(** * [createGammaLUT]: the table against the identity *)
(* ===================================================================== *)

Lemma exp_le x y : (x <= y)%R -> (exp x <= exp y)%R.
Proof.
  intros [H| ->]; [left; now apply exp_increasing|right; reflexivity].
Qed.

Lemma ln_le_0 x : (0 < x <= 1)%R -> (ln x <= 0)%R.
Proof.
  intros [Hpos [Hlt| ->]].
  - left. rewrite <- ln_1. now apply ln_increasing.
  - right. apply ln_1.
Qed.

(** On [0, 1] the power is in [0, 1]; an exponent below 1 raises the
    argument and an exponent above 1 lowers it. *)
Lemma powR_bounds x g :
  (0 <= x <= 1)%R -> (0 <= g)%R ->
  (0 <= powR x g <= 1)%R /\
  ((g < 1)%R -> (x <= powR x g)%R) /\
  ((1 < g)%R -> (powR x g <= x)%R).
Proof.
  intros Hx Hg. unfold powR.
  destruct (Req_EM_T x 0) as [->|Hx0].
  - destruct (Req_EM_T g 0) as [->|Hg0];
      repeat split; intros; Lra.lra.
  - assert (Hpos : (0 < x)%R) by Lra.lra.
    pose proof (ln_le_0 x ltac:(Lra.lra)) as Hln.
    unfold Rpower.
    assert (Hx' : exp (ln x) = x) by now apply exp_ln.
    repeat split.
    + left. apply exp_pos.
    + rewrite <- exp_0. apply exp_le. Lra.nra.
    + intros Hlt. rewrite <- Hx' at 1. apply exp_le. Lra.nra.
    + intros Hgt. rewrite <- Hx' at 2. apply exp_le. Lra.nra.
Qed.

Lemma Rabs_le_bounds x a : (Rabs x <= a)%R -> (- a <= x <= a)%R.
Proof.
  unfold Rabs. destruct (Rcase_abs x); Lra.lra.
Qed.

Lemma Q2R_const (a : Z) (b : positive) :
  Q2R (a # b) = (IZR a / IZR (Z.pos b))%R.
Proof. reflexivity. Qed.

(** What the accuracy of [pow] gives on rationals. *)
Lemma pow_accurate_bounds pow g x :
  (0 <= g)%Q -> pow_accurate pow (1 # 1000) g ->
  (0 <= x <= 1)%Q ->
  (- (1 # 1000) <= pow x g <= 1 + (1 # 1000))%Q /\
  ((g < 1)%Q -> (x - (1 # 1000) <= pow x g)%Q) /\
  ((1 < g)%Q -> (pow x g <= x + (1 # 1000))%Q).
Proof.
  intros Hg Hacc Hx. specialize (Hacc x Hx).
  assert (HxR : (0 <= Q2R x <= 1)%R).
  { destruct Hx as [H0 H1]. apply Qle_Rle in H0, H1.
    rewrite Q2R_const in H0, H1. Lra.lra. }
  assert (HgR : (0 <= Q2R g)%R).
  { apply Qle_Rle in Hg. rewrite Q2R_const in Hg. Lra.lra. }
  destruct (powR_bounds (Q2R x) (Q2R g) HxR HgR) as ([Hp0 Hp1] & Hlo & Hhi).
  rewrite Q2R_const in Hacc.
  apply Rabs_le_bounds in Hacc.
  repeat split.
  - apply Rle_Qle. rewrite Q2R_opp, Q2R_const. Lra.lra.
  - apply Rle_Qle. rewrite Q2R_plus, !Q2R_const. Lra.lra.
  - intros Hlt. apply Qlt_Rlt in Hlt. rewrite Q2R_const in Hlt.
    specialize (Hlo ltac:(Lra.lra)).
    apply Rle_Qle. rewrite Q2R_minus, Q2R_const. Lra.lra.
  - intros Hgt. apply Qlt_Rlt in Hgt. rewrite Q2R_const in Hgt.
    specialize (Hhi ltac:(Lra.lra)).
    apply Rle_Qle. rewrite Q2R_plus, Q2R_const. Lra.lra.
Qed.

Lemma cvRound_ge (i : Z) y : (inject_Z i - (1 # 2) < y)%Q -> i <= cvRound y.
Proof.
  intros H. pose proof (cvRound_nearest y) as Hn.
  apply Qabs_Qle_condition in Hn. destruct Hn as [Hn _].
  destruct (Z.le_gt_cases i (cvRound y)) as [|Hgt]; [assumption|].
  assert (Hz : cvRound y <= i + -1) by lia.
  rewrite Zle_Qle, inject_Z_plus in Hz.
  change (inject_Z (-1)) with (-1)%Q in Hz. lra.
Qed.

Lemma cvRound_le (i : Z) y : (y < inject_Z i + (1 # 2))%Q -> cvRound y <= i.
Proof.
  intros H. pose proof (cvRound_nearest y) as Hn.
  apply Qabs_Qle_condition in Hn. destruct Hn as [_ Hn].
  destruct (Z.le_gt_cases (cvRound y) i) as [|Hgt]; [assumption|].
  assert (Hz : i + 1 <= cvRound y) by lia.
  rewrite Zle_Qle, inject_Z_plus in Hz.
  change (inject_Z 1) with 1%Q in Hz. lra.
Qed.

(** C9: the table [createGammaLUT] builds has 256 entries, and for every
    exponent that is not negative (the contract asks for a positive one):
    if it is below 1 every entry [table[i]] is at least [i], and if it is
    above 1 every entry is at most [i].  [std::pow] is taken to be within
    0.001 of the mathematical power on the arguments between 0 and 1; the
    quotient [i / 255.0] and the product with [255.0] are rounded as
    [double] arithmetic rounds them. *)
Theorem createGammaLUT_curve pow gamma_ :
  (0 <= gamma_)%Q ->
  pow_accurate pow (1 # 1000) gamma_ ->
  length (createGammaLUT pow gamma_) = 256%nat /\
  forall i, 0 <= i <= 255 ->
    exists v,
      createGammaLUT pow gamma_ !! Z.to_nat i = Some v /\
      ((gamma_ < 1)%Q -> i <= uchar_val v) /\
      ((1 < gamma_)%Q -> uchar_val v <= i).
Proof.
  intros Hg Hacc. split.
  { unfold createGammaLUT. now rewrite length_map, length_seq. }
  intros i Hi. unfold createGammaLUT.
  rewrite list_lookup_fmap, lookup_seq_lt by lia. cbn [fmap option_fmap option_map].
  eexists. split; [reflexivity|].
  rewrite Nat.add_0_l, Z2Nat.id by lia.
  destruct (ratio_bounds i Hi) as (Hx & Hxlo & Hxhi).
  set (x := double_div (inject_Z i) 255) in *.
  destruct (pow_accurate_bounds pow gamma_ x Hg Hacc Hx)
    as ([Hp0 Hp1] & Hlo & Hhi).
  set (p := pow x gamma_) in *.
  assert (Hmag : (Qabs (p * 255) <= inject_Z (2 ^ 8))%Q).
  { change (inject_Z (2 ^ 8)) with 256%Q.
    apply Qabs_Qle_condition. split; lra. }
  pose proof (round_double_error (p * 255) 8 ltac:(lia) Hmag) as Herr.
  assert (Hsmall : (pow2 (8 - 53) <= 1 # 1000000)%Q)
    by (apply Qle_bool_iff; vm_compute; reflexivity).
  apply Qabs_Qle_condition in Herr. destruct Herr as [Herr1 Herr2].
  fold (double_mul p 255) in Herr1, Herr2.
  set (y := double_mul p 255) in *.
  rewrite saturate_cast_uchar_val.
  assert (Hi0 : (inject_Z 0 <= inject_Z i)%Q) by (rewrite <- Zle_Qle; lia).
  assert (Hi1 : (inject_Z i <= inject_Z 255)%Q) by (rewrite <- Zle_Qle; lia).
  change (inject_Z 0) with 0%Q in Hi0. change (inject_Z 255) with 255%Q in Hi1.
  split.
  - intros Hlt. specialize (Hlo Hlt).
    assert (Hc : i <= cvRound y) by (apply cvRound_ge; lra).
    lia.
  - intros Hgt. specialize (Hhi Hgt).
    assert (Hc : cvRound y <= i) by (apply cvRound_le; lra).
    lia.
Qed.

Lemma powR_0 x : powR x 0 = 1%R.
Proof.
  unfold powR. destruct (Req_EM_T x 0).
  - destruct (Req_EM_T 0 0) as [_|N]; [reflexivity|now contradiction N].
  - unfold Rpower. now rewrite Rmult_0_l, exp_0.
Qed.

Lemma powR_2 x : (0 <= x)%R -> powR x 2 = (x * x)%R.
Proof.
  intros Hx. unfold powR. destruct (Req_EM_T x 0) as [->|N].
  - destruct (Req_EM_T 2 0); Lra.lra.
  - change 2%R with (INR 2). rewrite Rpower_pow by Lra.lra. simpl. ring.
Qed.

(** The sample power function is exact where it is used. *)
Lemma samplePow_accurate :
  pow_accurate samplePow (1 # 1000) 0 /\ pow_accurate samplePow (1 # 1000) 2.
Proof.
  assert (Heps : (0 <= Q2R (1 # 1000))%R)
    by (rewrite Q2R_const; Lra.lra).
  assert (E0 : Q2R 0 = 0%R) by (rewrite Q2R_const; Lra.lra).
  assert (E1 : Q2R 1 = 1%R) by (rewrite Q2R_const; Lra.lra).
  assert (E2 : Q2R 2 = 2%R) by (rewrite Q2R_const; Lra.lra).
  split; intros x [Hx0 Hx1]; apply Qle_Rle in Hx0; rewrite E0 in Hx0.
  - change (samplePow x 0) with 1%Q. rewrite E0, E1, powR_0.
    now rewrite Rminus_diag, Rabs_R0.
  - change (samplePow x 2) with (x * x)%Q.
    rewrite Q2R_mult, E2, powR_2 by exact Hx0.
    now rewrite Rminus_diag, Rabs_R0.
Qed.

Lemma createGammaLUT_curve_witness :
  (0 <= 2)%Q /\ pow_accurate samplePow (1 # 1000) 2 /\
  (0 <= 0)%Q /\ pow_accurate samplePow (1 # 1000) 0 /\
  createGammaLUT samplePow 2 !! 128%nat = Some (uchar_of 64) /\
  (exists v, createGammaLUT samplePow 2 !! Z.to_nat 128 = Some v /\
             uchar_val v <= 128) /\
  (exists v, createGammaLUT samplePow 0 !! Z.to_nat 128 = Some v /\
             128 <= uchar_val v).
Proof.
  assert (H2 : (0 <= 2)%Q) by discriminate.
  assert (H0 : (0 <= 0)%Q) by discriminate.
  pose proof (proj2 samplePow_accurate) as A2.
  pose proof (proj1 samplePow_accurate) as A0.
  split; [exact H2|]. split; [exact A2|].
  split; [exact H0|]. split; [exact A0|].
  split; [vm_compute; reflexivity|]. split.
  - destruct (proj2 (createGammaLUT_curve samplePow 2 H2 A2) 128
                ltac:(lia)) as (v & Hv & _ & Hle).
    exists v. split; [exact Hv|]. apply Hle. reflexivity.
  - destruct (proj2 (createGammaLUT_curve samplePow 0 H0 A0) 128
                ltac:(lia)) as (v & Hv & Hge & _).
    exists v. split; [exact Hv|]. apply Hge. reflexivity.
Defined.
